(** * The Squawk3G slow VM: native boundary, breakpoints and decoder

    A shallow embedding of the parts of the C sources under
    [slowvm/src] that the specification talks about:

    - [rts/gcc-eb40a/eb40a-io.c]: the pending switch-request queue and
      the platform tier of the channel dispatcher ([Eb40aIO]);
    - [vm/util.h]: assumption checks and alignment ([Util]);
    - [vm/squawk.c]: the registry of native buffers ([Buffers]);
    - [vm/debug.c]: the breakpoint table and its fast-lookup copy
      ([Debug]);
    - [vm/cio.c]: the copy-bytes channel operation ([Cio]);
    - [vm/trace.c]: the instruction decoder ([Trace]).

    C [int] and [jlong] values are integers of [Z] with the two's
    complement wrap-around written out ([Machine]); arrays are lists
    read with [!!] and updated with [<[ i := x ]>]; the linked queue of
    switch requests is the list of its records in link order. *)

From Stdlib Require Import Ascii.
From stdpp Require Import base numbers list strings.

(** ** Machine integers *)

Module Machine.
Local Open Scope Z_scope.

(** The value of [z] once stored in a signed integer of [bits] bits. *)
Definition wrap_signed (bits z : Z) : Z :=
  (z + 2 ^ (bits - 1)) mod 2 ^ bits - 2 ^ (bits - 1).

(** The value of [z] once stored in an unsigned integer of [bits] bits. *)
Definition wrap_unsigned (bits z : Z) : Z := z mod 2 ^ bits.

Definition to_int : Z -> Z := wrap_signed 32.
Definition to_jlong : Z -> Z := wrap_signed 64.
Definition to_uint : Z -> Z := wrap_unsigned 32.

Definition in_int (z : Z) : Prop := - 2 ^ 31 <= z < 2 ^ 31.
Definition in_jlong (z : Z) : Prop := - 2 ^ 63 <= z < 2 ^ 63.

End Machine.

(** ** How a routine of the VM ends *)

Module Vm.

(** A routine returns, or ends the VM through [fatalVMError], or ends
    the process through [stopVM] or [exit]; [ReadsPastEnd] marks a read
    outside the array it indexes and [WritesPastEnd] a store outside
    the block it was given, after which C says nothing of what the
    program does. *)
Inductive Outcome (A : Type) : Type :=
  | Returns (a : A)
  | FatalVMError (msg : string)
  | Exits (code : Z)
  | ReadsPastEnd
  | WritesPastEnd.

Arguments Returns {A} a.
Arguments FatalVMError {A} msg.
Arguments Exits {A} code.
Arguments ReadsPastEnd {A}.
Arguments WritesPastEnd {A}.

Definition bind {A B : Type} (o : Outcome A) (k : A -> Outcome B) : Outcome B :=
  match o with
  | Returns a => k a
  | FatalVMError msg => FatalVMError msg
  | Exits code => Exits code
  | ReadsPastEnd => ReadsPastEnd
  | WritesPastEnd => WritesPastEnd
  end.

End Vm.

(** ** [util.h]: alignment and low-level operations *)

Module Util.
Import Machine Vm.
Local Open Scope Z_scope.

(** [assume(x)]: where [ASSUME] is compiled in, a condition that fails
    ends the VM through [fatalVMError]. *)
Definition assume (ASSUME : bool) (x : bool) : Outcome unit :=
  if ASSUME && negb x then FatalVMError "" else Returns tt.

(** [UWord] values are 32-bit unsigned numbers; [~x] on them is
    [to_uint (Z.lnot x)]. *)
Definition isPowerOf2 (value : Z) : bool :=
  bool_decide (Z.land value (to_uint (value - 1)) = 0).

Definition roundUp (ASSUME : bool) (value alignment : Z) : Outcome Z :=
  bind (assume ASSUME (isPowerOf2 alignment)) (fun _ =>
  Returns (Z.land (to_uint (value + to_uint (alignment - 1)))
                  (to_uint (Z.lnot (to_uint (alignment - 1)))))).

Definition roundDown (ASSUME : bool) (value alignment : Z) : Outcome Z :=
  bind (assume ASSUME (isPowerOf2 alignment)) (fun _ =>
  Returns (Z.land value (to_uint (Z.lnot (to_uint (alignment - 1)))))).

Definition isAligned (ASSUME : bool) (value alignment : Z) : Outcome bool :=
  bind (roundDown ASSUME value alignment) (fun down =>
  Returns (bool_decide (value = down))).

(** [roundUpToWord], [roundDownToWord] and [isWordAligned], for a word
    of [HDR_BYTES_PER_WORD] bytes. *)
Definition roundUpToWord (HDR_BYTES_PER_WORD value : Z) : Z :=
  Z.land (to_uint (value + to_uint (HDR_BYTES_PER_WORD - 1)))
         (to_uint (Z.lnot (HDR_BYTES_PER_WORD - 1))).

Definition roundDownToWord (HDR_BYTES_PER_WORD value : Z) : Z :=
  Z.land value (to_uint (Z.lnot (HDR_BYTES_PER_WORD - 1))).

Definition isWordAligned (HDR_BYTES_PER_WORD value : Z) : bool :=
  bool_decide (value = roundDownToWord HDR_BYTES_PER_WORD value).

(** The shifts on [int]. *)
Definition sll (a b : Z) : Z := to_int (Z.shiftl a (Z.land b 31)).
Definition sra (a b : Z) : Z := Z.shiftr a (Z.land b 31).
Definition srl (a b : Z) : Z := to_int (Z.shiftr (to_uint a) (Z.land b 31)).

Definition is_uword (z : Z) : Prop := 0 <= z < 2 ^ 32.

End Util.

(** ** [eb40a-io.c]: switch requests and the platform channel tier *)

Module Eb40aIO.
Import Machine.
Local Open Scope Z_scope.

(** [struct switchRequest]; the [next] link is the list structure of
    the queue [switchRequests]. *)
Record SwitchRequest : Type := mkSwitchRequest {
  eventNumber : Z;
  mask : Z
}.

#[export] Instance SwitchRequest_eq_dec : EqDecision SwitchRequest.
Proof. solve_decision. Defined.

(** The result codes and channel types of [ChannelConstants], which the
    sources under study use but do not define. *)
Record ChannelConstants : Type := mkChannelConstants {
  RESULT_OK : Z;
  RESULT_BADPARAMETER : Z;
  RESULT_EXCEPTION : Z;
  CHANNEL_LED : Z;
  CHANNEL_SW : Z
}.

(** The operation codes [ioExecute] switches on. *)
Inductive ChannelOp : Type :=
  | GLOBAL_CREATECONTEXT
  | CONTEXT_GETCHANNEL
  | LED_OFF
  | LED_ON
  | SW_READ
  | PEEK
  | POKE
  | CONTEXT_GETRESULT
  | CONTEXT_GETRESULT_2
  | CONTEXT_GETERROR
  | GLOBAL_GETEVENT
  | GLOBAL_WAITFOREVENT
  | GLOBAL_DELETECONTEXT
  | OTHER_OP (code : Z).

(** What the board does on behalf of one call: whether [malloc] finds
    memory, the switches as the [n]-th poll of the call sees them, the
    successive readings of [getMilliseconds], the words that a raw
    peek reads, and what a raw poke does to the data of this file.  A
    poke stores a word wherever its address points: in a device
    register or, for all the code checks, in a pending record or in a
    global.  Where records and globals lie is up to the allocator and
    the linker, so it is [poke_word] that says what the store of
    [value] at [address] leaves of them: the records that the chain
    from [switchRequests] leads through, and [retValue]. *)
Record World : Type := mkWorld {
  malloc_ok : bool;
  sw_is_pressed : nat -> Z -> bool;
  getMilliseconds : nat -> Z;
  peek_word : Z -> Z;
  poke_word : Z -> Z -> list SwitchRequest * Z -> list SwitchRequest * Z
}.

(** Effects on the board that the dispatcher only triggers. *)
Inductive HwEffect : Type :=
  | TurnOffLeds (m : Z)
  | TurnOnLeds (m : Z)
  | PokeWord (address value : Z).

(** The globals of [eb40a-io.c], and the effects issued so far. *)
Record IOState : Type := mkIOState {
  switchRequests : list SwitchRequest;
  retValue : Z;
  effects : list HwEffect
}.

(** [while (current->next != NULL) current = current->next;] *)
Fixpoint last_request (current : SwitchRequest) (next : list SwitchRequest)
  : SwitchRequest :=
  match next with
  | [] => current
  | r :: next' => last_request r next'
  end.

(** [storeSwitchRequest]: the result and the queue afterwards. *)
Definition storeSwitchRequest (cc : ChannelConstants) (mallocOk : bool)
    (switchMask : Z) (q : list SwitchRequest) : Z * list SwitchRequest :=
  if negb mallocOk then (RESULT_EXCEPTION cc, q)
  else
    match q with
    | [] => (1, [mkSwitchRequest 1 switchMask])
    | first :: rest =>
        let current := last_request first rest in
        let n := to_int (eventNumber current + 1) in
        (n, q ++ [mkSwitchRequest n switchMask])
    end.

(** The loop of [getEventPrim]: [previous] holds the records already
    walked past, [current] the record under inspection and its
    successors.  Unchaining [current] leaves [previous] linked to
    [current->next]. *)
Fixpoint getEventPrim_loop (pressed : Z -> bool) (removeEventFlag : bool)
    (previous current : list SwitchRequest) : Z * list SwitchRequest :=
  match current with
  | [] => (0, previous)
  | c :: next =>
      if pressed (mask c) then
        (eventNumber c,
         if removeEventFlag then previous ++ next else previous ++ c :: next)
      else getEventPrim_loop pressed removeEventFlag (previous ++ [c]) next
  end.

Definition getEventPrim (pressed : Z -> bool) (removeEventFlag : bool)
    (q : list SwitchRequest) : Z * list SwitchRequest :=
  match q with
  | [] => (0, q)
  | _ => getEventPrim_loop pressed removeEventFlag [] q
  end.

Definition getEvent (pressed : Z -> bool) (q : list SwitchRequest) :=
  getEventPrim pressed true q.

Definition checkForEvents (pressed : Z -> bool) (q : list SwitchRequest) :=
  getEventPrim pressed false q.

(** [0x7FFFFFFFFFFFFFFFLL] *)
Definition maxValue : Z := 2 ^ 63 - 1.

(** [millisecondsToWait] of the wait request, from [i1] and [i2]. *)
Definition millisecondsToWait (i1 i2 : Z) : Z :=
  to_jlong (Z.lor (to_jlong (Z.shiftl i1 32)) (Z.land i2 (2 ^ 32 - 1))).

(** [target], from the first reading of the clock. *)
Definition wait_target (now i1 i2 : Z) : Z :=
  let target := to_jlong (now + millisecondsToWait i1 i2) in
  if target <=? 0 then maxValue else target.

(** The polling loop [while (1) { ... }] of the wait request.  Round [k]
    checks for events with the switches as poll [k] sees them, then reads
    the clock for the [k+1]-th time.  The loop need not end, so it runs
    on [fuel]; the answer is the round in which it broke out and whether
    it was an event that ended it. *)
Fixpoint wait_loop (w : World) (q : list SwitchRequest) (target : Z)
    (fuel k : nat) : option (nat * bool) :=
  match fuel with
  | O => None
  | S fuel' =>
      if negb (fst (checkForEvents (sw_is_pressed w k) q) =? 0) then
        Some (k, true)
      else if getMilliseconds w (S k) >? target then Some (k, false)
      else wait_loop w q target fuel' (S k)
  end.

(** [ioExecute]: the value left in [java_lang_ServiceOperation_result]
    and the state afterwards; [None] when the wait loop has not ended
    within [fuel] rounds. *)
Definition ioExecute (cc : ChannelConstants) (w : World) (fuel : nat)
    (op : ChannelOp) (i1 i2 : Z) (st : IOState) : option (Z * IOState) :=
  match op with
  | GLOBAL_CREATECONTEXT => Some (1, st)
  | CONTEXT_GETCHANNEL =>
      let channelType := i1 in
      if channelType =? CHANNEL_LED cc then Some (1, st)
      else if negb (channelType =? CHANNEL_SW cc) then Some (2, st)
      else Some (RESULT_BADPARAMETER cc, st)
  | LED_OFF =>
      Some (RESULT_OK cc,
            mkIOState (switchRequests st) (retValue st)
                      (effects st ++ [TurnOffLeds i1]))
  | LED_ON =>
      Some (RESULT_OK cc,
            mkIOState (switchRequests st) (retValue st)
                      (effects st ++ [TurnOnLeds i1]))
  | SW_READ =>
      let mask := i1 in
      if sw_is_pressed w 0%nat mask then Some (0, st)
      else
        let '(res, q) :=
          storeSwitchRequest cc (malloc_ok w) mask (switchRequests st) in
        Some (res, mkIOState q (retValue st) (effects st))
  | PEEK =>
      Some (RESULT_OK cc,
            mkIOState (switchRequests st) (to_int (peek_word w (to_uint i1)))
                      (effects st))
  | POKE =>
      let '(q, ret) :=
        poke_word w (to_uint i1) (to_uint i2) (switchRequests st, retValue st) in
      Some (RESULT_OK cc,
            mkIOState q ret
                      (effects st ++ [PokeWord (to_uint i1) (to_uint i2)]))
  | CONTEXT_GETRESULT | CONTEXT_GETRESULT_2 | CONTEXT_GETERROR =>
      Some (retValue st, mkIOState (switchRequests st) 0 (effects st))
  | GLOBAL_GETEVENT =>
      let '(res, q) := getEvent (sw_is_pressed w 0%nat) (switchRequests st) in
      Some (res, mkIOState q (retValue st) (effects st))
  | GLOBAL_WAITFOREVENT =>
      let target := wait_target (getMilliseconds w 0%nat) i1 i2 in
      match wait_loop w (switchRequests st) target fuel 0%nat with
      | Some _ => Some (0, st)
      | None => None
      end
  | GLOBAL_DELETECONTEXT => Some (0, st)
  | OTHER_OP _ => Some (RESULT_BADPARAMETER cc, st)
  end.

(** *** Notions used in the statements *)

(** The number [storeSwitchRequest] gives the next record. *)
Definition next_event_number (q : list SwitchRequest) : Z :=
  match last q with
  | None => 1
  | Some r => to_int (eventNumber r + 1)
  end.

(** The queue holds the numbers [1], [2], ... in order. *)
Definition numbered_from_one (q : list SwitchRequest) : Prop :=
  forall (i : nat) r, q !! i = Some r -> eventNumber r = Z.of_nat i + 1.

Definition not_pressed (pressed : Z -> bool) (r : SwitchRequest) : Prop :=
  pressed (mask r) = false.

(** Sample values for the constants. *)
Definition cc0 : ChannelConstants := mkChannelConstants 0 (-3) (-2) 1 2.

(** A board where switch [m] is pressed at every poll iff [down m], the
    clock reads [clock n] at the [n]-th reading, and pokes land outside
    the data of this file. *)
Definition board (mallocOk : bool) (down : Z -> bool) (clock : nat -> Z)
  : World :=
  mkWorld mallocOk (fun _ => down) clock (fun _ => 0) (fun _ _ data => data).

(** A board on which the first pending record lies at address 4096,
    its [eventNumber] first: a poke at that address renumbers it. *)
Definition record_at_4096 : World :=
  mkWorld true (fun _ _ => false) (fun _ => 0) (fun _ => 0)
    (fun address value data =>
       match data with
       | (r :: q, ret) =>
           if decide (address = 4096)
           then (mkSwitchRequest (to_int value) (mask r) :: q, ret)
           else data
       | _ => data
       end).

(** No request pending. *)
Definition idle : IOState := mkIOState [] 0 [].

(** The requested wait as a number: [i1] is the high word, the 32 bits
    of [i2] are the low word. *)
Definition requested (i1 i2 : Z) : Z := i1 * 2 ^ 32 + i2 mod 2 ^ 32.

(** What round [k] of the polling loop sees. *)
Definition event_seen (w : World) (q : list SwitchRequest) (k : nat) : Prop :=
  fst (checkForEvents (sw_is_pressed w k) q) <> 0.

Definition deadline_passed (w : World) (target : Z) (k : nat) : Prop :=
  getMilliseconds w (S k) > target.

(** A clock that reads [start] first and one millisecond more at each
    later reading. *)
Definition ticking (start : Z) : nat -> Z := fun n => start + Z.of_nat n.

(** The state after two read-switch requests (masks 1 and 2, nothing
    pressed) and a consuming event check made while switch 1 is down. *)
Definition drained_head : option IOState :=
  let up := board true (fun _ => false) (fun _ => 0) in
  let down1 := board true (fun m => bool_decide (m = 1)) (fun _ => 0) in
  '(_, st1) ← ioExecute cc0 up 0 SW_READ 1 0 idle;
  '(_, st2) ← ioExecute cc0 up 0 SW_READ 2 0 st1;
  '(_, st3) ← ioExecute cc0 down1 0 GLOBAL_GETEVENT 0 0 st2;
  Some st3.

End Eb40aIO.

(** ** [squawk.c]: the registry of native buffers *)

Module Buffers.
Import Machine Vm Util.

Definition MAX_BUFFERS : nat := 10.

(** The globals [Buffers] and [BufferCount]; an address is a [Z], with
    [0] for [null]. *)
Record Registry : Type := mkRegistry {
  Buffers : list Z;
  BufferCount : nat
}.

(** The registered buffers: the first [BufferCount] slots. *)
Definition registered (r : Registry) : list Z :=
  take (BufferCount r) (Buffers r).

Definition well_sized (r : Registry) : Prop :=
  length (Buffers r) = MAX_BUFFERS /\ BufferCount r <= MAX_BUFFERS.

(** [actualSize]: the size rounded up to whole pages. *)
Definition page_rounded (pageSize size : Z) : Z :=
  to_int (Z.land (size + (pageSize - 1)) (Z.lnot (pageSize - 1))).

(** [newBuffer]; [valloc] is the host allocator, from the [int] it is
    called with to the address of the block it hands out, null when it
    refuses; [ASSUME] says whether [assume] is compiled in.  The
    contents of the block are not part of the model; of
    [memset(buffer, 0, (int)size)] it keeps whether the [(int)size]
    bytes, taken as a [size_t], fit the block of [actualSize] bytes,
    taken as a [size_t]: both conversions extend the sign, so the two
    compare as the 32-bit unsigned values do.  For a size of [2^31] or
    more both are negative as [int]: the allocator is asked for more
    than [2^31] bytes, and the null branch is taken where it
    refuses. *)
Definition newBuffer (ASSUME : bool) (HDR_BYTES_PER_WORD pageSize : Z)
    (valloc : Z -> Z) (size : Z) (fatalIfFail : bool) (r : Registry)
  : Outcome (Z * Registry) :=
  let actualSize := page_rounded pageSize size in
  let buffer := valloc actualSize in
  bind (assume ASSUME (isWordAligned HDR_BYTES_PER_WORD (to_uint buffer)))
       (fun _ =>
  if decide (buffer = 0%Z) then
    if fatalIfFail then Exits 1 else Returns (0%Z, r)
  else if decide (to_uint actualSize < to_uint (to_int size))%Z then
    WritesPastEnd
  else if decide (MAX_BUFFERS <= BufferCount r) then
    FatalVMError "exceeded MAX_BUFFERS allocations"
  else
    Returns (buffer,
             mkRegistry (<[BufferCount r := buffer]> (Buffers r))
                        (S (BufferCount r)))).

(** The loop of [freeBuffer], with [n] slots still to visit; [freed]
    lists the calls of [free]. *)
Fixpoint freeBuffer_loop (buffer : Z) (n i insert : nat) (bufs freed : list Z)
  : list Z * nat * list Z :=
  match n with
  | O => (bufs, insert, freed)
  | S n' =>
      let b := bufs !!! i in
      if decide (b = buffer) then
        freeBuffer_loop buffer n' (S i) insert bufs (freed ++ [buffer])
      else
        freeBuffer_loop buffer n' (S i) (S insert) (<[insert := b]> bufs) freed
  end.

(** [freeBuffer]: the registry afterwards and the calls of [free]. *)
Definition freeBuffer (buffer : Z) (r : Registry)
  : Outcome (Registry * list Z) :=
  let '(bufs, insert, freed) :=
    freeBuffer_loop buffer (BufferCount r) 0 0 (Buffers r) [] in
  if decide (BufferCount r = insert + 1) then
    Returns (mkRegistry bufs insert, freed)
  else FatalVMError "buffer not in Buffers exactly once".

(** The number of registered slots that hold [buffer]. *)
Definition occurrences (buffer : Z) (r : Registry) : nat :=
  length (filter (fun b => b = buffer) (registered r)).

(** A registry with two buffers. *)
Definition two_buffers : Registry :=
  mkRegistry [4096; 8192; 0; 0; 0; 0; 0; 0; 0; 0]%Z 2.

End Buffers.

(** ** [debug.c]: breakpoints *)

Module Debug.
Import Machine Vm.
Local Open Scope Z_scope.

Definition DB_MAX_BPS : nat := 20.

(** The two opcodes [debug.c] compares with; their values come from the
    generated [rom.h]. *)
Record ExtendOpcodes : Type := mkExtendOpcodes {
  OPC_EXTEND : Z;
  OPC_EXTEND0 : Z
}.

(** What the C compiler decides and [debug.c] depends on.  Plain
    [char] is signed or unsigned.  The scan of the command loop writes
    the seven characters [*DEBUG*] and their terminator into
    [char hdr[7]], so the terminator lands one byte past the array,
    on whatever the compiler has put there.
    [hdr_overrun_clears_format] says whether that is the first
    character of [format], which leaves the format string empty for
    the scans that follow.  On [cmd], [done] or [result] the byte is
    overwritten or changes nothing; on [buf] it leaves the handlers an
    empty line to scan, a case that [ClientLine] covers; on an
    argument of the loop it changes what a data command reports, which
    is not part of the model. *)
Record DebugBuild : Type := mkDebugBuild {
  char_is_signed : bool;
  hdr_overrun_clears_format : bool
}.

(** What the VM has written on the debug stream. *)
Inductive DbMessage : Type :=
  | MsgReady
  | MsgHit (bpnum : nat)
  | MsgDataState
  | MsgDataMemory (addr size : Z).

(** The globals of [debug.c]: [db_bp_table] has [DB_MAX_BPS] slots and
    [db_current_ips] one more.  Addresses are 32-bit words. *)
Record DbState : Type := mkDbState {
  db_debug_enabled : bool;
  db_bp_set : bool;
  db_bp_table : list Z;
  db_current_ips : list Z;
  db_sent : list DbMessage
}.

Definition sized (st : DbState) : Prop :=
  length (db_bp_table st) = DB_MAX_BPS /\
  length (db_current_ips st) = S DB_MAX_BPS.

(** A line of the client, as the [sscanf] calls take it apart.  [hdr]
    and [cmd] are what the scan of the command loop, run with its
    format as initialised, leaves in its locals; the other fields are
    what the scan of the handler that is run on the line leaves in the
    locals of the handler: the letters and numbers that follow on the
    line or, for a field that the line does not have, whatever the
    local held. *)
Record ClientLine : Type := mkClientLine {
  hdr : string;
  cmd : ascii;
  subcmd : ascii;
  subsubcmd : ascii;
  num1 : Z;
  num2 : Z
}.

(** First loop of [db_regenerate_current_ips], [n] slots to go. *)
Fixpoint regenerate_copy (n i j : nat) (table ips : list Z) : list Z * nat :=
  match n with
  | O => (ips, j)
  | S n' =>
      let a := table !!! i in
      if decide (a = 0) then regenerate_copy n' (S i) j table ips
      else regenerate_copy n' (S i) (S j) table (<[j := to_uint (a + 1)]> ips)
  end.

(** Second loop of [db_regenerate_current_ips], [n] slots to go. *)
Fixpoint regenerate_clear (n i : nat) (ips : list Z) : list Z :=
  match n with
  | O => ips
  | S n' => regenerate_clear n' (S i) (<[i := 0]> ips)
  end.

Definition db_regenerate_current_ips (st : DbState) : DbState :=
  let '(ips, j) :=
    regenerate_copy DB_MAX_BPS 0 0 (db_bp_table st) (db_current_ips st) in
  mkDbState (db_debug_enabled st) (db_bp_set st) (db_bp_table st)
            (regenerate_clear (DB_MAX_BPS - j) j ips) (db_sent st).

(** The loop of the clear command that recomputes [db_bp_set]. *)
Fixpoint clear_scan (n i : nat) (table : list Z) (bp_set : bool) : bool :=
  match n with
  | O => bp_set
  | S n' =>
      if decide (table !!! i = 0) then clear_scan n' (S i) table false
      else true
  end.

(** The value of a byte once it is stored in a plain [char]. *)
Definition to_char (bd : DebugBuild) (byte : Z) : Z :=
  if char_is_signed bd then wrap_signed 8 byte else wrap_unsigned 8 byte.

(** [db_process_break_cmd], with [subcmd], [bpnum] and [addr] as its
    scan leaves them; [mem] gives the byte at an address, which the
    set command stores in the plain [char op] before it compares it
    with the opcodes.  The scan writes the terminator of its header
    one byte past [char hdr[9]] too; the handler scans once, so a
    cleared format is not read again, and it assigns [subcmd], [bpnum]
    and [addr] after the header. *)
Definition db_process_break_cmd (bd : DebugBuild) (ops : ExtendOpcodes)
    (mem : Z -> Z) (subcmd : ascii) (bpnum addr : Z) (st : DbState)
  : Outcome DbState :=
  if decide (bpnum < 0 \/ Z.of_nat DB_MAX_BPS <= bpnum) then Exits (-1)
  else if decide (subcmd = "S"%char) then
    let op := to_char bd (mem (to_uint addr)) in
    let addr :=
      if decide (op = OPC_EXTEND ops) then to_int (addr + 2)
      else if decide (op = OPC_EXTEND0 ops) then to_int (addr + 1)
      else addr in
    Returns (db_regenerate_current_ips
               (mkDbState (db_debug_enabled st) true
                          (<[Z.to_nat bpnum := to_uint addr]> (db_bp_table st))
                          (db_current_ips st) (db_sent st)))
  else if decide (subcmd = "C"%char) then
    let table := <[Z.to_nat bpnum := 0]> (db_bp_table st) in
    Returns (db_regenerate_current_ips
               (mkDbState (db_debug_enabled st)
                          (clear_scan DB_MAX_BPS 0 table (db_bp_set st))
                          table (db_current_ips st) (db_sent st)))
  else Exits (-1).

(** [db_process_data_cmd]: the answers go to the debug stream. *)
Definition db_process_data_cmd (line : ClientLine) (st : DbState)
  : Outcome DbState :=
  let send m :=
    Returns (mkDbState (db_debug_enabled st) (db_bp_set st) (db_bp_table st)
                       (db_current_ips st) (db_sent st ++ [m])) in
  if decide (subcmd line = "S"%char) then Exits (-1)
  else if decide (subcmd line = "G"%char) then
    if decide (subsubcmd line = "S"%char) then send MsgDataState
    else if decide (subsubcmd line = "M"%char) then
      send (MsgDataMemory (num1 line) (num2 line))
    else Exits (-1)
  else Exits (-1).

(** The loop of [db_process_client_commands]: lines are taken from
    [input] until a continue command; running out of input is the
    read error.  [held] is [None] as long as [format] is as
    initialised, and the scan then fills [hdr] and [cmd] from the
    line.  Once the terminator written past [hdr] has cleared
    [format], the scan assigns nothing and [hdr] and [cmd] keep what
    they hold, [held]; the handlers still scan the line themselves. *)
Fixpoint client_loop (bd : DebugBuild) (ops : ExtendOpcodes) (mem : Z -> Z)
    (held : option (string * ascii)) (input : list ClientLine) (st : DbState)
  : Outcome (DbState * list ClientLine) :=
  match input with
  | [] => Exits (-1)
  | line :: rest =>
      let scanned :=
        match held with
        | Some locals => locals
        | None => (hdr line, cmd line)
        end in
      let held' :=
        match held with
        | Some locals => Some locals
        | None =>
            if hdr_overrun_clears_format bd
               && (7 <=? String.length (hdr line))%nat
            then Some scanned else None
        end in
      if decide (scanned.1 = "*DEBUG*"%string) then
        if decide (scanned.2 = "B"%char) then
          bind (db_process_break_cmd bd ops mem (subcmd line) (num1 line)
                                     (num2 line) st)
               (client_loop bd ops mem held' rest)
        else if decide (scanned.2 = "C"%char) then Returns (st, rest)
        else if decide (scanned.2 = "D"%char) then
          bind (db_process_data_cmd line st)
               (client_loop bd ops mem held' rest)
        else Exits (-1)
      else Exits (-1)
  end.

Definition db_process_client_commands (bd : DebugBuild) (ops : ExtendOpcodes)
    (mem : Z -> Z) (input : list ClientLine) (st : DbState)
  : Outcome (DbState * list ClientLine) :=
  client_loop bd ops mem None input st.

(** The loop of [db_prepare], [n] slots to go. *)
Fixpoint prepare_loop (n i : nat) (table ips : list Z) : list Z * list Z :=
  match n with
  | O => (table, ips)
  | S n' => prepare_loop n' (S i) (<[i := 0]> table) (<[i := 0]> ips)
  end.

(** The part of [db_prepare] that resets the globals. *)
Definition db_reset (st : DbState) : DbState :=
  let '(table, ips) :=
    prepare_loop DB_MAX_BPS 0 (db_bp_table st) (db_current_ips st) in
  mkDbState (db_debug_enabled st) false table (<[DB_MAX_BPS := 0]> ips)
            (db_sent st).

Definition db_send_ready (st : DbState) : DbState :=
  mkDbState (db_debug_enabled st) (db_bp_set st) (db_bp_table st)
            (db_current_ips st) (db_sent st ++ [MsgReady]).

Definition db_prepare (bd : DebugBuild) (ops : ExtendOpcodes) (mem : Z -> Z)
    (input : list ClientLine) (st : DbState)
  : Outcome (DbState * list ClientLine) :=
  if db_debug_enabled st then
    db_process_client_commands bd ops mem input (db_send_ready (db_reset st))
  else Returns (st, input).

(** The [for] loop of [db_checkBreak] over the authoritative table: the
    first slot from [j] on that holds [actual_ip - 1]. *)
Fixpoint find_breakpoint (n j : nat) (table : list Z) (actual_ip : Z)
  : option nat :=
  match n with
  | O => None
  | S n' =>
      if decide (table !!! j = to_uint (actual_ip - 1)) then Some j
      else find_breakpoint n' (S j) table actual_ip
  end.

Definition db_send_bp_hit (bpnum : nat) (st : DbState) : DbState :=
  mkDbState (db_debug_enabled st) (db_bp_set st) (db_bp_table st)
            (db_current_ips st) (db_sent st ++ [MsgHit bpnum]).

(** The [while] loop of [db_checkBreak]: slot [i] of [db_current_ips] is
    read, then [i] is incremented.  The commands handled at a hit may
    rewrite the array before the loop goes on. *)
Fixpoint checkBreak_loop (bd : DebugBuild) (ops : ExtendOpcodes)
    (mem : Z -> Z) (fuel i : nat)
    (actual_ip : Z) (input : list ClientLine) (st : DbState)
  : Outcome (DbState * list ClientLine) :=
  match fuel with
  | O => ReadsPastEnd
  | S fuel' =>
      match db_current_ips st !! i with
      | None => ReadsPastEnd
      | Some bp_ip =>
          if decide (bp_ip = 0) then Returns (st, input)
          else if decide (bp_ip = actual_ip) then
            match find_breakpoint DB_MAX_BPS 0 (db_bp_table st) actual_ip with
            | Some j =>
                bind (db_process_client_commands bd ops mem input
                        (db_send_bp_hit j st))
                     (fun '(st', input') =>
                        checkBreak_loop bd ops mem fuel' (S i) actual_ip
                                        input' st')
            | None => checkBreak_loop bd ops mem fuel' (S i) actual_ip input st
            end
          else checkBreak_loop bd ops mem fuel' (S i) actual_ip input st
      end
  end.

Definition db_checkBreak (bd : DebugBuild) (ops : ExtendOpcodes)
    (mem : Z -> Z)
    (actual_ip : Z) (input : list ClientLine) (st : DbState)
  : Outcome (DbState * list ClientLine) :=
  if db_debug_enabled st then
    if db_bp_set st then
      checkBreak_loop bd ops mem (DB_MAX_BPS + 2) 0 actual_ip input st
    else Returns (st, input)
  else Returns (st, input).

(** The active entries of a breakpoint table, in slot order. *)
Definition active (table : list Z) : list Z :=
  filter (fun a => a <> 0) table.

(** *** Notions used in the statements *)

(** The entry of the fast-lookup array for a breakpoint at [a]. *)
Definition next_ip (a : Z) : Z := to_uint (a + 1).

(** The fast-lookup array that a breakpoint table calls for: the entries
    of the active slots, packed from index 0, then zeros. *)
Definition packed (table : list Z) : list Z :=
  (next_ip <$> active table)
  ++ replicate (S DB_MAX_BPS - length (active table)) 0.

(** A zero at an index up to [DB_MAX_BPS] with every non-zero entry
    before it. *)
Definition has_sentinel (ips : list Z) : Prop :=
  exists k : nat,
    (k <= DB_MAX_BPS)%nat /\ ips !! k = Some 0 /\
    forall (i : nat) v, ips !! i = Some v -> v <> 0 -> (i < k)%nat.

(** A run of break commands [(subcmd, bpnum, addr)]. *)
Fixpoint db_process_break_cmds (bd : DebugBuild) (ops : ExtendOpcodes)
    (mem : Z -> Z)
    (cmds : list (ascii * Z * Z)) (st : DbState) : Outcome DbState :=
  match cmds with
  | [] => Returns st
  | (subcmd, bpnum, addr) :: cmds' =>
      bind (db_process_break_cmd bd ops mem subcmd bpnum addr st)
           (db_process_break_cmds bd ops mem cmds')
  end.

(** The states of a debug-enabled VM between two instructions: after
    [db_prepare], and after each [db_checkBreak]. *)
Inductive reachable (bd : DebugBuild) (ops : ExtendOpcodes) (mem : Z -> Z)
  : DbState -> Prop :=
  | reachable_prepare st0 input st rest :
      sized st0 -> db_debug_enabled st0 = true ->
      db_prepare bd ops mem input st0 = Returns (st, rest) ->
      reachable bd ops mem st
  | reachable_checkBreak st actual_ip input st' rest :
      reachable bd ops mem st ->
      db_checkBreak bd ops mem actual_ip input st = Returns (st', rest) ->
      reachable bd ops mem st'.

(** The arrays have their sizes and the fast-lookup array is the one
    the table calls for. *)
Definition consistent (st : DbState) : Prop :=
  sized st /\ db_current_ips st = packed (db_bp_table st).

(** The globals as C initialises them, with debugging switched on. *)
Definition db_startup : DbState :=
  mkDbState true false (replicate DB_MAX_BPS 0) (replicate (S DB_MAX_BPS) 0) [].

(** A build with unsigned [char] in which the byte written past [hdr]
    does no harm, and one with signed [char] in which it clears
    [format]. *)
Definition unsigned_unharmed : DebugBuild := mkDebugBuild false false.
Definition signed_cleared : DebugBuild := mkDebugBuild true true.

(** Sample values for the two opcodes. *)
Definition ops0 : ExtendOpcodes := mkExtendOpcodes 200 201.

(** A memory with [OPC_EXTEND] at address 300, [OPC_EXTEND0] at address
    400 and zero elsewhere. *)
Definition mem0 : Z -> Z :=
  fun a => if decide (a = 300) then 200 else if decide (a = 400) then 201 else 0.

(** A well-formed line of the client. *)
Definition line (cmd subcmd : ascii) (n1 n2 : Z) : ClientLine :=
  mkClientLine "*DEBUG*" cmd subcmd "-" n1 n2.

(** The state that [some_commands] lead to. *)
Definition after_commands : DbState :=
  mkDbState true true ([0; 0; 401] ++ replicate 17 0)
            ([402] ++ replicate 20 0) [].

(** Sets and clears on slots 0 and 2. *)
Definition some_commands : list (ascii * Z * Z) :=
  [("S"%char, 0, 100); ("S"%char, 2, 400); ("C"%char, 0, 0);
   ("C"%char, 2, 0); ("S"%char, 2, 400)].

(** The state after [db_prepare] has handled a continue command. *)
Definition no_breakpoint : DbState :=
  mkDbState true false (replicate 20 0) (replicate 21 0) [MsgReady].

(** The state after [db_prepare] has handled a set command for address
    100 and a continue command. *)
Definition one_breakpoint : DbState :=
  mkDbState true true ([100] ++ replicate 19 0) ([101] ++ replicate 20 0)
            [MsgReady].

End Debug.

(** ** [cio.c] and [util.h]: the copy-bytes operation *)

Module Cio.
Import Machine Vm Util.
Local Open Scope Z_scope.

(** What the copy asks of the host and of the rest of the VM, in the
    order of the calls. *)
Inductive Call : Type :=
  | Mprotect (start len : Z) (readonly : bool)
  | ReportToggleFailure
  | Memmove (dst src len : Z)
  | CheckPostWrite (addr len : Z).

#[export] Instance Call_eq_dec : EqDecision Call.
Proof. solve_decision. Defined.


(** [Address_add] and [Address_diff] on 32-bit addresses. *)
Definition Address_add (a offset : Z) : Z := to_uint (a + offset).
Definition Address_diff (a b : Z) : Z := to_uint (a - b).








End Cio.

(** ** [trace.c]: the instruction decoder *)

Module Trace.
Import Machine.
Local Open Scope Z_scope.

(** The opcode numbers the decoder compares with; their values come
    from the generated [rom.h]. *)
Record Opcodes : Type := mkOpcodes {
  OPC_WIDE_M1 : Z;
  OPC_WIDE_0 : Z;
  OPC_WIDE_1 : Z;
  OPC_WIDE_SHORT : Z;
  OPC_WIDE_INT : Z;
  OPC_ESCAPE : Z;
  OPC_ESCAPE_WIDE_M1 : Z;
  OPC_ESCAPE_WIDE_0 : Z;
  OPC_ESCAPE_WIDE_1 : Z;
  OPC_ESCAPE_WIDE_SHORT : Z;
  OPC_ESCAPE_WIDE_INT : Z;
  OPC_CONST_BYTE : Z;
  OPC_CONST_SHORT : Z;
  OPC_CONST_CHAR : Z;
  OPC_CONST_INT : Z;
  OPC_CONST_LONG : Z;
  OPC_CONST_FLOAT : Z;
  OPC_CONST_DOUBLE : Z;
  OPC_FIRST_PARM_BYTECODE : Z;
  OPC_PARM_BYTECODE_COUNT : Z;
  OPC_FIRST_ESCAPE_PARM_BYTECODE : Z;
  OPC_ESCAPE_PARM_BYTECODE_COUNT : Z
}.

(** The build: the byte order of the platform, and whether the float
    bytecodes are compiled in ([java_lang_VM_fcmpl]). *)
Record Build : Type := mkBuild {
  PLATFORM_BIG_ENDIAN : bool;
  has_floats : bool
}.

(** [DecodedInstruction]; [operand] is the member of the union that
    [tag] selects. *)
Record DecodedInstruction : Type := mkDecoded {
  tag : Z;
  prefix : Z;
  opcode : Z;
  operand : Z
}.

(** Reading the bytecode stream: a computation from the instruction
    pointer to a value and the pointer afterwards. *)
Definition Fetch (A : Type) : Type := Z -> A * Z.

Definition ret {A : Type} (a : A) : Fetch A := fun ip => (a, ip).

Definition fbind {A B : Type} (m : Fetch A) (k : A -> Fetch B) : Fetch B :=
  fun ip => let '(a, ip') := m ip in k a ip'.

Notation "x <- m ;; k" := (fbind m (fun x => k))
  (at level 100, m at next level, right associativity).

(** The unsigned byte that the memory [mem] holds at address [a]. *)
Definition getUByte (mem : Z -> Z) (a : Z) : Z := Z.land (mem a) 255.

(** The value of a group of bytes taken in stream order. *)
Definition bytes_value (big_endian : bool) (bytes : list Z) : Z :=
  fold_left (fun acc b => acc * 256 + b)
            (if big_endian then bytes else rev bytes) 0.

(** Modelled from the spec: the fetch macros of [bytecodes.c], a file
    that is not among the sources.  Each reads at [ip] and advances it:
    one unsigned byte, one signed byte, or a value of 2, 4 or 8 bytes in
    the byte order of the platform, signed except for [fetchUShort]. *)
Definition fetchUByte (mem : Z -> Z) : Fetch Z :=
  fun ip => (getUByte mem ip, ip + 1).

(** Modelled from the spec: [fetchByte] of [bytecodes.c], one signed
    byte. *)
Definition fetchByte (mem : Z -> Z) : Fetch Z :=
  fun ip => (wrap_signed 8 (getUByte mem ip), ip + 1).

(** [n] unsigned bytes in stream order. *)
Fixpoint fetchUBytes (mem : Z -> Z) (n : nat) : Fetch (list Z) :=
  match n with
  | O => ret []
  | S n' => b <- fetchUByte mem ;; bs <- fetchUBytes mem n' ;; ret (b :: bs)
  end.

(** Modelled from the spec: [fetchShort] of [bytecodes.c], a 2-byte
    signed value. *)
Definition fetchShort (bd : Build) (mem : Z -> Z) : Fetch Z :=
  bs <- fetchUBytes mem 2 ;;
  ret (wrap_signed 16 (bytes_value (PLATFORM_BIG_ENDIAN bd) bs)).

(** Modelled from the spec: [fetchUShort] of [bytecodes.c], a 2-byte
    unsigned value. *)
Definition fetchUShort (bd : Build) (mem : Z -> Z) : Fetch Z :=
  bs <- fetchUBytes mem 2 ;; ret (bytes_value (PLATFORM_BIG_ENDIAN bd) bs).

(** Modelled from the spec: [fetchInt] of [bytecodes.c], a 4-byte
    signed value. *)
Definition fetchInt (bd : Build) (mem : Z -> Z) : Fetch Z :=
  bs <- fetchUBytes mem 4 ;;
  ret (wrap_signed 32 (bytes_value (PLATFORM_BIG_ENDIAN bd) bs)).

(** Modelled from the spec: [fetchLong] of [bytecodes.c], an 8-byte
    signed value. *)
Definition fetchLong (bd : Build) (mem : Z -> Z) : Fetch Z :=
  bs <- fetchUBytes mem 8 ;;
  ret (wrap_signed 64 (bytes_value (PLATFORM_BIG_ENDIAN bd) bs)).

(** The [switch (eopcode)] inside the [OPC_ESCAPE] case. *)
Definition decodeEscape (ops : Opcodes) (bd : Build) (mem : Z -> Z)
    (opcode eopcode : Z) : Fetch DecodedInstruction :=
  if has_floats bd && bool_decide (eopcode = OPC_CONST_FLOAT ops) then
    fparm <- fetchInt bd mem ;; ret (mkDecoded 3 (-1) eopcode fparm)
  else if has_floats bd && bool_decide (eopcode = OPC_CONST_DOUBLE ops) then
    flparm <- fetchLong bd mem ;; ret (mkDecoded 4 (-1) eopcode flparm)
  else if bool_decide (OPC_FIRST_ESCAPE_PARM_BYTECODE ops <= eopcode
                       /\ eopcode < OPC_FIRST_ESCAPE_PARM_BYTECODE ops
                                    + OPC_ESCAPE_PARM_BYTECODE_COUNT ops) then
    b <- fetchUByte mem ;; ret (mkDecoded 1 opcode eopcode b)
  else ret (mkDecoded 0 opcode eopcode 0).

(** [decodeInstruction]: the decoded instruction and [ip] afterwards.
    The cases of the [switch] are tried in the order of the source. *)
Definition decodeInstruction (ops : Opcodes) (bd : Build) (mem : Z -> Z)
    (traceIP : Z) : DecodedInstruction * Z :=
  (opcode <- fetchUByte mem ;;
   if decide (opcode = OPC_WIDE_M1 ops) then
     op <- fetchUByte mem ;; b <- fetchUByte mem ;;
     ret (mkDecoded 1 opcode op (to_int (Z.lor 0xFFFFFF00 b)))
   else if decide (opcode = OPC_WIDE_0 ops) then
     op <- fetchUByte mem ;; b <- fetchUByte mem ;;
     ret (mkDecoded 1 opcode op b)
   else if decide (opcode = OPC_WIDE_1 ops) then
     op <- fetchUByte mem ;; b <- fetchUByte mem ;;
     ret (mkDecoded 1 opcode op (Z.lor 0x100 b))
   else if decide (opcode = OPC_WIDE_SHORT ops) then
     fparm <- fetchShort bd mem ;; op <- fetchUByte mem ;;
     ret (mkDecoded 1 opcode op fparm)
   else if decide (opcode = OPC_WIDE_INT ops) then
     fparm <- fetchInt bd mem ;; op <- fetchUByte mem ;;
     ret (mkDecoded 1 opcode op fparm)
   else if decide (opcode = OPC_ESCAPE ops) then
     b <- fetchUByte mem ;; decodeEscape ops bd mem opcode (b + 256)
   else if decide (opcode = OPC_ESCAPE_WIDE_M1 ops) then
     op <- fetchUByte mem ;; b <- fetchUByte mem ;;
     ret (mkDecoded 1 opcode (op + 256) (to_int (Z.lor 0xFFFFFF00 b)))
   else if decide (opcode = OPC_ESCAPE_WIDE_0 ops) then
     op <- fetchUByte mem ;; b <- fetchUByte mem ;;
     ret (mkDecoded 1 opcode (op + 256) b)
   else if decide (opcode = OPC_ESCAPE_WIDE_1 ops) then
     op <- fetchUByte mem ;; b <- fetchUByte mem ;;
     ret (mkDecoded 1 opcode (op + 256) (Z.lor 0x100 b))
   else if decide (opcode = OPC_ESCAPE_WIDE_SHORT ops) then
     fparm <- fetchShort bd mem ;; op <- fetchUByte mem ;;
     ret (mkDecoded 1 opcode (op + 256) fparm)
   else if decide (opcode = OPC_ESCAPE_WIDE_INT ops) then
     fparm <- fetchInt bd mem ;; op <- fetchUByte mem ;;
     ret (mkDecoded 1 opcode (op + 256) fparm)
   else if decide (opcode = OPC_CONST_BYTE ops) then
     b <- fetchByte mem ;; ret (mkDecoded 1 (-1) opcode b)
   else if decide (opcode = OPC_CONST_SHORT ops) then
     fparm <- fetchShort bd mem ;; ret (mkDecoded 1 (-1) opcode fparm)
   else if decide (opcode = OPC_CONST_CHAR ops) then
     fparm <- fetchUShort bd mem ;; ret (mkDecoded 1 (-1) opcode fparm)
   else if decide (opcode = OPC_CONST_INT ops) then
     fparm <- fetchInt bd mem ;; ret (mkDecoded 1 (-1) opcode fparm)
   else if decide (opcode = OPC_CONST_LONG ops) then
     flparm <- fetchLong bd mem ;; ret (mkDecoded 2 (-1) opcode flparm)
   else if bool_decide (OPC_FIRST_PARM_BYTECODE ops <= opcode
                        /\ opcode < OPC_FIRST_PARM_BYTECODE ops
                                    + OPC_PARM_BYTECODE_COUNT ops) then
     b <- fetchByte mem ;; ret (mkDecoded 1 (-1) opcode b)
   else ret (mkDecoded 0 (-1) opcode 0)) traceIP.

(** The case labels of the outer [switch]; C requires them distinct. *)
Definition case_labels (ops : Opcodes) : list Z :=
  [OPC_WIDE_M1 ops; OPC_WIDE_0 ops; OPC_WIDE_1 ops; OPC_WIDE_SHORT ops;
   OPC_WIDE_INT ops; OPC_ESCAPE ops; OPC_ESCAPE_WIDE_M1 ops;
   OPC_ESCAPE_WIDE_0 ops; OPC_ESCAPE_WIDE_1 ops; OPC_ESCAPE_WIDE_SHORT ops;
   OPC_ESCAPE_WIDE_INT ops; OPC_CONST_BYTE ops; OPC_CONST_SHORT ops;
   OPC_CONST_CHAR ops; OPC_CONST_INT ops; OPC_CONST_LONG ops].

(** A memory that holds the bytes [code] from address [base] on. *)
Definition memory_of (base : Z) (code : list Z) : Z -> Z :=
  fun a => if decide (base <= a) then code !!! Z.to_nat (a - base) else 0.

(** The 32 bits of an [int] operand, as an unsigned number. *)
Definition operand_bits (d : DecodedInstruction) : Z := to_uint (operand d).

(** An opcode numbering with distinct labels. *)
Definition opcodes0 : Opcodes :=
  mkOpcodes 72 73 74 75 76 77 78 79 80 81 82 86 87 88 89 90 (256 + 18)
            (256 + 19) 91 16 (256 + 0) 18.

(** A little-endian build with the float bytecodes. *)
Definition build0 : Build := mkBuild false true.

End Trace.

(** ** [squawk.c]: strings and quantities of the command line *)

Module Args.
Import Machine Vm.
Local Open Scope Z_scope.

(** A C string is the list of its characters; the terminator is what
    is read at the index of its length. *)
Definition NUL : ascii := "000"%char.

Definition char_at (s : list ascii) (i : nat) : ascii := nth i s NUL.

Definition c_string (s : list ascii) : Prop := NUL ∉ s.

(** The loop [for (i = 0 ;; i++)] of [startsWith]; [None] when the
    fuel runs out before the loop returns. *)
Fixpoint startsWith_loop (fuel i : nat) (line prefix : list ascii)
  : option bool :=
  match fuel with
  | O => None
  | S fuel' =>
      let ch := char_at line i in
      let prefixCh := char_at prefix i in
      if decide (prefixCh = NUL) then Some true
      else if decide (ch = NUL) then Some false
      else if decide (prefixCh <> ch) then Some false
      else startsWith_loop fuel' (S i) line prefix
  end.

Definition startsWith (line prefix : list ascii) : option bool :=
  startsWith_loop (S (length prefix)) 0 line prefix.

(** The loop [for (i = 0 ;; i++)] of [equals]. *)
Fixpoint equals_loop (fuel i : nat) (s1 s2 : list ascii) : option bool :=
  match fuel with
  | O => None
  | S fuel' =>
      let ch := char_at s1 i in
      if decide (ch = NUL) then Some (bool_decide (char_at s2 i = NUL))
      else if decide (char_at s2 i <> ch) then Some false
      else equals_loop fuel' (S i) s1 s2
  end.

Definition equals (s1 s2 : list ascii) : option bool :=
  equals_loop (S (length s1)) 0 s1 s2.

(** The code of a character, and the value of a digit. *)
Definition code (ch : ascii) : Z := Z.of_N (N_of_ascii ch).

Definition is_digit (ch : ascii) : bool :=
  (code "0" <=? code ch) && (code ch <=? code "9").

(** [parseQuantityLong]: the loop walks the string with [*p++]; the
    end of the list is the terminator. *)
Fixpoint parseQuantityLong_loop (p : list ascii) (val : Z) : Outcome Z :=
  match p with
  | [] => Returns val
  | ch :: p' =>
      if decide (ch = NUL) then Returns val
      else if is_digit ch then
        parseQuantityLong_loop p' (to_jlong (val * 10 + (code ch - code "0")))
      else if decide (ch = "K"%char \/ ch = "k"%char) then
        Returns (to_jlong (val * 1024))
      else if decide (ch = "M"%char \/ ch = "m"%char) then
        Returns (to_jlong (val * (1024 * 1024)))
      else Exits (-1)
  end.

Definition parseQuantityLong (p : list ascii) : Outcome Z :=
  parseQuantityLong_loop p 0.

Definition parseQuantity (p : list ascii) : Outcome Z :=
  bind (parseQuantityLong p)
       (fun res => if decide (res <> to_int res) then Exits (-1)
                   else Returns (to_int res)).

(** *** Notions used in the statements *)

(** The number that a string of decimal digits spells. *)
Fixpoint spelled (ds : list ascii) : Z :=
  match ds with
  | [] => 0
  | d :: ds' => (code d - code "0") * 10 ^ Z.of_nat (length ds') + spelled ds'
  end.

Definition digits (ds : list ascii) : Prop := Forall (fun d => is_digit d = true) ds.

End Args.

(** ** [squawk.c]: copying the command line into the VM's memory *)

Module Copy.
Import Machine Vm Cio Args.
Local Open Scope Z_scope.

(** The stores into the VM's memory, in the order they are made:
    [setByte(base, offset, value)], [setObject(base, offset, value)] and
    [setUWord(base, offset, value)]. *)
Inductive Store : Type :=
  | SetByte (base offset : Z) (value : ascii)
  | SetObject (base offset value : Z)
  | SetUWord (base offset value : Z).

#[export] Instance Store_eq_dec : EqDecision Store.
Proof. solve_decision. Defined.

(** [strlen]: the characters before the terminator. *)
Fixpoint strlen (s : list ascii) : nat :=
  match s with
  | [] => O
  | ch :: s' => if decide (ch = NUL) then O else S (strlen s')
  end.

(** The loop of [calculateSizeForCopyOfCStringArray], which walks the
    array from its last element down; an array of [length] elements is
    the list of these elements. *)
Fixpoint calculateSize_loop (n : nat) (array : list (list ascii))
    (total : Z) : Z :=
  match n with
  | O => total
  | S n' =>
      calculateSize_loop n' array
        (to_int (total + (Z.of_nat (strlen (array !!! n')) + 1)))
  end.

(** [sizeof_ptr] is the size of a pointer, which is also
    [sizeof(Address)]. *)
Definition calculateSizeForCopyOfCStringArray (sizeof_ptr : Z)
    (array : list (list ascii)) : Z :=
  calculateSize_loop (length array) array
    (to_int (Z.of_nat (length array) * sizeof_ptr)).

(** [writeCString]: the stores made and the offset returned. *)
Fixpoint writeCString (memory : Z) (string : list ascii) (offset : Z)
  : list Store * Z :=
  match string with
  | [] => ([SetByte memory offset NUL], to_int (offset + 1))
  | ch :: string' =>
      if decide (ch = NUL) then
        ([SetByte memory offset NUL], to_int (offset + 1))
      else
        let '(stores, offset') :=
          writeCString memory string' (to_int (offset + 1)) in
        (SetByte memory offset ch :: stores, offset')
  end.

(** The loop of [writeCStringArray]. *)
Fixpoint writeCStringArray_loop (sizeof_ptr memory : Z)
    (array : list (list ascii)) (arrayCopy offset : Z) : list Store * Z :=
  match array with
  | [] => ([], offset)
  | string :: array' =>
      let '(stores1, offset1) := writeCString memory string offset in
      let '(stores2, offset2) :=
        writeCStringArray_loop sizeof_ptr memory array'
          (Address_add arrayCopy sizeof_ptr) offset1 in
      (SetObject arrayCopy 0 (Address_add memory offset) :: stores1 ++ stores2,
       offset2)
  end.

Definition writeCStringArray (sizeof_ptr memory : Z)
    (array : list (list ascii)) (offset : Z) : list Store * Z :=
  let arrayCopy := Address_add memory offset in
  let offset := to_int (offset + Z.of_nat (length array) * sizeof_ptr) in
  writeCStringArray_loop sizeof_ptr memory array arrayCopy offset.

(** *** Notions used in the statements *)

(** The bytes that the copies of the strings take, terminators
    included. *)
Definition strings_size (array : list (list ascii)) : Z :=
  foldr (fun s total => Z.of_nat (strlen s) + 1 + total) 0 array.

End Copy.

(** ** [squawk.c]: laying out the VM's memory *)

Module Setup.
Import Machine Vm Buffers Cio Util Args Copy.
Local Open Scope Z_scope.

Local Infix ">>=" := bind (at level 50, left associativity).

(** What the build and the host fix: the answer of
    [getSystemPageSize], the macros and the size of a pointer. *)
Record Platform : Type := mkPlatform {
  pageSize : Z;
  SERVICE_CHUNK_SIZE : Z;
  HDR_BYTES_PER_WORD : Z;
  HDR_length : Z;
  sizeof_ptr : Z;
  FLASH_MEMORY : bool;
  TYPEMAP : bool;
  ASSUME : bool
}.

Definition TWOWORDS (p : Platform) : Z := HDR_BYTES_PER_WORD p * 2.

Definition SERVICE_CHUNK_SIZE_MINUS2WORDS (p : Platform) : Z :=
  SERVICE_CHUNK_SIZE p - TWOWORDS p.

(** What loading the bootstrap suite answers: the size of the suite
    file, the start of the image when it is in flash, the size of the
    image and the suite. *)
Record Bootstrap : Type := mkBootstrap {
  fileSize : Z;
  flashRomStart : Z;
  romSize : Z;
  suite : Z
}.

(** The globals that [setupMemory] sets. *)
Record Layout : Type := mkLayout {
  memory : Z;
  memoryEnd : Z;
  memorySize : Z;
  java_lang_VM_romStart : Z;
  java_lang_VM_romEnd : Z;
  java_lang_GC_nvmStart : Z;
  java_lang_GC_nvmEnd : Z;
  java_lang_GC_nvmAllocationPointer : Z;
  java_lang_GC_ramStart : Z;
  java_lang_GC_ramEnd : Z;
  java_lang_Thread_serviceStack : Z;
  java_lang_VM_argc : Z;
  java_lang_VM_argv : Z;
  java_lang_VM_romFileName : Z
}.

(** [loeq]: lower or equal, on addresses as unsigned words. *)
Definition loeq (a b : Z) : bool := bool_decide (a <= b).

(** [setupMemory]: the suite it returns, the globals, the registry of
    buffers and the stores made.  The output made when
    [java_lang_GC_traceFlags] is set is left out. *)
Definition setupMemory (p : Platform) (b : Bootstrap) (valloc : Z -> Z)
    (ramSize nvmSize : Z) (argv : list (list ascii))
    (romFileName : list ascii) (r : Registry)
  : Outcome (Z * Layout * Registry * list Store) :=
  let A := ASSUME p in
  let pageSize := pageSize p in
  let serviceChunkSize := SERVICE_CHUNK_SIZE p in
  let romFileNameSize := to_int (Z.of_nat (strlen romFileName) + 1) in
  let argc := Z.of_nat (length argv) in
  let argvTotalSize :=
    calculateSizeForCopyOfCStringArray (sizeof_ptr p) argv in
  (if FLASH_MEMORY p then
     assume A (negb (TYPEMAP p)) >>= fun _ => Returns 0
   else roundUp A (to_uint (fileSize b)) (to_uint pageSize))
  >>= fun memorySize =>
  roundUp A (to_uint (memorySize + ramSize)) (to_uint pageSize)
  >>= fun memorySize =>
  roundUp A (to_uint (memorySize + nvmSize)) (to_uint pageSize)
  >>= fun memorySize =>
  roundUp A (to_uint (memorySize + serviceChunkSize)) (to_uint pageSize)
  >>= fun memorySize =>
  roundUp A (to_uint (memorySize + argvTotalSize + romFileNameSize))
          (to_uint pageSize)
  >>= fun memorySize =>
  let realMemorySize :=
    if TYPEMAP p then to_int (memorySize * 2) else to_int memorySize in
  newBuffer A (HDR_BYTES_PER_WORD p) pageSize valloc (to_uint realMemorySize)
            true r
  >>= fun '(memory, r') =>
  let memoryEnd := Address_add memory memorySize in
  let romStart := if FLASH_MEMORY p then flashRomStart b else memory in
  let romEnd := Address_add romStart (romSize b) in
  roundUp A (if FLASH_MEMORY p then memory else romEnd) (to_uint pageSize)
  >>= fun nvmStart =>
  let nvmEnd := Address_add nvmStart nvmSize in
  roundUp A nvmEnd (to_uint pageSize)
  >>= fun ramStart =>
  let ramEnd := Address_add ramStart ramSize in
  roundUp A ramEnd (to_uint pageSize)
  >>= fun stackPage =>
  let serviceStack := Address_add stackPage (TWOWORDS p) in
  let stackLength :=
    SetUWord serviceStack (HDR_length p)
      (to_uint (SERVICE_CHUNK_SIZE_MINUS2WORDS p `quot` HDR_BYTES_PER_WORD p)) in
  roundUp A (Address_add serviceStack (SERVICE_CHUNK_SIZE_MINUS2WORDS p))
          (to_uint pageSize)
  >>= fun argvCopy =>
  let '(stores1, offset) :=
    writeCStringArray (sizeof_ptr p) memory argv
      (to_int (Address_diff argvCopy memory)) in
  let romFileNameCopy := Address_add memory offset in
  let '(stores2, offset) := writeCString memory romFileName offset in
  assume A (loeq (Address_add memory offset) memoryEnd) >>= fun _ =>
  assume A (isWordAligned (HDR_BYTES_PER_WORD p) romStart) >>= fun _ =>
  assume A (isWordAligned (HDR_BYTES_PER_WORD p) nvmStart) >>= fun _ =>
  assume A (isWordAligned (HDR_BYTES_PER_WORD p) ramStart) >>= fun _ =>
  assume A (isWordAligned (HDR_BYTES_PER_WORD p) serviceStack) >>= fun _ =>
  Returns (suite b,
           mkLayout memory memoryEnd memorySize romStart romEnd
                    nvmStart nvmEnd nvmStart ramStart ramEnd
                    serviceStack argc argvCopy romFileNameCopy,
           r', stackLength :: stores1 ++ stores2).

(** *** Notions used in the statements *)

(** The least multiple of [a] that is not below [x]. *)
Definition pages (a x : Z) : Z := (x + a - 1) / a * a.

(** A platform in the style of the EB40A board, with ROM in flash, and
    one with the ROM loaded from a file into pages of 4096 bytes. *)
Definition eb40a : Platform := mkPlatform 4 (4 * 1024) 4 (-1) 4 true false true.

Definition hosted : Platform :=
  mkPlatform 4096 (24 * 1024) 4 (-1) 4 false false true.

End Setup.

(** ** [squawk.c]: releasing every buffer *)

Module Release.
Import Machine Vm Buffers.

(** [freeBuffers]: [while (BufferCount != 0) freeBuffer(Buffers[0]);]
    on [fuel] rounds, with the calls of [free] made so far; [None] when
    the fuel runs out before the loop ends. *)
Fixpoint freeBuffers_loop (fuel : nat) (r : Registry) (freed : list Z)
  : option (Outcome (Registry * list Z)) :=
  match fuel with
  | O => None
  | S fuel' =>
      if decide (BufferCount r = 0%nat) then Some (Returns (r, freed))
      else
        match freeBuffer (Buffers r !!! 0%nat) r with
        | Returns (r', freed') => freeBuffers_loop fuel' r' (freed ++ freed')
        | FatalVMError msg => Some (FatalVMError msg)
        | Exits code => Some (Exits code)
        | ReadsPastEnd => Some ReadsPastEnd
        | WritesPastEnd => Some WritesPastEnd
        end
  end.

Definition freeBuffers (fuel : nat) (r : Registry)
  : option (Outcome (Registry * list Z)) :=
  freeBuffers_loop fuel r [].

End Release.

(** ** [squawk.c]: preformatting of format specifications *)

Module Format.
Import Machine Args Copy.

Definition FORMAT_BUF_LEN : nat := 1000.

(** What the build fixes: the compiler, the word size and whether
    assumptions are checked. *)
Record FormatBuild : Type := mkFormatBuild {
  MSC_VER : bool;
  SQUAWK_64 : bool;
  ASSUME : bool
}.

(** The characters that the macro [FORMAT_64] stores. *)
Definition FORMAT_64 (bd : FormatBuild) : list ascii :=
  if MSC_VER bd then ["I"; "6"; "4"]%char else ["l"; "l"]%char.

(** How a call of [format] ends: with the characters stored in [buf]
    from index 0 on, the terminator included; in a failed assumption;
    or in a store outside [buf]. *)
Inductive FormatResult : Type :=
  | Formatted (buf : list ascii)
  | AssumeFailed
  | Overrun.

(** [buf[bufPos++] = ch], where [bufPos] is the number of characters
    stored so far. *)
Definition store (buf : list ascii) (chs : list ascii)
    (k : list ascii -> FormatResult) : FormatResult :=
  if decide (length buf + length chs <= FORMAT_BUF_LEN)%nat
  then k (buf ++ chs) else Overrun.

(** The loop of [format] on the characters of [fmt] from [fmtPos] on. *)
Fixpoint format_loop (bd : FormatBuild) (fmt buf : list ascii)
  : FormatResult :=
  match fmt with
  | [] => store buf [NUL] Formatted
  | ch :: fmt' =>
      if ASSUME bd && negb (bool_decide (length buf < 1000)%nat)
      then AssumeFailed
      else if decide (ch <> "%"%char) then
        store buf [ch] (format_loop bd fmt')
      else
        match fmt' with
        | [] =>
            (* the character after the [%] is the terminator, and the
               loop ends with [fmtPos] past [fmtLen] *)
            store buf ["%"%char; NUL] (fun buf => store buf [NUL] Formatted)
        | c :: fmt'' =>
            let spec :=
              if decide (c = "A"%char) then
                (if SQUAWK_64 bd then FORMAT_64 bd else []) ++ ["u"%char]
              else if decide (c = "W"%char) then
                (if SQUAWK_64 bd then FORMAT_64 bd else []) ++ ["d"%char]
              else if decide (c = "L"%char) then FORMAT_64 bd ++ ["d"%char]
              else if decide (c = "U"%char) then FORMAT_64 bd ++ ["u"%char]
              else if decide (c = "D"%char) then FORMAT_64 bd ++ ["f"%char]
              else [c] in
            store buf ("%"%char :: spec) (format_loop bd fmt'')
        end
  end.

(** [format]: [fmtLen] is [strlen(fmt)]. *)
Definition format (bd : FormatBuild) (fmt : list ascii) : FormatResult :=
  format_loop bd (take (strlen fmt) fmt) [].

End Format.

(** ** [cio.c], [globals.h]: 64-bit values as two [int] halves *)

Module Halves.
Import Machine.
Local Open Scope Z_scope.

(** [makeLong] of [cio.c]. *)
Definition makeLong (high low : Z) : Z :=
  to_jlong (Z.lor (to_jlong (Z.shiftl high 32)) (Z.land low 0xFFFFFFFF)).

(** [INTERNAL_GETTIME_HIGH]: the result and the new [lastTime], an
    unsigned 64-bit value, from the answer of [sysTimeMillis]. *)
Definition GETTIME_HIGH (sysTimeMillis : Z) : Z * Z :=
  let lastTime := wrap_unsigned 64 sysTimeMillis in
  (to_int (Z.shiftr lastTime 32), lastTime).

(** [INTERNAL_GETTIME_LOW]: the result, from [lastTime]. *)
Definition GETTIME_LOW (lastTime : Z) : Z := to_int lastTime.

(** [setLongCounter(high, low, x)]: the new [high] and [low]. *)
Definition setLongCounter (x : Z) : Z * Z :=
  (to_int (Z.shiftr x 32), to_int x).

(** [getLongCounter(high, low)], an unsigned 64-bit value. *)
Definition getLongCounter (high low : Z) : Z :=
  Z.lor (wrap_unsigned 64 (Z.shiftl (to_uint high) 32)) (to_uint low).

End Halves.

(** ** [eb40a-io.c]: sequences of requests *)

Module Eb40aRuns.
Import Machine Eb40aIO.
Local Open Scope Z_scope.

(** One call of [ioExecute]: the board as the call finds it, the
    rounds granted to the polling loop, the operation and its two
    arguments. *)
Record Request : Type := mkRequest {
  world : World;
  rounds : nat;
  op : ChannelOp;
  arg1 : Z;
  arg2 : Z
}.

(** The calls of [ioExecute] made one after another: the results and
    the state at the end, or [None] when a call does not return. *)
Fixpoint ioExecute_all (cc : ChannelConstants) (reqs : list Request)
    (st : IOState) : option (list Z * IOState) :=
  match reqs with
  | [] => Some ([], st)
  | r :: reqs' =>
      '(res, st') ← ioExecute cc (world r) (rounds r) (op r) (arg1 r) (arg2 r) st;
      '(results, st'') ← ioExecute_all cc reqs' st';
      Some (res :: results, st'')
  end.

(** [getEvent] called [n] times while the switches stay as they are:
    the numbers returned and the queue left. *)
Fixpoint getEvent_times (pressed : Z -> bool) (n : nat)
    (q : list SwitchRequest) : list Z * list SwitchRequest :=
  match n with
  | O => ([], q)
  | S n' =>
      let '(e, q') := getEvent pressed q in
      let '(es, q'') := getEvent_times pressed n' q' in
      (e :: es, q'')
  end.

(** A request that leaves the pending records alone unless it is one
    that stores or removes a record: any request but a poke, and a
    poke whose store lands outside the queue. *)
Definition spares_queue (r : Request) : Prop :=
  op r = POKE ->
  forall address value q ret,
    fst (poke_word (world r) address value (q, ret)) = q.

(** A queue whose event numbers are positive, at most [n], and grow
    from the head to the tail. *)
Definition ascending (n : Z) (q : list SwitchRequest) : Prop :=
  Forall (fun r => 0 < eventNumber r <= n) q /\
  forall (i j : nat) ri rj,
    (i < j)%nat -> q !! i = Some ri -> q !! j = Some rj ->
    eventNumber ri < eventNumber rj.

End Eb40aRuns.

(** ** [debug.c]: notions for the breakpoint flag and the client *)

Module DebugRuns.
Import Machine Vm Debug.
Local Open Scope Z_scope.

(** The flag [db_bp_set] is off only when no slot of the table holds a
    breakpoint. *)
Definition flag_covers (st : DbState) : Prop :=
  db_bp_set st = false -> db_bp_table st = replicate DB_MAX_BPS 0.

(** A line that the command loop takes and goes on from: a break or a
    data command under the right header. *)
Definition goes_on (l : ClientLine) : Prop :=
  hdr l = "*DEBUG*"%string /\ (cmd l = "B"%char \/ cmd l = "D"%char).

(** A continue command. *)
Definition continues (l : ClientLine) : Prop :=
  hdr l = "*DEBUG*"%string /\ cmd l = "C"%char.


End DebugRuns.

(** ** [trace.c]: walking the call stack *)

Module Frames.
Import Machine Vm Debug.
Local Open Scope Z_scope.

(** What [getObject(fp, FP_method)], [getObject(fp, FP_returnIP)] and
    [getObject(fp, FP_returnFP)] read in the frame at [fp]. *)
Record FrameMemory : Type := mkFrameMemory {
  FP_method : Z -> Z;
  FP_returnIP : Z -> Z;
  FP_returnFP : Z -> Z
}.

(** The loop of [calculateCallDepth]; [None] when [fuel] rounds do not
    end it. *)
Fixpoint calculateCallDepth_loop (fm : FrameMemory) (fuel : nat)
    (traceFP depth : Z) : option (Outcome Z) :=
  match fuel with
  | O => None
  | S fuel' =>
      if decide (traceFP = 0) then Some (Returns depth)
      else
        let depth := to_int (depth + 1) in
        if decide (depth > 2000) then
          Some (FatalVMError
                  "**Call depth suspiciously deep - infinite recursion?**")
        else calculateCallDepth_loop fm fuel' (FP_returnFP fm traceFP) depth
  end.

Definition calculateCallDepth (fm : FrameMemory) (fuel : nat) (traceFP : Z)
  : option (Outcome Z) :=
  calculateCallDepth_loop fm fuel traceFP 0.

(** The loop of [traceFrames]: how it ends, and the records written,
    each a method pointer and a bytecode offset.  [ASSUME] says whether
    assumptions are checked; [forThreadSwitch] only chooses the format
    in which a record is printed. *)
Fixpoint traceFrames_loop (ops : ExtendOpcodes) (ASSUME : bool)
    (fm : FrameMemory) (fuel : nat) (opcode traceIP traceFP : Z)
    (recursionGuard : Z) (records : list (Z * Z))
  : option (Outcome (list (Z * Z)) * list (Z * Z)) :=
  match fuel with
  | O => None
  | S fuel' =>
      if decide (traceFP = 0) then Some (Returns records, records)
      else
        let extend :=
          bool_decide (opcode = OPC_EXTEND ops \/ opcode = OPC_EXTEND0 ops) in
        let traceMP := if extend then traceIP else FP_method fm traceFP in
        let opcode := if extend then -1 else opcode in
        let pc := to_int (traceIP - traceMP) in
        if ASSUME && negb (bool_decide (pc >= 0)) then
          Some (FatalVMError "", records)
        else
          let records := records ++ [(traceMP, pc)] in
          let recursionGuard := to_int (recursionGuard + 1) in
          if decide (recursionGuard > 2000) then
            Some (FatalVMError
                    "**** Call stack suspiciously deep - infinite recursion? ****",
                  records)
          else
            traceFrames_loop ops ASSUME fm fuel' opcode
              (FP_returnIP fm traceFP) (FP_returnFP fm traceFP)
              recursionGuard records
  end.

Definition traceFrames (ops : ExtendOpcodes) (ASSUME : bool)
    (fm : FrameMemory) (fuel : nat) (opcode traceIP traceFP : Z)
  : option (Outcome (list (Z * Z)) * list (Z * Z)) :=
  traceFrames_loop ops ASSUME fm fuel opcode traceIP traceFP 0 [].

(** *** Notions used in the statements *)

(** The frame reached from [fp] by following [n] return links. *)
Definition caller (fm : FrameMemory) (n : nat) (fp : Z) : Z :=
  Nat.iter n (FP_returnFP fm) fp.

(** The call stack above [fp] has exactly [n] frames: the [n]-th return
    link is the first that is null. *)
Definition stack_depth (fm : FrameMemory) (fp : Z) (n : nat) : Prop :=
  caller fm n fp = 0 /\ forall k, (k < n)%nat -> caller fm k fp <> 0.

(** Three frames at 100, 200 and 300, called in that order. *)
Definition three_frames : FrameMemory :=
  mkFrameMemory (fun fp => fp * 10) (fun fp => fp * 10 + 5)
                (fun fp => if decide (fp = 300) then 200
                           else if decide (fp = 200) then 100 else 0).

End Frames.

(** ** [os.c] of the EB40A board: the watchdog LED *)

Module Eb40aOs.
Import Machine Eb40aIO.
Local Open Scope Z_scope.

Definition WATCHDOG_LED : Z := 0x80.
Definition DONE_LED : Z := 0x40.

(** The globals [count] and [led_is_on], and the calls made to the
    LEDs. *)
Record LedState : Type := mkLedState {
  count : Z;
  led_is_on : Z;
  led_calls : list HwEffect
}.

(** [updateLEDStatus]; [%] on [int] is the remainder of the truncating
    division. *)
Definition updateLEDStatus (st : LedState) : LedState :=
  let count := to_int (count st + 1) in
  if decide (count `rem` 250 = 0) then
    if decide (led_is_on st <> 0) then
      mkLedState count 0 (led_calls st ++ [TurnOffLeds WATCHDOG_LED])
    else
      mkLedState count 1 (led_calls st ++ [TurnOnLeds WATCHDOG_LED])
  else mkLedState count (led_is_on st) (led_calls st).

(** [osbackbranch] *)
Definition osbackbranch (st : LedState) : LedState := updateLEDStatus st.

(** [updateLEDFinished], which is [osfinish]. *)
Definition updateLEDFinished (st : LedState) : LedState :=
  mkLedState (count st) (led_is_on st)
             (led_calls st ++ [TurnOffLeds WATCHDOG_LED; TurnOnLeds DONE_LED]).

(** *** Notions used in the statements *)

(** The globals as C initialises them. *)
Definition led_startup : LedState := mkLedState 0 0 [].

(** The first [k] calls of a LED that is switched on, off, on, ... *)
Fixpoint blinks (k : nat) : list HwEffect :=
  match k with
  | O => []
  | S k' =>
      blinks k' ++ [if Nat.even k' then TurnOnLeds WATCHDOG_LED
                    else TurnOffLeds WATCHDOG_LED]
  end.

End Eb40aOs.

(** ** [squawk.c]: the arguments of a launch through JNI *)

Module Launcher.
Import Machine Vm Util Args.
Local Open Scope Z_scope.



(** *** Notions used in the statements *)



End Launcher.

(** ** [squawk.c]: the options of the command line *)

Module Options.
Import Machine Vm Buffers Util Args Copy Setup Halves.
Local Open Scope Z_scope.

Definition MAX_JVM_ARGS : nat := 20.
Definition DEFAULT_RAM_SIZE : Z := 8 * 1024 * 1024.
Definition DEFAULT_NVM_SIZE : Z := 8 * 1024 * 1024.

(** What the build fixes for [processArgs]. *)
Record ArgsBuild : Type := mkArgsBuild {
  IOPORT : bool;
  TRACE : bool;
  PROFILING : bool;
  MSC_VER : bool
}.

(** The locals [nvmSize] and [ramSize] and the globals that the [-X]
    options set. *)
Record Settings : Type := mkSettings {
  nvmSize : Z;
  ramSize : Z;
  romFileName : list ascii;
  java_lang_GC_traceThreshold : Z;
  java_lang_GC_traceFlags : Z;
  notrap : bool;
  ioport : option (list ascii);
  traceFile_is_stderr : bool;
  traceStart : Z * Z;
  traceEnd : Z * Z;
  tracing : bool;
  statsFrequency : Z;
  sampleFrequency : Z
}.

(** The calls that [processArgs] makes after the options. *)
Inductive StartupCall : Type :=
  | Signal (name : string)
  | CIO_initialize (classPath : string) (jvmArgs : list (list ascii)).

Definition str (s : string) : list ascii := String.list_ascii_of_string s.

(** [startsWith] and [equals] return within the rounds they are
    given. *)
Definition starts_with (line : list ascii) (p : string) : bool :=
  default false (startsWith line (str p)).

Definition is_equal (s : list ascii) (p : string) : bool :=
  default false (equals s (str p)).

(** [setTraceStart(x)] and [setTraceEnd(x)]. *)
Definition setTraceStart (x : Z) (s : Settings) : Settings :=
  mkSettings (nvmSize s) (ramSize s) (romFileName s)
    (java_lang_GC_traceThreshold s) (java_lang_GC_traceFlags s) (notrap s)
    (ioport s) (traceFile_is_stderr s) (setLongCounter x) (traceEnd s)
    (if decide (x = 0) then true else tracing s)
    (statsFrequency s) (sampleFrequency s).

Definition setTraceEnd (x : Z) (s : Settings) : Settings :=
  mkSettings (nvmSize s) (ramSize s) (romFileName s)
    (java_lang_GC_traceThreshold s) (java_lang_GC_traceFlags s) (notrap s)
    (ioport s) (traceFile_is_stderr s) (traceStart s) (setLongCounter x)
    (tracing s) (statsFrequency s) (sampleFrequency s).

(** The chain of tests on an option after its [-X]; [usage] and the
    messages only print. *)
Definition X_option (bd : ArgsBuild) (arg : list ascii) (s : Settings)
  : Outcome Settings :=
  if IOPORT bd && starts_with arg "ioport:" then
    Returns (mkSettings (nvmSize s) (ramSize s) (romFileName s)
      (java_lang_GC_traceThreshold s) (java_lang_GC_traceFlags s) (notrap s)
      (Some (drop 7 arg)) (traceFile_is_stderr s) (traceStart s) (traceEnd s)
      (tracing s) (statsFrequency s) (sampleFrequency s))
  else if starts_with arg "mxnvm:" then
    bind (parseQuantity (drop 6 arg)) (fun n =>
    Returns (mkSettings n (ramSize s) (romFileName s)
      (java_lang_GC_traceThreshold s) (java_lang_GC_traceFlags s) (notrap s)
      (ioport s) (traceFile_is_stderr s) (traceStart s) (traceEnd s)
      (tracing s) (statsFrequency s) (sampleFrequency s)))
  else if starts_with arg "mx:" then
    bind (parseQuantity (drop 3 arg)) (fun n =>
    Returns (mkSettings (nvmSize s) n (romFileName s)
      (java_lang_GC_traceThreshold s) (java_lang_GC_traceFlags s) (notrap s)
      (ioport s) (traceFile_is_stderr s) (traceStart s) (traceEnd s)
      (tracing s) (statsFrequency s) (sampleFrequency s)))
  else if starts_with arg "boot:" then
    Returns (mkSettings (nvmSize s) (ramSize s) (drop 5 arg)
      (java_lang_GC_traceThreshold s) (java_lang_GC_traceFlags s) (notrap s)
      (ioport s) (traceFile_is_stderr s) (traceStart s) (traceEnd s)
      (tracing s) (statsFrequency s) (sampleFrequency s))
  else if starts_with arg "tgca:" then
    bind (parseQuantity (drop 5 arg)) (fun n =>
    Returns (mkSettings (nvmSize s) (ramSize s) (romFileName s)
      n (java_lang_GC_traceFlags s) (notrap s)
      (ioport s) (traceFile_is_stderr s) (traceStart s) (traceEnd s)
      (tracing s) (statsFrequency s) (sampleFrequency s)))
  else if starts_with arg "tgc:" then
    bind (parseQuantity (drop 4 arg)) (fun n =>
    Returns (mkSettings (nvmSize s) (ramSize s) (romFileName s)
      (java_lang_GC_traceThreshold s) n (notrap s)
      (ioport s) (traceFile_is_stderr s) (traceStart s) (traceEnd s)
      (tracing s) (statsFrequency s) (sampleFrequency s)))
  else if is_equal arg "notrap" then
    Returns (mkSettings (nvmSize s) (ramSize s) (romFileName s)
      (java_lang_GC_traceThreshold s) (java_lang_GC_traceFlags s) true
      (ioport s) (traceFile_is_stderr s) (traceStart s) (traceEnd s)
      (tracing s) (statsFrequency s) (sampleFrequency s))
  else if TRACE bd && is_equal arg "terr" then
    Returns (mkSettings (nvmSize s) (ramSize s) (romFileName s)
      (java_lang_GC_traceThreshold s) (java_lang_GC_traceFlags s) (notrap s)
      (ioport s) true (traceStart s) (traceEnd s)
      (tracing s) (statsFrequency s) (sampleFrequency s))
  else if TRACE bd && starts_with arg "ts:" then
    bind (parseQuantityLong (drop 3 arg)) (fun x =>
    Returns (setTraceStart x s))
  else if TRACE bd && starts_with arg "te:" then
    bind (parseQuantityLong (drop 3 arg)) (fun x =>
    Returns (setTraceEnd x s))
  else if TRACE bd && starts_with arg "tr:" then
    bind (parseQuantityLong (drop 3 arg)) (fun start =>
    Returns (setTraceEnd (to_jlong (start + 5000)) (setTraceStart start s)))
  else if TRACE bd && starts_with arg "stats:" then
    bind (parseQuantity (drop 6 arg)) (fun n =>
    if decide (n = 0) then Exits (-1)
    else
      Returns (mkSettings (nvmSize s) (ramSize s) (romFileName s)
        (java_lang_GC_traceThreshold s) (java_lang_GC_traceFlags s) (notrap s)
        (ioport s) (traceFile_is_stderr s) (traceStart s) (traceEnd s)
        (tracing s) n (sampleFrequency s)))
  else if PROFILING bd && starts_with arg "prof:" then
    bind (parseQuantity (drop 5 arg)) (fun n =>
    if decide (n = 0) then Exits (-1)
    else
      Returns (mkSettings (nvmSize s) (ramSize s) (romFileName s)
        (java_lang_GC_traceThreshold s) (java_lang_GC_traceFlags s) (notrap s)
        (ioport s) (traceFile_is_stderr s) (traceStart s) (traceEnd s)
        (tracing s) (statsFrequency s) n))
  else Exits 0.

(** The first loop of [processArgs], with [n] arguments still to
    visit: [argv] is rewritten in place while it is read. *)
Fixpoint options_loop (bd : ArgsBuild) (isLaunchedViaJNI : bool) (n : nat)
    (oldIndex newIndex : nat) (argv : list (list ascii)) (s : Settings)
    (javaVMArgs : list (list ascii))
  : Outcome (nat * nat * list (list ascii) * Settings * list (list ascii)) :=
  match n with
  | O => Returns (oldIndex, newIndex, argv, s, javaVMArgs)
  | S n' =>
      let arg := argv !!! oldIndex in
      if decide (char_at arg 0 <> "-"%char) then
        Returns (oldIndex, newIndex, argv, s, javaVMArgs)
      else if bool_decide (char_at arg 1 <> "X"%char)
              && (isLaunchedViaJNI
                  || bool_decide (char_at arg 1 <> "J"%char)) then
        options_loop bd isLaunchedViaJNI n' (S oldIndex) (S newIndex)
                     (<[newIndex := arg]> argv) s javaVMArgs
      else if decide (char_at arg 1 = "X"%char) then
        bind (X_option bd (drop 2 arg) s) (fun s' =>
        options_loop bd isLaunchedViaJNI n' (S oldIndex) newIndex argv s'
                     javaVMArgs)
      else if decide (MAX_JVM_ARGS <= length javaVMArgs)%nat then
        FatalVMError "too many '-J' flags"
      else
        options_loop bd isLaunchedViaJNI n' (S oldIndex) newIndex argv s
                     (javaVMArgs ++ [drop 2 arg])
  end.

(** The second loop, which copies the main class and its arguments. *)
Fixpoint copy_loop (n oldIndex newIndex : nat) (argv : list (list ascii))
  : nat * list (list ascii) :=
  match n with
  | O => (newIndex, argv)
  | S n' =>
      copy_loop n' (S oldIndex) (S newIndex)
                (<[newIndex := argv !!! oldIndex]> argv)
  end.

(** The part of [processArgs] before the memory is set up: the
    arguments passed on, the settings, the arguments for the Java VM
    and the calls made.  The banners and messages printed are left
    out. *)
Definition processArgs_options (bd : ArgsBuild)
    (isLaunchedViaJNI isCalledFromJava : bool)
    (argv : list (list ascii)) (s : Settings)
  : Outcome (list (list ascii) * Settings * list StartupCall) :=
  bind (options_loop bd isLaunchedViaJNI (length argv) 0 0 argv
          (mkSettings DEFAULT_NVM_SIZE DEFAULT_RAM_SIZE (romFileName s)
             (java_lang_GC_traceThreshold s) (java_lang_GC_traceFlags s)
             (notrap s) (ioport s) (traceFile_is_stderr s) (traceStart s)
             (traceEnd s) (tracing s) (statsFrequency s) (sampleFrequency s))
          [])
       (fun '(oldIndex, newIndex, argv, s, javaVMArgs) =>
  let '(newIndex, argv) :=
    copy_loop (length argv - oldIndex) oldIndex newIndex argv in
  let signals :=
    if notrap s then []
    else [Signal "SIGSEGV"] ++ (if MSC_VER bd then [] else [Signal "SIGBUS"])
         ++ [Signal "SIGINT"] in
  let cio :=
    if isCalledFromJava then []
    else [CIO_initialize "squawk.jar" javaVMArgs] in
  Returns (take newIndex argv, s, signals ++ cio)).

(** [processArgs]: the options, then [setupMemory] on what is left of
    the command line. *)
Definition processArgs (bd : ArgsBuild) (p : Platform) (b : Bootstrap)
    (valloc : Z -> Z) (isLaunchedViaJNI isCalledFromJava : bool)
    (argv : list (list ascii)) (s : Settings) (r : Registry)
  : Outcome (Settings * list StartupCall *
             (Z * Layout * Registry * list Store)) :=
  bind (processArgs_options bd isLaunchedViaJNI isCalledFromJava argv s)
       (fun '(args, s', calls) =>
  bind (setupMemory p b valloc (ramSize s') (nvmSize s') args
                    (romFileName s') r)
       (fun memory => Returns (s', calls, memory))).

(** *** Notions used in the statements *)

(** An option begins with [-]; the character after it tells the
    options of the native VM ([X]) and of the Java VM ([J]) from the
    others. *)
Definition is_option (arg : list ascii) : Prop := char_at arg 0 = "-"%char.

Definition is_X (arg : list ascii) : Prop := char_at arg 1 = "X"%char.

Definition is_J (arg : list ascii) : Prop := char_at arg 1 = "J"%char.

(** The options that stay on the command line. *)
Definition passed_on (isLaunchedViaJNI : bool) (arg : list ascii) : Prop :=
  ~ is_X arg /\ (isLaunchedViaJNI = true \/ ~ is_J arg).

#[export] Instance is_X_dec arg : Decision (is_X arg).
Proof. unfold is_X. apply _. Defined.

#[export] Instance is_J_dec arg : Decision (is_J arg).
Proof. unfold is_J. apply _. Defined.

#[export] Instance passed_on_dec jni arg : Decision (passed_on jni arg).
Proof. unfold passed_on. apply _. Defined.

(** The settings with which the options are read. *)
Definition default_sizes (s : Settings) : Settings :=
  mkSettings DEFAULT_NVM_SIZE DEFAULT_RAM_SIZE (romFileName s)
    (java_lang_GC_traceThreshold s) (java_lang_GC_traceFlags s)
    (notrap s) (ioport s) (traceFile_is_stderr s) (traceStart s)
    (traceEnd s) (tracing s) (statsFrequency s) (sampleFrequency s).

(** The command line that [main] of the EB40A board passes, and
    settings as [initializeGlobals] leaves them. *)
Definition eb40a_options : list (list ascii) :=
  [str "-verbose"; str "-Xmx:64000"; str "-Xmxnvm:8";
   str "-flashsuite:010A0000"].

Definition eb40a_main : list (list ascii) := [str "squawk.application.Startup"].

Definition zero_settings : Settings :=
  mkSettings 0 0 (str "squawk.suite") 0 0 false None false (0, 0) (0, 0)
             false 0 0.

(** The calls made once the options are read. *)
Definition startup_calls (bd : ArgsBuild) (isCalledFromJava : bool)
    (s : Settings) (javaVMArgs : list (list ascii)) : list StartupCall :=
  (if notrap s then []
   else [Signal "SIGSEGV"] ++ (if MSC_VER bd then [] else [Signal "SIGBUS"])
        ++ [Signal "SIGINT"])
  ++ (if isCalledFromJava then []
      else [CIO_initialize "squawk.jar" javaVMArgs]).

(** The [-X] options taken one after another. *)
Fixpoint X_options (bd : ArgsBuild) (args : list (list ascii)) (s : Settings)
  : Outcome Settings :=
  match args with
  | [] => Returns s
  | arg :: args' => bind (X_option bd arg s) (X_options bd args')
  end.

End Options.

(** * Properties *)

(** ** Machine integers *)

Module MachineFacts.
Import Machine.
Local Open Scope Z_scope.

Lemma pow2_double bits : 0 < bits -> 2 ^ bits = 2 * 2 ^ (bits - 1).
Proof. intros Hb. rewrite <- Z.pow_succ_r by lia. f_equal. lia. Qed.

Lemma wrap_signed_range bits z :
  0 < bits -> - 2 ^ (bits - 1) <= wrap_signed bits z < 2 ^ (bits - 1).
Proof.
  intros Hb. unfold wrap_signed.
  pose proof (pow2_double bits Hb) as H2.
  assert (Hp : 0 < 2 ^ (bits - 1)) by (apply Z.pow_pos_nonneg; lia).
  pose proof (Z.mod_pos_bound (z + 2 ^ (bits - 1)) (2 ^ bits)) as Hm.
  lia.
Qed.

Lemma wrap_signed_id bits z :
  0 < bits -> - 2 ^ (bits - 1) <= z < 2 ^ (bits - 1) -> wrap_signed bits z = z.
Proof.
  intros Hb Hz. unfold wrap_signed.
  pose proof (pow2_double bits Hb) as H2.
  rewrite Z.mod_small by lia. lia.
Qed.

Lemma to_int_id z : in_int z -> to_int z = z.
Proof. intros H. apply wrap_signed_id; [lia | exact H]. Qed.

Lemma to_jlong_id z : in_jlong z -> to_jlong z = z.
Proof. intros H. apply wrap_signed_id; [lia | exact H]. Qed.

Lemma to_jlong_range z : in_jlong (to_jlong z).
Proof. apply (wrap_signed_range 64). lia. Qed.

Lemma to_jlong_overflow z :
  2 ^ 63 <= z < 2 ^ 64 -> to_jlong z = z - 2 ^ 64.
Proof.
  intros Hz. unfold to_jlong, wrap_signed.
  replace (z + 2 ^ (64 - 1)) with ((z - 2 ^ 63) + 1 * 2 ^ 64) by lia.
  rewrite Z.mod_add by lia. rewrite Z.mod_small by lia. lia.
Qed.

(** Or-ing a value below [2 ^ n] into a multiple of [2 ^ n] adds it. *)
Lemma lor_shiftl_low a r n :
  0 <= n -> 0 <= r < 2 ^ n -> Z.lor (Z.shiftl a n) r = a * 2 ^ n + r.
Proof.
  intros Hn Hr.
  assert (Hdisj : Z.land (Z.shiftl a n) r = 0).
  { apply Z.bits_inj'. intros k Hk. rewrite Z.land_spec, Z.bits_0.
    destruct (Z.lt_ge_cases k n) as [Hlt | Hge].
    - rewrite Z.shiftl_spec_low by lia. reflexivity.
    - rewrite andb_false_iff. right.
      destruct (Z.eq_dec r 0) as [-> | Hr0]; [apply Z.bits_0 |].
      apply Z.bits_above_log2; [lia |].
      apply Z.log2_lt_pow2; [lia |]. 
      eapply Z.lt_le_trans; [apply Hr |]. apply Z.pow_le_mono_r; lia. }
  rewrite <- Z.lxor_lor by exact Hdisj.
  rewrite <- Z.add_nocarry_lxor by exact Hdisj.
  rewrite Z.shiftl_mul_pow2 by lia. reflexivity.
Qed.

Lemma to_uint_to_int z : to_uint (to_int z) = to_uint z.
Proof.
  unfold to_uint, to_int, wrap_unsigned, wrap_signed.
  rewrite Zminus_mod_idemp_l. f_equal. lia.
Qed.

End MachineFacts.

(** ** Alignment *)

Module UtilFacts.
Import Machine MachineFacts Vm Util.
Local Open Scope Z_scope.

Lemma to_uint_id z : is_uword z -> to_uint z = z.
Proof. intros H. unfold to_uint, wrap_unsigned. apply Z.mod_small. exact H. Qed.

Lemma to_uint_range z : is_uword (to_uint z).
Proof. unfold is_uword, to_uint, wrap_unsigned. apply Z.mod_pos_bound. lia. Qed.

Lemma pow2_le_32 k : 0 <= k < 32 -> 0 < 2 ^ k <= 2 ^ 31.
Proof.
  intros Hk. split; [apply Z.pow_pos_nonneg; lia |].
  apply Z.pow_le_mono_r; lia.
Qed.

(** Masking a [UWord] with [~(2^k - 1)] clears its [k] low bits. *)
Lemma land_align_mask x k :
  is_uword x -> 0 <= k < 32 ->
  Z.land x (to_uint (Z.lnot (to_uint (2 ^ k - 1)))) = x / 2 ^ k * 2 ^ k.
Proof.
  intros Hx Hk. pose proof (pow2_le_32 k Hk) as Hp. unfold is_uword in Hx.
  rewrite (to_uint_id (2 ^ k - 1)) by (unfold is_uword; lia).
  replace (2 ^ k - 1) with (Z.ones k) by (rewrite Z.ones_equiv; lia).
  unfold to_uint, wrap_unsigned.
  rewrite <- (Z.land_ones (Z.lnot (Z.ones k)) 32) by lia.
  rewrite (Z.land_comm (Z.lnot (Z.ones k))), Z.land_assoc.
  rewrite (Z.land_ones x 32) by lia. rewrite (Z.mod_small x) by lia.
  rewrite <- Z.ldiff_land, Z.ldiff_ones_r by lia.
  rewrite Z.shiftl_mul_pow2, Z.shiftr_div_pow2 by lia. reflexivity.
Qed.

Lemma isPowerOf2_pow2 k : 0 <= k < 32 -> isPowerOf2 (2 ^ k) = true.
Proof.
  intros Hk. pose proof (pow2_le_32 k Hk) as Hp. unfold isPowerOf2.
  apply bool_decide_eq_true.
  rewrite to_uint_id by (unfold is_uword; lia).
  replace (2 ^ k - 1) with (Z.ones k) by (rewrite Z.ones_equiv; lia).
  rewrite Z.land_ones by lia. apply Z_mod_same_full.
Qed.

Lemma assume_pow2 ASSUME k :
  0 <= k < 32 -> assume ASSUME (isPowerOf2 (2 ^ k)) = Returns tt.
Proof.
  intros Hk. unfold assume. rewrite isPowerOf2_pow2 by done.
  by rewrite andb_false_r.
Qed.

Lemma roundUp_value ASSUME value k :
  0 <= k < 32 -> 0 <= value -> value + 2 ^ k <= 2 ^ 32 ->
  roundUp ASSUME value (2 ^ k) =
    Returns ((value + 2 ^ k - 1) / 2 ^ k * 2 ^ k).
Proof.
  intros Hk Hv Hfit. pose proof (pow2_le_32 k Hk) as Hp. unfold roundUp.
  rewrite assume_pow2 by done. simpl.
  rewrite (to_uint_id (2 ^ k - 1)) at 1 by (unfold is_uword; lia).
  rewrite (to_uint_id (value + (2 ^ k - 1))) by (unfold is_uword; lia).
  rewrite land_align_mask by (unfold is_uword; lia).
  do 3 f_equal. lia.
Qed.

Lemma roundDown_value ASSUME value k :
  is_uword value -> 0 <= k < 32 ->
  roundDown ASSUME value (2 ^ k) = Returns (value / 2 ^ k * 2 ^ k).
Proof.
  intros Hv Hk. unfold roundDown. rewrite assume_pow2 by done. simpl.
  f_equal. by apply land_align_mask.
Qed.

(** Rounding up the sum of a multiple of the alignment and a size moves
    only the size. *)
Lemma roundUp_aligned_add ASSUME base size k :
  0 <= k < 32 -> 0 <= base -> 0 <= size -> (2 ^ k | base) ->
  base + size + 2 ^ k <= 2 ^ 32 ->
  roundUp ASSUME (base + size) (2 ^ k) =
    Returns (base + (size + 2 ^ k - 1) / 2 ^ k * 2 ^ k).
Proof.
  intros Hk Hb Hs [c ->] Hfit. pose proof (pow2_le_32 k Hk) as Hp.
  rewrite roundUp_value by lia. f_equal.
  replace (c * 2 ^ k + size + 2 ^ k - 1) with (size + 2 ^ k - 1 + c * 2 ^ k)
    by lia.
  rewrite Z.div_add by lia. lia.
Qed.

Lemma roundUp_spec ASSUME value k :
  0 <= k < 32 -> 0 <= value -> value + 2 ^ k <= 2 ^ 32 ->
  exists r,
    roundUp ASSUME value (2 ^ k) = Returns r /\
    (2 ^ k | r) /\ value <= r < value + 2 ^ k /\
    (forall m, (2 ^ k | m) -> value <= m -> r <= m).
Proof.
  intros Hk Hv Hfit. eexists. split; [by apply roundUp_value |].
  pose proof (pow2_le_32 k Hk) as Hp.
  set (a := 2 ^ k) in *. set (q := (value + a - 1) / a).
  pose proof (Z.div_mod (value + a - 1) a ltac:(lia)) as Hdm.
  pose proof (Z.mod_pos_bound (value + a - 1) a ltac:(lia)) as Hmod.
  fold q in Hdm. split; [| split].
  - exists q. reflexivity.
  - nia.
  - intros m [c ->] Hm. assert (q <= c); [| nia].
    destruct (Z.le_gt_cases q c) as [Hle | Hgt]; [done |]. nia.
Qed.

(** X1: for an alignment that is a power of two, and as long as
    [value + alignment - 1] still fits in a [UWord], [roundUp] returns
    the least multiple of the alignment that is not below [value]. *)
Theorem roundUp_least_multiple ASSUME value k :
  0 <= k < 32 -> 0 <= value -> value + 2 ^ k <= 2 ^ 32 ->
  exists r,
    roundUp ASSUME value (2 ^ k) = Returns r /\
    (2 ^ k | r) /\ value <= r < value + 2 ^ k /\
    (forall m, (2 ^ k | m) -> value <= m -> r <= m).
Proof. apply roundUp_spec. Qed.

Lemma roundUp_least_multiple_witness :
  exists r, roundUp true 5000 (2 ^ 12) = Returns r /\
            (2 ^ 12 | r) /\ 5000 <= r < 5000 + 2 ^ 12.
Proof.
  destruct (roundUp_least_multiple true 5000 12) as (r & Hrun & Hdiv & Hrange & _);
    [lia | lia | vm_compute; discriminate |].
  exists r. split; [exact Hrun |]. split; [exact Hdiv | exact Hrange].
Defined.

(** X2: when [value + alignment - 1] does not fit in a [UWord] the sum
    wraps around and [roundUp] returns 0, a value below its argument. *)
Theorem roundUp_wraps_to_zero ASSUME value k :
  0 <= k < 32 -> 2 ^ 32 - 2 ^ k < value < 2 ^ 32 ->
  roundUp ASSUME value (2 ^ k) = Returns 0.
Proof.
  intros Hk Hv. pose proof (pow2_le_32 k Hk) as Hp. unfold roundUp.
  rewrite assume_pow2 by done. simpl.
  rewrite (to_uint_id (2 ^ k - 1)) at 1 by (unfold is_uword; lia).
  assert (Hsum : to_uint (value + (2 ^ k - 1)) = value + 2 ^ k - 1 - 2 ^ 32).
  { unfold to_uint, wrap_unsigned.
    replace (value + (2 ^ k - 1))
      with (value + 2 ^ k - 1 - 2 ^ 32 + 1 * 2 ^ 32) by lia.
    rewrite Z.mod_add by lia. apply Z.mod_small. lia. }
  rewrite Hsum, land_align_mask by (unfold is_uword; lia).
  rewrite Z.div_small by lia. reflexivity.
Qed.

Lemma roundUp_wraps_to_zero_witness :
  roundUp true (2 ^ 32 - 100) (2 ^ 12) = Returns 0.
Proof. apply (roundUp_wraps_to_zero true (2 ^ 32 - 100) 12); lia. Defined.

(** X3: for an alignment that is a power of two, [roundDown] returns
    the greatest multiple of the alignment that is not above [value];
    [isAligned] holds exactly for the multiples of the alignment, and
    these are the values that [roundUp] leaves alone. *)
Theorem roundDown_greatest_multiple ASSUME value k :
  is_uword value -> 0 <= k < 32 ->
  exists r,
    roundDown ASSUME value (2 ^ k) = Returns r /\
    (2 ^ k | r) /\ r <= value < r + 2 ^ k /\
    (exists aligned,
       isAligned ASSUME value (2 ^ k) = Returns aligned /\
       (aligned = true <-> (2 ^ k | value))) /\
    (value + 2 ^ k <= 2 ^ 32 ->
     roundUp ASSUME value (2 ^ k) = Returns value <-> (2 ^ k | value)).
Proof.
  intros Hv Hk. eexists. split; [by apply roundDown_value |].
  pose proof (pow2_le_32 k Hk) as Hp. unfold is_uword in Hv.
  pose proof (Z.div_mod value (2 ^ k) ltac:(lia)) as Hdm.
  pose proof (Z.mod_pos_bound value (2 ^ k) ltac:(lia)) as Hmod.
  split; [by exists (value / 2 ^ k) |]. split; [lia |]. split.
  - unfold isAligned. rewrite roundDown_value by done. simpl.
    eexists. split; [reflexivity |]. rewrite bool_decide_eq_true. split.
    + intros Heq. exists (value / 2 ^ k). exact Heq.
    + intros [c ->]. rewrite Z.div_mul by lia. reflexivity.
  - intros Hfit.
    destruct (roundUp_spec ASSUME value k Hk ltac:(lia) Hfit)
      as (r & Hrun & Hdiv & Hrange & Hleast).
    rewrite Hrun. split.
    + intros [= ->]. exact Hdiv.
    + intros Hd. specialize (Hleast value Hd ltac:(lia)). f_equal. lia.
Qed.

Lemma roundDown_greatest_multiple_witness :
  exists r, roundDown true 5000 (2 ^ 12) = Returns r /\
            (2 ^ 12 | r) /\ r <= 5000 < r + 2 ^ 12.
Proof.
  destruct (roundDown_greatest_multiple true 5000 12)
    as (r & Hrun & Hdiv & Hrange & _);
    [unfold is_uword; lia | lia |].
  exists r. split; [exact Hrun |]. split; [exact Hdiv | exact Hrange].
Defined.

(** X4: [isPowerOf2] accepts the powers of two and also 0, and nothing
    else. *)
Theorem isPowerOf2_zero_or_power value :
  is_uword value ->
  isPowerOf2 value = true <-> value = 0 \/ exists k, 0 <= k < 32 /\ value = 2 ^ k.
Proof.
  intros Hv. unfold is_uword in Hv. unfold isPowerOf2.
  rewrite bool_decide_eq_true. split.
  - intros Hland. destruct (decide (value = 0)) as [-> | Hnz]; [by left |].
    right. rewrite to_uint_id in Hland by (unfold is_uword; lia).
    set (k := Z.log2 value).
    assert (Hk : 0 <= k) by apply Z.log2_nonneg.
    pose proof (Z.log2_spec value ltac:(lia)) as Hlog. fold k in Hlog.
    assert (Hk32 : k < 32).
    { apply (Z.pow_lt_mono_r_iff 2); lia. }
    exists k. split; [lia |].
    destruct (decide (value = 2 ^ k)) as [Heq | Hne]; [done |].
    exfalso.
    assert (Hbit1 : Z.testbit value k = true) by (apply Z.bit_log2; lia).
    assert (Hlog' : Z.log2 (value - 1) = k).
    { apply Z.log2_unique; [lia |]. lia. }
    assert (Hbit2 : Z.testbit (value - 1) k = true).
    { rewrite <- Hlog'. apply Z.bit_log2.
      pose proof (Z.pow_pos_nonneg 2 k ltac:(lia) Hk). lia. }
    assert (Hbit : Z.testbit (Z.land value (value - 1)) k = true)
      by (by rewrite Z.land_spec, Hbit1, Hbit2).
    rewrite Hland, Z.bits_0 in Hbit. discriminate.
  - intros [-> | (k & Hk & ->)]; [reflexivity |].
    apply (bool_decide_eq_true _). by apply isPowerOf2_pow2.
Qed.

Lemma isPowerOf2_zero_or_power_witness :
  isPowerOf2 4096 = true /\ isPowerOf2 0 = true.
Proof.
  split.
  - apply (isPowerOf2_zero_or_power 4096); [unfold is_uword; lia |].
    right. exists 12. split; [lia | reflexivity].
  - apply (isPowerOf2_zero_or_power 0); [unfold is_uword; lia |]. by left.
Defined.

(** X29: the shifts on [int] use the shift count modulo 32.  [sra]
    divides by the power of two, rounding down, so it keeps the sign;
    [srl] shifts the 32 bits as an unsigned number, so its result is
    not negative unless the count is 0 modulo 32, in which case both
    return their argument. *)
Theorem int_shifts_use_count_mod_32 a b :
  in_int a ->
  let n := b mod 32 in
  sll a b = to_int (a * 2 ^ n) /\
  sra a b = a / 2 ^ n /\ in_int (sra a b) /\
  srl a b = (if decide (n = 0) then a else (a mod 2 ^ 32) / 2 ^ n) /\
  (0 < n -> 0 <= srl a b < 2 ^ 31).
Proof.
  intros Ha n. unfold sll, sra, srl, in_int in *.
  change (Z.land b 31) with (Z.land b (Z.ones 5)).
  rewrite Z.land_ones by lia.
  change (2 ^ 5) with 32. fold n.
  assert (Hn : 0 <= n < 32) by (apply Z.mod_pos_bound; lia).
  assert (Hp : 0 < 2 ^ n) by (apply Z.pow_pos_nonneg; lia).
  rewrite Z.shiftl_mul_pow2, !Z.shiftr_div_pow2 by lia.
  assert (Hu : 0 <= to_uint a < 2 ^ 32)
    by (unfold to_uint, wrap_unsigned; apply Z.mod_pos_bound; lia).
  assert (Hsrl : 0 < n -> 0 <= to_uint a / 2 ^ n < 2 ^ 31).
  { intros Hpos. split; [apply Z.div_pos; lia |].
    apply Z.div_lt_upper_bound; [lia |].
    assert (2 <= 2 ^ n); [| nia].
    change 2 with (2 ^ 1) at 1. apply Z.pow_le_mono_r; lia. }
  split; [done |]. split; [done |]. split; [| split].
  - split.
    + apply Z.div_le_lower_bound; [lia |]. nia.
    + apply Z.div_lt_upper_bound; [lia |]. nia.
  - destruct (decide (n = 0)) as [Hz | Hnz].
    + rewrite Hz. change (2 ^ 0) with 1. rewrite Z.div_1_r.
      unfold to_uint, to_int, wrap_unsigned, wrap_signed.
      change (32 - 1) with 31.
      rewrite Zplus_mod_idemp_l.
      rewrite Z.mod_small by lia. lia.
    + rewrite to_int_id by (unfold in_int; specialize (Hsrl ltac:(lia)); lia).
      reflexivity.
  - intros Hpos. specialize (Hsrl Hpos).
    rewrite to_int_id by (unfold in_int; lia). exact Hsrl.
Qed.

Lemma int_shifts_use_count_mod_32_witness :
  sra (- 8) 33 = - 4 /\ srl (- 8) 33 = 2 ^ 31 - 4.
Proof.
  destruct (int_shifts_use_count_mod_32 (- 8) 33) as (_ & Hsra & _ & Hsrl & _);
    [unfold in_int; lia |].
  split; [exact Hsra | exact Hsrl].
Defined.

End UtilFacts.

(** ** The switch-request queue and the wait for events *)

Module Eb40aIOFacts.
Import Machine MachineFacts Eb40aIO.
Local Open Scope Z_scope.

(** *** The queue of switch requests *)

Lemma last_request_last first rest :
  last (first :: rest) = Some (last_request first rest).
Proof.
  revert first. induction rest as [| r rest IH]; intros first; [done |].
  rewrite last_cons_cons. apply IH.
Qed.

Lemma storeSwitchRequest_ok cc m q :
  storeSwitchRequest cc true m q =
    (next_event_number q,
     q ++ [mkSwitchRequest (next_event_number q) m]).
Proof.
  unfold storeSwitchRequest, next_event_number. simpl.
  destruct q as [| first rest]; [done |].
  rewrite last_request_last. done.
Qed.

Lemma storeSwitchRequest_failed cc m q :
  storeSwitchRequest cc false m q = (RESULT_EXCEPTION cc, q).
Proof. done. Qed.

Lemma numbered_next q :
  numbered_from_one q -> Z.of_nat (length q) + 1 < 2 ^ 31 ->
  next_event_number q = Z.of_nat (length q) + 1.
Proof.
  intros Hnum Hlen. unfold next_event_number.
  destruct (last q) as [r |] eqn:Hlast.
  - assert (0 < length q)%nat by (destruct q; [done | simpl; lia]).
    rewrite last_lookup in Hlast. apply Hnum in Hlast. rewrite Hlast.
    rewrite to_int_id; unfold in_int; lia.
  - apply last_None in Hlast. subst q. done.
Qed.

Lemma getEventPrim_loop_none pressed flag previous current :
  Forall (not_pressed pressed) current ->
  getEventPrim_loop pressed flag previous current = (0, previous ++ current).
Proof.
  revert previous. induction current as [| c next IH]; intros previous Hall.
  - simpl. by rewrite app_nil_r.
  - inversion Hall as [| ? ? Hc Hnext]; subst. simpl.
    unfold not_pressed in Hc. rewrite Hc, IH by done.
    by rewrite <- app_assoc.
Qed.

Lemma getEventPrim_loop_first pressed flag previous before r after :
  Forall (not_pressed pressed) before -> pressed (mask r) = true ->
  getEventPrim_loop pressed flag previous (before ++ r :: after) =
    (eventNumber r,
     if flag then previous ++ before ++ after
     else previous ++ before ++ r :: after).
Proof.
  revert previous. induction before as [| c before IH]; intros previous Hall Hr.
  - simpl. by rewrite Hr.
  - inversion Hall as [| ? ? Hc Hbefore]; subst. simpl.
    unfold not_pressed in Hc. rewrite Hc, IH by done.
    by rewrite <- !app_assoc.
Qed.

Lemma getEventPrim_none pressed flag q :
  Forall (not_pressed pressed) q -> getEventPrim pressed flag q = (0, q).
Proof.
  intros Hall. destruct q as [| c next]; [done |].
  unfold getEventPrim. by rewrite getEventPrim_loop_none.
Qed.

Lemma getEventPrim_first pressed flag before r after :
  Forall (not_pressed pressed) before -> pressed (mask r) = true ->
  getEventPrim pressed flag (before ++ r :: after) =
    (eventNumber r, if flag then before ++ after else before ++ r :: after).
Proof.
  intros Hall Hr.
  pose proof (getEventPrim_loop_first pressed flag [] before r after Hall Hr)
    as Hloop.
  unfold getEventPrim. destruct before; simpl in *; exact Hloop.
Qed.

(** Every queue either has a first record whose switch is pressed, or
    none at all. *)
Lemma first_pressed_or_none pressed (q : list SwitchRequest) :
  Forall (not_pressed pressed) q \/
  exists before r after,
    q = before ++ r :: after /\ Forall (not_pressed pressed) before /\
    pressed (mask r) = true.
Proof.
  induction q as [| c q IH]; [by left |].
  destruct (pressed (mask c)) eqn:Hc.
  - right. exists [], c, q. by repeat split.
  - destruct IH as [Hall | (before & r & after & -> & Hall & Hr)].
    + left. by constructor.
    + right. exists (c :: before), r, after. repeat split; [| done].
      by constructor.
Qed.

(** *** The read-switch request *)

(** C2, as the code has it: a read-switch request for a pressed switch returns 0
    and leaves the state alone; for a switch that is not pressed, and
    when the record can be allocated, it appends one record to the tail
    of the queue and returns that record's number, which is 1 for an
    empty queue and otherwise one more (as an [int]) than the number of
    the record that was last in the queue.  Whenever the queue holds
    the numbers 1, 2, ... in order, that is the length of the queue
    plus one. *)
Theorem sw_read_numbers_after_the_tail cc w fuel m i2 st :
  (sw_is_pressed w 0%nat m = true ->
   ioExecute cc w fuel SW_READ m i2 st = Some (0, st)) /\
  (sw_is_pressed w 0%nat m = false -> malloc_ok w = true ->
   let q := switchRequests st in
   let n := next_event_number q in
   ioExecute cc w fuel SW_READ m i2 st =
     Some (n, mkIOState (q ++ [mkSwitchRequest n m]) (retValue st)
                        (effects st)) /\
   (q = [] -> n = 1) /\
   (forall r, last q = Some r -> n = to_int (eventNumber r + 1)) /\
   (numbered_from_one q -> Z.of_nat (length q) + 1 < 2 ^ 31 ->
    n = Z.of_nat (length q) + 1)).
Proof.
  split.
  - intros Hp. simpl. by rewrite Hp.
  - intros Hp Hm q n. repeat split.
    + simpl. rewrite Hp, Hm. by rewrite storeSwitchRequest_ok.
    + intros Hq. subst n. by rewrite Hq.
    + intros r Hr. subst n. unfold next_event_number. by rewrite Hr.
    + apply numbered_next.
Qed.

Lemma sw_read_numbers_after_the_tail_witness :
  ioExecute cc0 (board true (fun _ => false) (fun _ => 0)) 0 SW_READ 4 0
            (mkIOState [mkSwitchRequest 1 1; mkSwitchRequest 2 2] 0 []) =
    Some (3, mkIOState [mkSwitchRequest 1 1; mkSwitchRequest 2 2;
                        mkSwitchRequest 3 4] 0 []).
Proof.
  exact (proj1 (proj2 (sw_read_numbers_after_the_tail
                         cc0 (board true (fun _ => false) (fun _ => 0)) 0 4 0
                         (mkIOState [mkSwitchRequest 1 1; mkSwitchRequest 2 2]
                                    0 []))
                      eq_refl eq_refl)).
Defined.

(** C2, counterexample: once the head of the queue has been consumed the
    queue [2] has length 1, and the next read-switch request on a switch
    that is not pressed returns 3, not the length plus one; and when the
    allocation fails nothing is appended at all. *)
Lemma sw_read_not_length_plus_one :
  let up := board true (fun _ => false) (fun _ => 0) in
  let st := mkIOState [mkSwitchRequest 2 2] 0 [] in
  drained_head = Some st /\
  sw_is_pressed up 0%nat 4 = false /\
  ioExecute cc0 up 0 SW_READ 4 0 st =
    Some (3, mkIOState [mkSwitchRequest 2 2; mkSwitchRequest 3 4] 0 []) /\
  3 <> Z.of_nat (length (switchRequests st)) + 1 /\
  ioExecute cc0 (board false (fun _ => false) (fun _ => 0)) 0 SW_READ 4 0 st =
    Some (-2, st).
Proof. repeat split; vm_compute; congruence. Qed.

(** C10: when the record cannot be allocated, a read-switch request on a
    switch that is not pressed returns the exception result code and
    leaves the queue (and the rest of the state) as it was; with a
    negative exception code and a queue of non-negative [int] numbers that
    result is neither 0 nor the number a stored request would have
    got. *)
Theorem sw_read_allocation_failure cc w fuel m i2 st :
  sw_is_pressed w 0%nat m = false -> malloc_ok w = false ->
  ioExecute cc w fuel SW_READ m i2 st = Some (RESULT_EXCEPTION cc, st) /\
  (- 2 ^ 31 < RESULT_EXCEPTION cc < 0 ->
   Forall (fun r => 0 <= eventNumber r < 2 ^ 31) (switchRequests st) ->
   RESULT_EXCEPTION cc <> 0 /\
   RESULT_EXCEPTION cc <> fst (storeSwitchRequest cc true m (switchRequests st))).
Proof.
  intros Hp Hm. split.
  - simpl. rewrite Hp, Hm. simpl. by destruct st.
  - intros Hexc Hq. split; [lia |].
    rewrite storeSwitchRequest_ok. simpl. unfold next_event_number.
    destruct (last (switchRequests st)) as [r |] eqn:Hlast; [| lia].
    assert (Hr : 0 <= eventNumber r < 2 ^ 31).
    { rewrite Forall_forall in Hq. apply Hq.
      rewrite last_lookup in Hlast. by eapply list_elem_of_lookup_2. }
    destruct (Z.lt_ge_cases (eventNumber r + 1) (2 ^ 31)) as [Hlt | Hge].
    + rewrite to_int_id by (unfold in_int; lia). lia.
    + replace (eventNumber r + 1) with (2 ^ 31) by lia.
      vm_compute (to_int (2 ^ 31)). lia.
Qed.

Lemma sw_read_allocation_failure_witness :
  ioExecute cc0 (board false (fun _ => false) (fun _ => 0)) 0 SW_READ 4 0
            (mkIOState [mkSwitchRequest 1 1] 0 []) =
    Some (-2, mkIOState [mkSwitchRequest 1 1] 0 []) /\
  (-2 <> 0 /\ -2 <> 2).
Proof.
  pose proof (sw_read_allocation_failure
                cc0 (board false (fun _ => false) (fun _ => 0)) 0 4 0
                (mkIOState [mkSwitchRequest 1 1] 0 []) eq_refl eq_refl)
    as [Hres Hfresh].
  split; [exact Hres |].
  apply Hfresh; [simpl; lia |].
  repeat constructor; simpl; lia.
Defined.

(** *** The event check *)

(** C3: the event check returns the number of the first record, in
    queue order, whose switch is pressed, and 0 when there is none; with
    the remove flag set it unchains exactly that record and keeps the
    others in order, without the flag it leaves the queue as it was.
    One of the two cases always applies. *)
Theorem getEventPrim_first_pressed pressed removeEventFlag q :
  (forall before r after,
     q = before ++ r :: after ->
     Forall (not_pressed pressed) before -> pressed (mask r) = true ->
     getEventPrim pressed removeEventFlag q =
       (eventNumber r, if removeEventFlag then before ++ after else q)) /\
  (Forall (not_pressed pressed) q ->
   getEventPrim pressed removeEventFlag q = (0, q)) /\
  (Forall (not_pressed pressed) q \/
   exists before r after,
     q = before ++ r :: after /\ Forall (not_pressed pressed) before /\
     pressed (mask r) = true).
Proof.
  repeat split.
  - intros before r after -> Hall Hr. by apply getEventPrim_first.
  - apply getEventPrim_none.
  - apply first_pressed_or_none.
Qed.

Lemma getEventPrim_first_pressed_witness :
  let q := [mkSwitchRequest 1 10; mkSwitchRequest 2 20; mkSwitchRequest 3 30] in
  let pressed := fun m => bool_decide (m = 20) in
  getEventPrim pressed true q =
    (2, [mkSwitchRequest 1 10; mkSwitchRequest 3 30]) /\
  getEventPrim pressed false q = (2, q) /\
  getEventPrim (fun _ => false) true q = (0, q).
Proof.
  intros q pressed. split; [| split].
  - apply (proj1 (getEventPrim_first_pressed pressed true q)
                 [mkSwitchRequest 1 10] (mkSwitchRequest 2 20)
                 [mkSwitchRequest 3 30]); [reflexivity | | reflexivity].
    repeat constructor.
  - apply (proj1 (getEventPrim_first_pressed pressed false q)
                 [mkSwitchRequest 1 10] (mkSwitchRequest 2 20)
                 [mkSwitchRequest 3 30]); [reflexivity | | reflexivity].
    repeat constructor.
  - apply (proj1 (proj2 (getEventPrim_first_pressed (fun _ => false) true q))).
    repeat constructor.
Defined.

(** *** The wait for an event *)

Lemma millisecondsToWait_requested i1 i2 :
  in_int i1 -> millisecondsToWait i1 i2 = requested i1 i2.
Proof.
  intros Hi1. unfold millisecondsToWait, requested, in_int in *.
  replace (2 ^ 32 - 1) with (Z.ones 32) by reflexivity.
  rewrite Z.land_ones by lia.
  pose proof (Z.mod_pos_bound i2 (2 ^ 32) ltac:(lia)) as Hlow.
  rewrite (to_jlong_id (Z.shiftl i1 32)).
  2: { rewrite Z.shiftl_mul_pow2 by lia. unfold in_jlong. lia. }
  rewrite lor_shiftl_low by lia.
  apply to_jlong_id. unfold in_jlong. lia.
Qed.

Lemma requested_range i1 i2 :
  in_int i1 -> - 2 ^ 63 <= requested i1 i2 < 2 ^ 63.
Proof.
  intros Hi1. unfold requested, in_int in *.
  pose proof (Z.mod_pos_bound i2 (2 ^ 32) ltac:(lia)). lia.
Qed.

Lemma wait_loop_sound w q target fuel k0 k by_event :
  wait_loop w q target fuel k0 = Some (k, by_event) ->
  (k0 <= k < k0 + fuel)%nat /\
  (forall j, (k0 <= j < k)%nat ->
     ~ event_seen w q j /\ ~ deadline_passed w target j) /\
  (if by_event then event_seen w q k
   else ~ event_seen w q k /\ deadline_passed w target k).
Proof.
  revert k0. induction fuel as [| fuel IH]; intros k0 Hrun; [done |].
  simpl in Hrun. unfold event_seen, deadline_passed.
  destruct (fst (checkForEvents (sw_is_pressed w k0) q) =? 0) eqn:Hev;
    simpl in Hrun.
  - apply Z.eqb_eq in Hev.
    destruct (getMilliseconds w (S k0) >? target) eqn:Hclk.
    + inversion Hrun; subst. rewrite Z.gtb_gt in Hclk.
      repeat split; try lia. all: intros; lia.
    + assert (Hle : getMilliseconds w (S k0) <= target).
      { rewrite Z.gtb_ltb, Z.ltb_ge in Hclk. exact Hclk. }
      apply IH in Hrun as (Hk & Hbefore & Hlast).
      split; [lia |]. split; [| exact Hlast].
      intros j Hj. destruct (decide (j = k0)) as [-> | Hne].
      * unfold event_seen, deadline_passed. lia.
      * apply Hbefore. lia.
  - apply Z.eqb_neq in Hev. inversion Hrun; subst.
    repeat split; try lia. all: intros; lia.
Qed.

Lemma wait_loop_complete w q target fuel k0 k :
  (k0 <= k < k0 + fuel)%nat ->
  (forall j, (k0 <= j < k)%nat ->
     ~ event_seen w q j /\ ~ deadline_passed w target j) ->
  event_seen w q k \/ deadline_passed w target k ->
  exists by_event, wait_loop w q target fuel k0 = Some (k, by_event).
Proof.
  revert k0. induction fuel as [| fuel IH]; intros k0 Hk Hbefore Hlast; [lia |].
  simpl. unfold event_seen, deadline_passed in *.
  destruct (decide (k = k0)) as [-> | Hne].
  - destruct (fst (checkForEvents (sw_is_pressed w k0) q) =? 0) eqn:Hev;
      simpl; [| by eexists].
    apply Z.eqb_eq in Hev.
    destruct Hlast as [Hlast | Hlast]; [lia |].
    apply Z.gt_lt, Z.gtb_lt in Hlast.  rewrite Hlast. by eexists.
  - destruct (Hbefore k0 ltac:(lia)) as [Hnoev Hnoclk].
    destruct (fst (checkForEvents (sw_is_pressed w k0) q) =? 0) eqn:Hev.
    2: { apply Z.eqb_neq in Hev. done. }
    simpl.
    destruct (getMilliseconds w (S k0) >? target) eqn:Hclk.
    { rewrite Z.gtb_gt in Hclk. lia. }
    apply IH; [lia | | done]. intros j Hj. apply Hbefore. lia.
Qed.

Lemma wait_target_cases now i1 i2 :
  in_int i1 ->
  wait_target now i1 i2 =
    if 0 <? to_jlong (now + requested i1 i2)
    then to_jlong (now + requested i1 i2) else maxValue.
Proof.
  intros Hi1. unfold wait_target. rewrite millisecondsToWait_requested by done.
  simpl. destruct (Z.leb_spec (to_jlong (now + requested i1 i2)) 0);
    destruct (Z.ltb_spec 0 (to_jlong (now + requested i1 i2))); lia || done.
Qed.

Lemma wait_target_positive now i1 i2 :
  in_int i1 -> 0 < wait_target now i1 i2 <= maxValue.
Proof.
  intros Hi1. rewrite wait_target_cases by done.
  pose proof (to_jlong_range (now + requested i1 i2)) as Hr.
  unfold in_jlong, maxValue in *.
  destruct (Z.ltb_spec 0 (to_jlong (now + requested i1 i2))); lia.
Qed.

Lemma wait_request_result cc w fuel i1 i2 st r :
  ioExecute cc w fuel GLOBAL_WAITFOREVENT i1 i2 st = Some r ->
  r = (0, st) /\
  exists k by_event,
    wait_loop w (switchRequests st)
              (wait_target (getMilliseconds w 0%nat) i1 i2) fuel 0
      = Some (k, by_event).
Proof.
  simpl.
  destruct (wait_loop w (switchRequests st)
              (wait_target (getMilliseconds w 0%nat) i1 i2) fuel 0)
    as [[k by_event] |] eqn:Hloop; [| done].
  intros [= <-]. split; [done |]. by exists k, by_event.
Qed.

(** C4, as the code has it: the wait request combines its two arguments into one
    64-bit number of milliseconds and adds it to the clock.  When that
    sum is positive and fits in 64 bits it is the deadline; when the sum
    of a non-negative clock and a non-negative request overflows, the
    deadline is the largest 64-bit value; the deadline is never
    negative.  The request then polls the non-consuming check: whenever
    it returns, the result is 0 and the state is unchanged, and it has
    stopped at the first round in which the check found an event or the
    clock read after it was past the deadline; it does return at such a
    round; and when no round ever finds an event it returns only in a
    round whose clock reading is past the deadline. *)
Theorem wait_for_event_deadline cc w i1 i2 st :
  let now := getMilliseconds w 0%nat in
  let target := wait_target now i1 i2 in
  let q := switchRequests st in
  let first_stop k :=
    (forall j, (j < k)%nat ->
       ~ event_seen w q j /\ ~ deadline_passed w target j) /\
    (event_seen w q k \/ deadline_passed w target k) in
  in_int i1 -> in_jlong now ->
  (0 < now + requested i1 i2 <= maxValue ->
   target = now + requested i1 i2) /\
  (0 <= now -> 0 <= i1 -> maxValue < now + requested i1 i2 ->
   target = maxValue) /\
  0 < target <= maxValue /\
  (forall fuel r,
     ioExecute cc w fuel GLOBAL_WAITFOREVENT i1 i2 st = Some r ->
     r = (0, st) /\ exists k, (k < fuel)%nat /\ first_stop k) /\
  (forall k fuel,
     first_stop k -> (k < fuel)%nat ->
     ioExecute cc w fuel GLOBAL_WAITFOREVENT i1 i2 st = Some (0, st)) /\
  (forall fuel r,
     (forall k, ~ event_seen w q k) ->
     ioExecute cc w fuel GLOBAL_WAITFOREVENT i1 i2 st = Some r ->
     exists k, (k < fuel)%nat /\ getMilliseconds w (S k) > target).
Proof.
  intros now target q first_stop Hi1 Hnow.
  assert (Hcases := wait_target_cases now i1 i2 Hi1).
  pose proof (requested_range i1 i2 Hi1) as Hreq.
  unfold in_jlong, in_int, maxValue in *.
  split; [| split; [| split; [| split; [| split]]]].
  - intros Hsum. subst target. rewrite Hcases.
    rewrite to_jlong_id by (unfold in_jlong; lia).
    destruct (Z.ltb_spec 0 (now + requested i1 i2)); lia.
  - intros Hn0 Hi0 Hover. subst target. rewrite Hcases.
    assert (0 <= requested i1 i2).
    { unfold requested.
      pose proof (Z.mod_pos_bound i2 (2 ^ 32) ltac:(lia)). lia. }
    rewrite to_jlong_overflow by lia.
    destruct (Z.ltb_spec 0 (now + requested i1 i2 - 2 ^ 64)); [lia | done].
  - apply wait_target_positive. exact Hi1.
  - intros fuel r Hrun.
    apply wait_request_result in Hrun as [-> (k & by_event & Hloop)].
    split; [done |]. exists k.
    apply wait_loop_sound in Hloop as (Hk & Hbefore & Hlast).
    split; [lia |]. split.
    + intros j Hj. apply Hbefore. lia.
    + destruct by_event; [by left | right; apply Hlast].
  - intros k fuel [Hbefore Hlast] Hk.
    destruct (wait_loop_complete w q target fuel 0 k) as [by_event Hloop];
      [lia | intros j Hj; apply Hbefore; lia | exact Hlast |].
    simpl. fold now. fold target. fold q. by rewrite Hloop.
  - intros fuel r Hnone Hrun.
    apply wait_request_result in Hrun as [_ (k & by_event & Hloop)].
    apply wait_loop_sound in Hloop as (Hk & _ & Hlast).
    exists k. split; [lia |].
    destruct by_event; [by apply Hnone in Hlast | apply Hlast].
Qed.

Lemma wait_for_event_deadline_witness :
  wait_target 1000 0 5 = 1000 + requested 0 5 /\
  ioExecute cc0 (board true (fun _ => false) (ticking 1000)) 6
            GLOBAL_WAITFOREVENT 0 5 idle = Some (0, idle).
Proof.
  pose proof (wait_for_event_deadline
                cc0 (board true (fun _ => false) (ticking 1000)) 0 5 idle)
    as Hwait.
  simpl in Hwait.
  destruct Hwait as (Hsum & _ & _ & _ & Hstop & _).
  - unfold in_int. lia.
  - unfold in_jlong, ticking. simpl. lia.
  - split.
    + apply Hsum. vm_compute. split; [reflexivity | discriminate].
    + apply (Hstop 5%nat 6%nat); [| lia]. split.
      * intros j Hj. split.
        -- unfold event_seen. vm_compute. congruence.
        -- unfold deadline_passed, ticking. simpl.
           change (wait_target (1000 + Z.of_nat 0) 0 5) with 1005. lia.
      * right. vm_compute. reflexivity.
Defined.

(** C4, counterexample: at clock 1000 a request of [- 2 ^ 32]
    milliseconds ([i1 = -1], [i2 = 0]) has a sum that does not overflow,
    yet the deadline is the largest 64-bit value, not that sum; with no
    event the request is still polling after 50 rounds, long after the
    clock has passed the sum. *)
Lemma wait_deadline_is_not_the_sum :
  millisecondsToWait (-1) 0 = - 2 ^ 32 /\
  in_jlong (1000 + millisecondsToWait (-1) 0) /\
  wait_target 1000 (-1) 0 = maxValue /\
  wait_target 1000 (-1) 0 <> 1000 + millisecondsToWait (-1) 0 /\
  ioExecute cc0 (board true (fun _ => false) (ticking 1000)) 50
            GLOBAL_WAITFOREVENT (-1) 0 idle = None.
Proof.
  split; [reflexivity |]. split; [unfold in_jlong; vm_compute; split; congruence |].
  split; [reflexivity |]. split; [vm_compute; congruence | reflexivity].
Qed.

(** Three requests on an idle queue get the numbers 1, 2 and 3. *)
Example three_requests_numbered :
  let up := board true (fun _ => false) (fun _ => 0) in
  ('(n1, st1) ← ioExecute cc0 up 0 SW_READ 10 0 idle;
   '(n2, st2) ← ioExecute cc0 up 0 SW_READ 20 0 st1;
   '(n3, st3) ← ioExecute cc0 up 0 SW_READ 30 0 st2;
   Some (n1, n2, n3, switchRequests st3)) =
  Some (1, 2, 3, [mkSwitchRequest 1 10; mkSwitchRequest 2 20;
                  mkSwitchRequest 3 30]).
Proof. reflexivity. Qed.

(** A wait of 5 ms from clock 1000, with no event, returns in the round
    whose clock reading is 1006. *)
Example wait_five_milliseconds :
  wait_loop (board true (fun _ => false) (ticking 1000)) []
            (wait_target 1000 0 5) 10 0 = Some (5%nat, false).
Proof. reflexivity. Qed.

End Eb40aIOFacts.

(** ** The registry of native buffers *)

Module BuffersFacts.
Import Machine Vm Util Buffers.

Lemma filter_split_length (buffer : Z) (l : list Z) :
  length (filter (fun b => b = buffer) l)
  + length (filter (fun b => b <> buffer) l) = length l.
Proof.
  induction l as [| b l IH]; [done |].
  rewrite !filter_cons. destruct (decide (b = buffer)) as [-> | Hne].
  - rewrite decide_False by (intros H; by apply H). simpl. lia.
  - rewrite decide_True by done. simpl. lia.
Qed.

Lemma filter_hits_replicate (buffer : Z) (l : list Z) :
  filter (fun b => b = buffer) l =
  replicate (length (filter (fun b => b = buffer) l)) buffer.
Proof.
  induction l as [| b l IH]; [done |].
  rewrite filter_cons. destruct (decide (b = buffer)) as [-> | Hne]; [| done].
  simpl. by f_equal.
Qed.

(** A list that holds [buffer] once splits around that occurrence. *)
Lemma single_occurrence_split (buffer : Z) (l : list Z) :
  length (filter (fun b => b = buffer) l) = 1 ->
  exists before after,
    l = before ++ buffer :: after /\
    filter (fun b => b <> buffer) l = before ++ after.
Proof.
  induction l as [| b l IH]; [done |].
  rewrite !filter_cons. destruct (decide (b = buffer)) as [-> | Hne].
  - simpl. intros [= Hlen]. exists [], l. split; [done |].
    rewrite decide_False by (intros H; by apply H). simpl.
    pose proof (filter_split_length buffer l) as Hsplit.
    rewrite Hlen in Hsplit. simpl in Hsplit.
    clear IH Hlen. induction l as [| c l IHl]; [done |].
    rewrite filter_cons in *. destruct (decide (c <> buffer)).
    + simpl in *. f_equal. apply IHl. lia.
    + pose proof (length_filter (fun b => b <> buffer) l). simpl in *. lia.
  - intros Hlen. destruct (IH Hlen) as (before & after & -> & Hkept).
    exists (b :: before), after. split; [done |].
    rewrite decide_True by done. simpl. by f_equal.
Qed.

(** The loop of [freeBuffer] packs the slots it keeps, in order, from
    index [insert] on, and frees each slot that holds [buffer]. *)
Lemma freeBuffer_loop_spec buffer n :
  forall i insert bufs freed,
    insert <= i -> i + n <= length bufs ->
    exists bufs',
      freeBuffer_loop buffer n i insert bufs freed =
        (bufs',
         insert + length (filter (fun b => b <> buffer) (take n (drop i bufs))),
         freed ++ filter (fun b => b = buffer) (take n (drop i bufs))) /\
      length bufs' = length bufs /\
      take (insert
            + length (filter (fun b => b <> buffer) (take n (drop i bufs))))
           bufs' =
        take insert bufs
        ++ filter (fun b => b <> buffer) (take n (drop i bufs)).
Proof.
  induction n as [| n IH]; intros i insert bufs freed Hins Hlen.
  - exists bufs. simpl. rewrite !Nat.add_0_r, !app_nil_r. done.
  - assert (Hi : is_Some (bufs !! i)) by (apply lookup_lt_is_Some; lia).
    destruct Hi as [b Hb].
    rewrite (drop_S _ _ _ Hb). simpl.
    rewrite (list_lookup_total_correct _ _ _ Hb).
    rewrite !filter_cons.
    destruct (decide (b = buffer)) as [-> | Hne].
    + rewrite decide_False by (intros H; by apply H).
      destruct (IH (S i) insert bufs (freed ++ [buffer]))
        as (bufs' & Hrun & Hlen' & Htake); [lia | lia |].
      exists bufs'. rewrite Hrun. by rewrite <- app_assoc.
    + rewrite decide_True by done.
      destruct (IH (S i) (S insert) (<[insert := b]> bufs) freed)
        as (bufs' & Hrun & Hlen' & Htake);
        [lia | rewrite length_insert; lia |].
      rewrite drop_insert_lt in Hrun, Htake by lia.
      rewrite length_insert in Hlen'.
      exists bufs'. rewrite Hrun. simpl.
      rewrite <- Nat.add_succ_comm. split; [done |]. split; [done |].
      rewrite Htake.
      rewrite (take_S_r _ _ b) by (apply list_lookup_insert_eq; lia).
      rewrite take_insert_ge by lia. by rewrite <- app_assoc.
Qed.

Lemma freeBuffer_spec buffer r :
  well_sized r ->
  exists bufs',
    freeBuffer_loop buffer (BufferCount r) 0 0 (Buffers r) [] =
      (bufs', length (filter (fun b => b <> buffer) (registered r)),
       filter (fun b => b = buffer) (registered r)) /\
    length bufs' = length (Buffers r) /\
    take (length (filter (fun b => b <> buffer) (registered r))) bufs' =
      filter (fun b => b <> buffer) (registered r).
Proof.
  intros [Hsize Hcount].
  destruct (freeBuffer_loop_spec buffer (BufferCount r) 0 0 (Buffers r) [])
    as (bufs' & Hrun & Hlen & Htake); [lia | lia |].
  exists bufs'. by rewrite Hrun.
Qed.

Lemma filter_absent (buffer : Z) (l : list Z) :
  buffer ∉ l ->
  filter (fun b => b = buffer) l = [] /\ filter (fun b => b <> buffer) l = l.
Proof.
  induction l as [| b l IH]; [done |].
  rewrite not_elem_of_cons. intros [Hne Hl].
  rewrite !filter_cons. destruct (IH Hl) as [-> ->].
  rewrite decide_False by done. by rewrite decide_True by done.
Qed.

Lemma registered_length r :
  well_sized r -> length (registered r) = BufferCount r.
Proof. intros [Hsize Hcount]. unfold registered. rewrite length_take. lia. Qed.

Lemma freeBuffer_registered_once buffer r :
  well_sized r -> occurrences buffer r = 1 ->
  exists r' before after,
    freeBuffer buffer r = Returns (r', [buffer]) /\
    well_sized r' /\
    S (BufferCount r') = BufferCount r /\
    registered r' = filter (fun b => b <> buffer) (registered r) /\
    registered r = before ++ buffer :: after /\
    registered r' = before ++ after.
Proof.
  intros Hwf Hone. pose proof Hwf as [Hsize Hcount].
  destruct (freeBuffer_spec buffer r Hwf) as (bufs' & Hrun & Hlen & Htake).
  pose proof (filter_split_length buffer (registered r)) as Hsplit.
  pose proof (registered_length r Hwf) as Hreg.
  unfold occurrences in Hone.
  destruct (single_occurrence_split buffer (registered r) Hone)
    as (before & after & Hsplit' & Hkept).
  exists (mkRegistry bufs'
            (length (filter (fun b => b <> buffer) (registered r)))),
    before, after.
  unfold freeBuffer. rewrite Hrun.
  rewrite decide_True by lia.
  rewrite (filter_hits_replicate buffer (registered r)), Hone.
  split; [done |]. split; [split; simpl; lia |].
  split; [simpl; lia |]. split; [exact Htake |].
  split; [exact Hsplit' |]. unfold registered at 1. simpl.
  by rewrite Htake.
Qed.

(** When [newBuffer] returns a buffer that is not null: the buffer is
    the allocator's answer, the assumption on it held, the block holds
    the bytes that were zeroed, the registry had room, and the buffer
    went into the first free slot.  And conversely. *)
Lemma newBuffer_returns ASSUME HDR_BYTES_PER_WORD pageSize valloc size
    fatalIfFail r buffer r1 :
  buffer <> 0%Z ->
  newBuffer ASSUME HDR_BYTES_PER_WORD pageSize valloc size fatalIfFail r =
    Returns (buffer, r1) <->
  buffer = valloc (page_rounded pageSize size) /\
  (ASSUME = true -> isWordAligned HDR_BYTES_PER_WORD (to_uint buffer) = true) /\
  (to_uint (to_int size) <= to_uint (page_rounded pageSize size))%Z /\
  BufferCount r < MAX_BUFFERS /\
  r1 = mkRegistry (<[BufferCount r := buffer]> (Buffers r)) (S (BufferCount r)).
Proof.
  intros Hnonnull. unfold newBuffer, assume.
  set (b := valloc (page_rounded pageSize size)).
  destruct ASSUME, (isWordAligned HDR_BYTES_PER_WORD (to_uint b)) eqn:Hal;
    simpl.
  all: try (split; [done | intros (-> & Ha & _); fold b in Hal;
                            specialize (Ha eq_refl); congruence]).
  all: destruct (decide (b = 0%Z)) as [Hb | Hb].
  all: try (split; [destruct fatalIfFail; intros [= <- _]; done
                   | intros (-> & _); done]).
  all: destruct (decide (to_uint (page_rounded pageSize size)
                         < to_uint (to_int size))%Z);
    [split; [done | intros (_ & _ & ? & _); lia] |].
  all: destruct (decide (MAX_BUFFERS <= BufferCount r));
    [split; [done | intros (_ & _ & _ & ? & _); lia] |].
  all: split; [intros [= <- <-]; repeat split; (done || lia)
              | intros (-> & _ & _ & _ & ->); done].
Qed.

Lemma registered_after_newBuffer buffer r :
  well_sized r -> BufferCount r < MAX_BUFFERS ->
  let r1 := mkRegistry (<[BufferCount r := buffer]> (Buffers r))
                       (S (BufferCount r)) in
  well_sized r1 /\ registered r1 = registered r ++ [buffer].
Proof.
  intros [Hsize Hcount] Hroom r1. split.
  - split; simpl; [rewrite length_insert; lia | lia].
  - unfold registered, r1. simpl.
    rewrite (take_S_r _ _ buffer) by (apply list_lookup_insert_eq; lia).
    by rewrite take_insert_ge by lia.
Qed.

(** C5: releasing a buffer that is registered exactly once frees it
    once and removes exactly that entry, the others keeping their order
    and the count going down by one.  Releasing a buffer that is
    registered zero times or more than once ends in the fatal error
    "buffer not in Buffers exactly once".  A buffer that [newBuffer]
    has just returned, and that was not registered before, is
    registered last, and its release leaves the registry as it was
    before the allocation. *)
Theorem freeBuffer_exactly_once buffer r :
  well_sized r ->
  (occurrences buffer r = 1 ->
   exists r' before after,
     freeBuffer buffer r = Returns (r', [buffer]) /\
     well_sized r' /\
     S (BufferCount r') = BufferCount r /\
     registered r' = filter (fun b => b <> buffer) (registered r) /\
     registered r = before ++ buffer :: after /\
     registered r' = before ++ after) /\
  (occurrences buffer r <> 1 ->
   freeBuffer buffer r = FatalVMError "buffer not in Buffers exactly once") /\
  (forall ASSUME HDR_BYTES_PER_WORD pageSize valloc size fatalIfFail r1,
     newBuffer ASSUME HDR_BYTES_PER_WORD pageSize valloc size fatalIfFail r =
       Returns (buffer, r1) ->
     buffer <> 0%Z -> buffer ∉ registered r ->
     registered r1 = registered r ++ [buffer] /\
     BufferCount r1 = S (BufferCount r) /\
     exists r2,
       freeBuffer buffer r1 = Returns (r2, [buffer]) /\
       registered r2 = registered r /\
       BufferCount r2 = BufferCount r).
Proof.
  intros Hwf. pose proof Hwf as [Hsize Hcount].
  split; [by apply freeBuffer_registered_once |]. split.
  - destruct (freeBuffer_spec buffer r Hwf) as (bufs' & Hrun & Hlen & Htake).
    pose proof (filter_split_length buffer (registered r)) as Hsplit.
    pose proof (registered_length r Hwf) as Hreg.
    unfold occurrences. intros Hnot. unfold freeBuffer. rewrite Hrun.
    by rewrite decide_False by lia.
  - intros ASSUME HDR_BYTES_PER_WORD pageSize valloc size fatalIfFail r1
      Hnew Hnonnull Hfresh.
    apply newBuffer_returns in Hnew as (_ & _ & _ & Hroom & ->);
      [| exact Hnonnull].
    destruct (registered_after_newBuffer buffer r Hwf Hroom) as [Hwf1 Hreg1].
    set (r1 := mkRegistry (<[BufferCount r := buffer]> (Buffers r))
                          (S (BufferCount r))) in *.
    destruct (filter_absent buffer (registered r) Hfresh) as [Hnone Hall].
    assert (Hone : occurrences buffer r1 = 1).
    { unfold occurrences. rewrite Hreg1, filter_app, length_app, Hnone.
      by rewrite filter_cons, decide_True by done. }
    destruct (freeBuffer_registered_once buffer r1 Hwf1 Hone)
      as (r2 & before & after & Hfree & Hwf2 & Hcount2 & Hreg2 & _).
    split; [exact Hreg1 |]. split; [done |].
    exists r2. split; [exact Hfree |]. split.
    + rewrite Hreg2, Hreg1, filter_app, Hall.
      rewrite filter_cons, decide_False by (intros H; by apply H).
      by rewrite app_nil_r.
    + simpl in Hcount2. lia.
Qed.

Lemma freeBuffer_exactly_once_witness :
  (exists r' before after,
     freeBuffer 4096 two_buffers = Returns (r', [4096%Z]) /\
     well_sized r' /\
     S (BufferCount r') = BufferCount two_buffers /\
     registered r' = filter (fun b => b <> 4096%Z) (registered two_buffers) /\
     registered two_buffers = before ++ 4096%Z :: after /\
     registered r' = before ++ after) /\
  freeBuffer 12288 two_buffers =
    FatalVMError "buffer not in Buffers exactly once" /\
  (exists r1 r2,
     newBuffer true 4 4096 (fun _ => 12288%Z) 5000 true two_buffers =
       Returns (12288%Z, r1) /\
     registered r1 = registered two_buffers ++ [12288%Z] /\
     freeBuffer 12288 r1 = Returns (r2, [12288%Z]) /\
     registered r2 = registered two_buffers).
Proof.
  assert (Hwf : well_sized two_buffers).
  { split; [reflexivity | vm_compute; lia]. }
  split; [| split].
  - apply (proj1 (freeBuffer_exactly_once 4096 two_buffers Hwf)).
    reflexivity.
  - apply (proj1 (proj2 (freeBuffer_exactly_once 12288 two_buffers Hwf))).
    vm_compute. discriminate.
  - eexists.
    destruct (proj2 (proj2 (freeBuffer_exactly_once 12288 two_buffers Hwf))
                true 4%Z 4096%Z (fun _ => 12288%Z) 5000%Z true _ eq_refl)
      as (Hreg & _ & r2 & Hfree & Hreg2 & _).
    + discriminate.
    + vm_compute. intros Hin.
      repeat (apply elem_of_cons in Hin as [Hin | Hin]; [discriminate |]).
      by apply elem_of_nil in Hin.
    + exists r2. split; [reflexivity |]. split; [exact Hreg |].
      split; [exact Hfree | exact Hreg2].
Defined.

(** What [newBuffer] does with the allocator's answer before it
    registers it: an answer that is not word aligned fails the
    assumption where assumptions are checked; a request within one
    page of [2^32] asks the allocator for 0 bytes, and the bytes zeroed
    do not fit the block; a null answer ends the VM or is returned. *)
Example newBuffer_unaligned :
  newBuffer true 4 4096 (fun _ => 12289%Z) 5000 true two_buffers =
    FatalVMError "" /\
  newBuffer true 4 4096 (fun _ => 12288%Z) (2 ^ 32 - 1) true two_buffers =
    WritesPastEnd /\
  newBuffer true 4 4096 (fun _ => 0%Z) 5000 true two_buffers = Exits 1 /\
  newBuffer true 4 4096 (fun _ => 0%Z) 5000 false two_buffers =
    Returns (0%Z, two_buffers).
Proof. repeat split; vm_compute; reflexivity. Qed.

(** With an allocator that refuses a request of [2^31] bytes or more,
    which reaches it as a negative [int], a size of [2^31] ends the VM
    or returns null. *)
Example newBuffer_two_gigabytes :
  let valloc := fun n => if (n <? 0)%Z then 0%Z else 12288%Z in
  newBuffer true 4 4096 valloc (2 ^ 31) true two_buffers = Exits 1 /\
  newBuffer true 4 4096 valloc (2 ^ 31) false two_buffers =
    Returns (0%Z, two_buffers).
Proof. split; vm_compute; reflexivity. Qed.

(** A buffer registered twice is freed twice before the error shows. *)
Example freeBuffer_registered_twice :
  freeBuffer 4096 (mkRegistry [4096; 4096; 0; 0; 0; 0; 0; 0; 0; 0]%Z 2) =
    FatalVMError "buffer not in Buffers exactly once" /\
  freeBuffer_loop 4096 2 0 0 [4096; 4096; 0; 0; 0; 0; 0; 0; 0; 0]%Z [] =
    ([4096; 4096; 0; 0; 0; 0; 0; 0; 0; 0]%Z, 0, [4096; 4096]%Z).
Proof. split; reflexivity. Qed.

(** The eleventh buffer does not fit. *)
Example newBuffer_registry_full :
  newBuffer true 4 4 (fun _ => 8192%Z) 10 true
            (mkRegistry (replicate 10 4096%Z) 10) =
    FatalVMError "exceeded MAX_BUFFERS allocations".
Proof. reflexivity. Qed.

End BuffersFacts.

(** ** Breakpoints *)

Module DebugFacts.
Import Machine MachineFacts Vm Debug.
Local Open Scope Z_scope.

Lemma active_cons a table :
  active (a :: table) = if decide (a = 0) then active table else a :: active table.
Proof.
  unfold active. rewrite filter_cons.
  destruct (decide (a = 0)) as [-> | Hne].
  - by rewrite decide_False by (intros H; by apply H).
  - by rewrite decide_True by done.
Qed.

Lemma active_length table : (length (active table) <= length table)%nat.
Proof. apply length_filter. Qed.

Lemma regenerate_copy_spec n :
  forall i j table ips,
    (j <= i)%nat -> (i + n <= length table)%nat ->
    (length table < length ips)%nat ->
    let seg := active (take n (drop i table)) in
    regenerate_copy n i j table ips =
      (take j ips ++ (next_ip <$> seg) ++ drop (j + length seg) ips,
       (j + length seg)%nat).
Proof.
  induction n as [| n IH]; intros i j table ips Hj Hi Hlen; simpl.
  - rewrite Nat.add_0_r. by rewrite take_drop.
  - assert (Ha : is_Some (table !! i)) by (apply lookup_lt_is_Some; lia).
    destruct Ha as [a Ha].
    rewrite (drop_S _ _ _ Ha). simpl.
    rewrite (list_lookup_total_correct _ _ _ Ha), active_cons.
    destruct (decide (a = 0)) as [-> | Hne].
    + apply IH; lia.
    + rewrite IH by (rewrite ?length_insert; lia). simpl.
      rewrite (take_S_r _ _ (to_uint (a + 1)))
        by (apply list_lookup_insert_eq; lia).
      rewrite take_insert_ge, drop_insert_lt by lia.
      rewrite <- app_assoc. simpl. by rewrite Nat.add_succ_r.
Qed.

Lemma regenerate_clear_spec (n : nat) :
  forall (i : nat) (ips : list Z),
    (i + n <= length ips)%nat ->
    regenerate_clear n i ips = take i ips ++ replicate n 0 ++ drop (i + n) ips.
Proof.
  induction n as [| n IH]; intros i ips Hlen; simpl.
  - rewrite Nat.add_0_r. by rewrite take_drop.
  - rewrite IH by (rewrite length_insert; lia).
    rewrite (take_S_r _ _ 0) by (apply list_lookup_insert_eq; lia).
    rewrite take_insert_ge, drop_insert_lt by lia.
    rewrite <- app_assoc. simpl. by rewrite Nat.add_succ_r.
Qed.

(** Regeneration rewrites the first [DB_MAX_BPS] slots from the table
    and leaves the last slot alone. *)
Lemma db_regenerate_current_ips_spec st :
  sized st ->
  let table := db_bp_table st in
  db_regenerate_current_ips st =
    mkDbState (db_debug_enabled st) (db_bp_set st) table
      ((next_ip <$> active table)
       ++ replicate (DB_MAX_BPS - length (active table)) 0
       ++ drop DB_MAX_BPS (db_current_ips st))
      (db_sent st).
Proof.
  intros [Htable Hips] table. unfold db_regenerate_current_ips.
  pose proof (active_length table) as Hact. fold table in Htable.
  rewrite regenerate_copy_spec by (fold table; lia).
  fold table. rewrite drop_0, <- Htable, firstn_all. simpl.
  set (m := next_ip <$> active table).
  assert (Hm : length m = length (active table)) by apply length_fmap.
  rewrite regenerate_clear_spec.
  2: { rewrite length_app, length_drop. lia. }
  rewrite <- Hm at 1. rewrite take_app_length.
  rewrite drop_app_ge by lia. rewrite drop_drop.
  do 5 f_equal. lia.
Qed.

Lemma packed_length table :
  length table = DB_MAX_BPS -> length (packed table) = S DB_MAX_BPS.
Proof.
  intros Hlen. pose proof (active_length table). unfold packed.
  rewrite length_app, length_fmap, length_replicate. lia.
Qed.

Lemma packed_last table :
  length table = DB_MAX_BPS -> drop DB_MAX_BPS (packed table) = [0].
Proof.
  intros Hlen. pose proof (active_length table). unfold packed.
  rewrite drop_app_ge by (rewrite length_fmap; lia).
  rewrite drop_replicate, length_fmap.
  by replace (S DB_MAX_BPS - length (active table)
              - (DB_MAX_BPS - length (active table)))%nat with 1%nat by lia.
Qed.

Lemma packed_ends table tail :
  length table = DB_MAX_BPS -> tail = [0] ->
  (next_ip <$> active table)
  ++ replicate (DB_MAX_BPS - length (active table)) 0 ++ tail = packed table.
Proof.
  intros Hlen ->. pose proof (active_length table). unfold packed.
  rewrite <- replicate_S_end. do 2 f_equal. lia.
Qed.

Lemma packed_has_sentinel table :
  length table = DB_MAX_BPS -> has_sentinel (packed table).
Proof.
  intros Hlen. pose proof (active_length table) as Hact.
  exists (length (active table)). split; [lia |]. unfold packed. split.
  - rewrite lookup_app_r by (rewrite length_fmap; lia).
    rewrite length_fmap, Nat.sub_diag. apply lookup_replicate_2. lia.
  - intros i v Hi Hv.
    destruct (Nat.lt_ge_cases i (length (active table))) as [Hlt | Hge];
      [exact Hlt |].
    rewrite lookup_app_r in Hi by (rewrite length_fmap; lia).
    apply lookup_replicate_1 in Hi as [-> _]. done.
Qed.

(** A consistent state stays consistent when its table is replaced and
    the array is regenerated. *)
Lemma regenerate_consistent st bp_set table :
  consistent st -> length table = DB_MAX_BPS ->
  let st' :=
    db_regenerate_current_ips
      (mkDbState (db_debug_enabled st) bp_set table (db_current_ips st)
                 (db_sent st)) in
  consistent st' /\ db_bp_table st' = table /\ db_bp_set st' = bp_set
  /\ db_debug_enabled st' = db_debug_enabled st.
Proof.
  intros [[Htable Hips] Hpacked] Hlen st'. subst st'.
  rewrite db_regenerate_current_ips_spec by (split; simpl; done).
  simpl. repeat split; simpl; try done.
  - rewrite length_app, length_app, length_fmap, length_replicate, length_drop.
    pose proof (active_length table). lia.
  - apply packed_ends; [done |]. rewrite Hpacked. by apply packed_last.
Qed.

Lemma db_process_break_cmd_consistent bd ops mem subcmd bpnum addr st :
  consistent st ->
  match db_process_break_cmd bd ops mem subcmd bpnum addr st with
  | Returns st' =>
      consistent st' /\ db_debug_enabled st' = db_debug_enabled st
  | Exits _ => True
  | _ => False
  end.
Proof.
  intros Hst. pose proof Hst as [[Htable Hips] Hpacked].
  unfold db_process_break_cmd.
  destruct (decide (bpnum < 0 \/ Z.of_nat DB_MAX_BPS <= bpnum)); [done |].
  destruct (decide (subcmd = "S"%char)).
  { match goal with
    | |- context [mkDbState _ ?b ?t _ _] =>
        destruct (regenerate_consistent st b t Hst) as (? & _ & _ & ?)
    end; [by rewrite length_insert | done]. }
  destruct (decide (subcmd = "C"%char)); [| done].
  match goal with
  | |- context [mkDbState _ ?b ?t _ _] =>
      destruct (regenerate_consistent st b t Hst) as (? & _ & _ & ?)
  end; [by rewrite length_insert | done].
Qed.

Lemma db_process_data_cmd_consistent line st :
  consistent st ->
  match db_process_data_cmd line st with
  | Returns st' =>
      consistent st' /\ db_debug_enabled st' = db_debug_enabled st
  | Exits _ => True
  | _ => False
  end.
Proof.
  intros Hst. unfold db_process_data_cmd.
  repeat case_decide; done.
Qed.

Lemma client_loop_consistent bd ops mem input :
  forall held st,
    consistent st ->
    match client_loop bd ops mem held input st with
    | Returns (st', _) =>
        consistent st' /\ db_debug_enabled st' = db_debug_enabled st
    | Exits _ => True
    | _ => False
    end.
Proof.
  induction input as [| line rest IH]; intros held st Hst; simpl; [done |].
  repeat case_decide; try done.
  - pose proof (db_process_break_cmd_consistent
                  bd ops mem (subcmd line) (num1 line) (num2 line) st Hst) as Hb.
    destruct (db_process_break_cmd bd ops mem (subcmd line) (num1 line)
                                   (num2 line) st) as [st1 | | | |];
      simpl; try done.
    destruct Hb as [Hst1 Hen].
    match goal with
    | |- context [client_loop _ _ _ ?h rest st1] =>
        specialize (IH h st1 Hst1);
        destruct (client_loop bd ops mem h rest st1) as [[st2 r] | | | |]
    end; try done.
    destruct IH. split; [done | congruence].
  - pose proof (db_process_data_cmd_consistent line st Hst) as Hd.
    destruct (db_process_data_cmd line st) as [st1 | | | |]; simpl; try done.
    destruct Hd as [Hst1 Hen].
    match goal with
    | |- context [client_loop _ _ _ ?h rest st1] =>
        specialize (IH h st1 Hst1);
        destruct (client_loop bd ops mem h rest st1) as [[st2 r] | | | |]
    end; try done.
    destruct IH. split; [done | congruence].
Qed.

Lemma db_process_client_commands_consistent bd ops mem input st :
  consistent st ->
  match db_process_client_commands bd ops mem input st with
  | Returns (st', _) =>
      consistent st' /\ db_debug_enabled st' = db_debug_enabled st
  | Exits _ => True
  | _ => False
  end.
Proof. apply client_loop_consistent. Qed.

Lemma prepare_loop_spec (n : nat) :
  forall (i : nat) (table ips : list Z),
    (i + n <= length table)%nat -> (i + n <= length ips)%nat ->
    prepare_loop n i table ips =
      (take i table ++ replicate n 0 ++ drop (i + n) table,
       take i ips ++ replicate n 0 ++ drop (i + n) ips).
Proof.
  induction n as [| n IH]; intros i table ips Ht Hi; simpl.
  - rewrite Nat.add_0_r. by rewrite !take_drop.
  - rewrite IH by (rewrite length_insert; lia).
    rewrite !(take_S_r _ _ 0) by (apply list_lookup_insert_eq; lia).
    rewrite !take_insert_ge, !drop_insert_lt by lia.
    rewrite <- !app_assoc. simpl. by rewrite Nat.add_succ_r.
Qed.

Lemma db_reset_spec st :
  sized st ->
  db_reset st =
    mkDbState (db_debug_enabled st) false (replicate DB_MAX_BPS 0)
              (replicate (S DB_MAX_BPS) 0) (db_sent st).
Proof.
  intros [Htable Hips]. unfold db_reset.
  rewrite prepare_loop_spec by lia.
  change (0 + DB_MAX_BPS)%nat with DB_MAX_BPS. rewrite !take_0, !app_nil_l.
  rewrite (drop_ge (db_bp_table st)) by lia. rewrite app_nil_r.
  f_equal. rewrite replicate_S_end.
  assert (Hlast : is_Some (db_current_ips st !! DB_MAX_BPS))
    by (apply lookup_lt_is_Some; lia).
  destruct Hlast as [x Hx].
  rewrite (drop_S _ _ _ Hx), drop_ge by lia.
  rewrite insert_app_r_alt by (rewrite length_replicate; lia).
  by rewrite length_replicate, Nat.sub_diag.
Qed.

Lemma db_reset_consistent st : sized st -> consistent (db_reset st).
Proof.
  intros Hst. rewrite db_reset_spec by done. split; [by split |]. done.
Qed.

Lemma db_prepare_consistent bd ops mem input st0 st rest :
  sized st0 -> db_prepare bd ops mem input st0 = Returns (st, rest) ->
  db_debug_enabled st0 = true -> consistent st.
Proof.
  intros Hst0 Hrun Hen. unfold db_prepare in Hrun. rewrite Hen in Hrun.
  pose proof (db_process_client_commands_consistent bd ops mem input
                (db_send_ready (db_reset st0))) as Hc.
  rewrite Hrun in Hc. apply Hc.
  destruct (db_reset_consistent st0 Hst0) as [Hs Hp]. by split.
Qed.

Lemma checkBreak_loop_step bd ops mem fuel i actual_ip input st :
  checkBreak_loop bd ops mem (S fuel) i actual_ip input st =
    match db_current_ips st !! i with
    | None => ReadsPastEnd
    | Some bp_ip =>
        if decide (bp_ip = 0) then Returns (st, input)
        else if decide (bp_ip = actual_ip) then
          match find_breakpoint DB_MAX_BPS 0 (db_bp_table st) actual_ip with
          | Some j =>
              bind (db_process_client_commands bd ops mem input
                      (db_send_bp_hit j st))
                   (fun '(st', input') =>
                      checkBreak_loop bd ops mem fuel (S i) actual_ip input' st')
          | None => checkBreak_loop bd ops mem fuel (S i) actual_ip input st
          end
        else checkBreak_loop bd ops mem fuel (S i) actual_ip input st
    end.
Proof. reflexivity. Qed.

(** From slot [i] on, with fuel for the slots that remain, the scan of a
    consistent state returns or exits; it never reads past the array. *)
Lemma checkBreak_loop_in_bounds bd ops mem fuel :
  forall i actual_ip input st,
    consistent st -> (i <= DB_MAX_BPS)%nat -> (DB_MAX_BPS < i + fuel)%nat ->
    match checkBreak_loop bd ops mem fuel i actual_ip input st with
    | Returns (st', _) => consistent st'
    | Exits _ => True
    | _ => False
    end.
Proof.
  induction fuel as [| fuel IH]; intros i actual_ip input st Hst Hi Hfuel;
    [lia |].
  pose proof Hst as [[Htable Hips] Hpacked]. rewrite checkBreak_loop_step.
  assert (Hslot : is_Some (db_current_ips st !! i))
    by (apply lookup_lt_is_Some; lia).
  destruct Hslot as [bp_ip Hbp]. rewrite Hbp.
  destruct (decide (bp_ip = 0)) as [-> | Hnz]; [done |].
  assert (Hlt : (i < DB_MAX_BPS)%nat).
  { destruct (decide (i = DB_MAX_BPS)) as [-> | Hne]; [| lia].
    pose proof (packed_last (db_bp_table st) Htable) as Hlast.
    rewrite <- Hpacked in Hlast.
    rewrite (drop_S _ _ _ Hbp) in Hlast. congruence. }
  destruct (decide (bp_ip = actual_ip)) as [-> | Hother];
    [| apply IH; [done | lia | lia]].
  destruct (find_breakpoint DB_MAX_BPS 0 (db_bp_table st) actual_ip)
    as [j |]; [| apply IH; [done | lia | lia]].
  pose proof (db_process_client_commands_consistent bd ops mem input
                (db_send_bp_hit j st)) as Hc.
  destruct (db_process_client_commands bd ops mem input (db_send_bp_hit j st))
    as [[st' input'] | | | |]; simpl; try (apply Hc; by split).
  apply IH; [| lia | lia]. apply Hc. by split.
Qed.

Lemma db_checkBreak_consistent bd ops mem actual_ip input st :
  consistent st ->
  match db_checkBreak bd ops mem actual_ip input st with
  | Returns (st', _) => consistent st'
  | Exits _ => True
  | _ => False
  end.
Proof.
  intros Hst. unfold db_checkBreak.
  destruct (db_debug_enabled st); [| done].
  destruct (db_bp_set st); [| done].
  apply checkBreak_loop_in_bounds; [done | lia | unfold DB_MAX_BPS; lia].
Qed.

Lemma reachable_consistent bd ops mem st : reachable bd ops mem st -> consistent st.
Proof.
  induction 1 as [st0 input st rest Hst0 Hen Hrun
                 | st actual_ip input st' rest _ IH Hrun].
  - by eapply db_prepare_consistent.
  - pose proof (db_checkBreak_consistent bd ops mem actual_ip input st IH) as Hc.
    by rewrite Hrun in Hc.
Qed.

Lemma db_process_break_cmds_consistent bd ops mem cmds :
  forall st st',
    consistent st -> db_process_break_cmds bd ops mem cmds st = Returns st' ->
    consistent st'.
Proof.
  induction cmds as [| [[subcmd bpnum] addr] cmds IH]; intros st st' Hst Hrun.
  - simpl in Hrun. congruence.
  - simpl in Hrun.
    pose proof (db_process_break_cmd_consistent bd ops mem subcmd bpnum addr st
                  Hst) as Hc.
    destruct (db_process_break_cmd bd ops mem subcmd bpnum addr st) as [st1 | | | |];
      simpl in Hrun; try done.
    eapply IH; [apply Hc | exact Hrun].
Qed.

(** A non-zero value is in the packed array exactly when it is the
    entry of an active breakpoint. *)
Lemma elem_of_packed table v :
  v <> 0 ->
  v ∈ packed table <-> exists a, a ∈ table /\ a <> 0 /\ v = next_ip a.
Proof.
  intros Hv. unfold packed, active.
  rewrite elem_of_app, list_elem_of_fmap, elem_of_replicate. split.
  - intros [(a & -> & Ha) | [-> _]]; [| done].
    apply list_elem_of_filter in Ha as [Hnz Ha]. by exists a.
  - intros (a & Ha & Hnz & ->). left. exists a. split; [done |].
    by apply list_elem_of_filter.
Qed.

(** C6: after the reset of [db_prepare] and any run of set and clear
    commands, and in every state the VM reaches between instructions, the
    fast-lookup array is the list of [addr + 1] for the non-zero slots
    [addr] of the breakpoint table, in slot order from index 0, followed
    by zeros only; so its non-zero values are exactly those entries. *)
Theorem fast_lookup_matches_table bd ops mem :
  (forall st0 cmds st,
     sized st0 ->
     db_process_break_cmds bd ops mem cmds (db_reset st0) = Returns st ->
     db_current_ips st = packed (db_bp_table st) /\
     forall v, v <> 0 ->
       v ∈ db_current_ips st <->
       exists a, a ∈ db_bp_table st /\ a <> 0 /\ v = next_ip a) /\
  (forall st,
     reachable bd ops mem st ->
     db_current_ips st = packed (db_bp_table st) /\
     forall v, v <> 0 ->
       v ∈ db_current_ips st <->
       exists a, a ∈ db_bp_table st /\ a <> 0 /\ v = next_ip a).
Proof.
  split.
  - intros st0 cmds st Hst0 Hrun.
    assert (Hc : consistent st).
    { eapply db_process_break_cmds_consistent; [| exact Hrun].
      by apply db_reset_consistent. }
    destruct Hc as [_ Hp]. split; [exact Hp |].
    intros v Hv. rewrite Hp. by apply elem_of_packed.
  - intros st Hst. apply reachable_consistent in Hst as [_ Hp].
    split; [exact Hp |]. intros v Hv. rewrite Hp. by apply elem_of_packed.
Qed.

Lemma fast_lookup_matches_table_witness :
  db_process_break_cmds unsigned_unharmed ops0 mem0 some_commands (db_reset db_startup) =
    Returns after_commands /\
  db_current_ips after_commands = packed (db_bp_table after_commands).
Proof.
  assert (Hrun : db_process_break_cmds unsigned_unharmed ops0 mem0 some_commands
                   (db_reset db_startup) = Returns after_commands)
    by (vm_compute; reflexivity).
  split; [exact Hrun |].
  assert (Hsized : sized db_startup) by (split; reflexivity).
  exact (proj1 (proj1 (fast_lookup_matches_table unsigned_unharmed ops0 mem0)
                      db_startup _ _ Hsized Hrun)).
Defined.





(** C9: once [db_prepare] has reset the arrays, and in every state the
    VM reaches between instructions afterwards, whatever commands were
    handled, the fast-lookup array has a zero at an index no greater
    than [DB_MAX_BPS] with every non-zero entry before it; every
    regeneration by a break command keeps it so; and the scan of
    [db_checkBreak] returns or exits the process, it never reads past
    the end of the array, also when commands handled at a hit rewrite the
    array under it. *)
Theorem fast_scan_stops_at_sentinel bd ops mem :
  (forall st0, sized st0 -> has_sentinel (db_current_ips (db_reset st0))) /\
  (forall st,
     reachable bd ops mem st ->
     has_sentinel (db_current_ips st) /\
     (forall subcmd bpnum addr st',
        db_process_break_cmd bd ops mem subcmd bpnum addr st = Returns st' ->
        has_sentinel (db_current_ips st')) /\
     (forall actual_ip input,
        db_checkBreak bd ops mem actual_ip input st <> ReadsPastEnd /\
        match db_checkBreak bd ops mem actual_ip input st with
        | Returns (st', _) => has_sentinel (db_current_ips st')
        | Exits _ => True
        | FatalVMError _ | ReadsPastEnd | WritesPastEnd => False
        end)).
Proof.
  split.
  - intros st0 Hst0. destruct (db_reset_consistent st0 Hst0) as [[Ht _] Hp].
    rewrite Hp. by apply packed_has_sentinel.
  - intros st Hreach. apply reachable_consistent in Hreach as Hst.
    pose proof Hst as [[Ht _] Hp]. split; [| split].
    + rewrite Hp. by apply packed_has_sentinel.
    + intros subcmd bpnum addr st' Hrun.
      pose proof (db_process_break_cmd_consistent bd ops mem subcmd bpnum addr st
                    Hst) as Hc.
      rewrite Hrun in Hc. destruct Hc as [[[Ht' _] Hp'] _].
      rewrite Hp'. by apply packed_has_sentinel.
    + intros actual_ip input.
      pose proof (db_checkBreak_consistent bd ops mem actual_ip input st Hst)
        as Hc.
      destruct (db_checkBreak bd ops mem actual_ip input st)
        as [[st' rest] | | | |]; try done.
      split; [done |]. destruct Hc as [[Ht' _] Hp'].
      rewrite Hp'. by apply packed_has_sentinel.
Qed.

Lemma fast_scan_stops_at_sentinel_witness :
  has_sentinel (db_current_ips one_breakpoint) /\
  db_checkBreak unsigned_unharmed ops0 mem0 101
    [line "B" "S" 1 300; line "C" "-" 0 0] one_breakpoint <> ReadsPastEnd /\
  has_sentinel (db_current_ips no_breakpoint) /\
  db_checkBreak signed_cleared ops0 mem0 101 [line "C" "-" 0 0] no_breakpoint
    <> ReadsPastEnd.
Proof.
  assert (Hreach : reachable unsigned_unharmed ops0 mem0 one_breakpoint).
  { apply (reachable_prepare unsigned_unharmed ops0 mem0 db_startup
             [line "B" "S" 0 100; line "C" "-" 0 0] one_breakpoint []).
    - split; reflexivity.
    - reflexivity.
    - vm_compute. reflexivity. }
  assert (Hreach' : reachable signed_cleared ops0 mem0 no_breakpoint).
  { apply (reachable_prepare signed_cleared ops0 mem0 db_startup
             [line "C" "-" 0 0] no_breakpoint []).
    - split; reflexivity.
    - reflexivity.
    - vm_compute. reflexivity. }
  destruct (proj2 (fast_scan_stops_at_sentinel unsigned_unharmed ops0 mem0)
                  one_breakpoint Hreach) as (Hsent & _ & Hscan).
  destruct (proj2 (fast_scan_stops_at_sentinel signed_cleared ops0 mem0)
                  no_breakpoint Hreach') as (Hsent' & _ & Hscan').
  split; [exact Hsent |]. split.
  { exact (proj1 (Hscan 101 [line "B" "S" 1 300; line "C" "-" 0 0])). }
  split; [exact Hsent' |].
  exact (proj1 (Hscan' 101 [line "C" "-" 0 0])).
Defined.

(** A hit on the breakpoint at 100: the check runs with [ip] already
    past the opcode byte, reports slot 0 and handles the client's
    commands, here a set command for slot 1 and a continue. *)
Example db_checkBreak_hit :
  db_checkBreak unsigned_unharmed ops0 mem0 101 [line "B" "S" 1 300; line "C" "-" 0 0]
                one_breakpoint =
    Returns (mkDbState true true ([100; 302] ++ replicate 18 0)
                       ([101; 303] ++ replicate 19 0) [MsgReady; MsgHit 0],
             []).
Proof. vm_compute. reflexivity. Qed.

(** The same hit in a build where the terminator written past [hdr]
    clears [format]: the set command is handled, the continue command
    is then taken for a break command, and the process exits. *)
Example db_checkBreak_hit_format_cleared :
  db_checkBreak signed_cleared ops0 mem0 101
                [line "B" "S" 1 300; line "C" "-" 0 0] one_breakpoint =
    Exits (-1).
Proof. vm_compute. reflexivity. Qed.

(** Clearing the only breakpoint resets [db_bp_set] and empties the
    fast-lookup array. *)
Example clear_last_breakpoint :
  db_process_break_cmd unsigned_unharmed ops0 mem0 "C" 0 0 one_breakpoint =
    Returns (mkDbState true false (replicate 20 0) (replicate 21 0)
                       [MsgReady]).
Proof. vm_compute. reflexivity. Qed.

(** A breakpoint number out of range ends the process. *)
Example breakpoint_number_out_of_range :
  db_process_break_cmd unsigned_unharmed ops0 mem0 "S" 20 100 one_breakpoint = Exits (-1).
Proof. reflexivity. Qed.

End DebugFacts.

(** ** The copy-bytes operation *)

Module CioFacts.
Import Machine Vm Util Cio.
Local Open Scope Z_scope.




End CioFacts.

(** ** The instruction decoder *)

Module TraceFacts.
Import Machine MachineFacts Trace.
Local Open Scope Z_scope.

Lemma getUByte_range mem a : 0 <= getUByte mem a < 256.
Proof.
  unfold getUByte. change 255 with (Z.ones 8).
  rewrite Z.land_ones by lia. apply Z.mod_pos_bound. lia.
Qed.

Lemma lor_high_byte hi b :
  0 <= b < 256 -> Z.lor (hi * 256) b = hi * 256 + b.
Proof.
  intros Hb.
  pose proof (lor_shiftl_low hi b 8 ltac:(lia) ltac:(lia)) as H.
  rewrite Z.shiftl_mul_pow2 in H by lia. exact H.
Qed.

Lemma wide_m1_bits b :
  0 <= b < 256 ->
  to_uint (to_int (Z.lor 0xFFFFFF00 b)) = Z.lor 0xFFFFFF00 b /\
  Z.lor 0xFFFFFF00 b = 0xFFFFFF00 + b /\
  to_int (Z.lor 0xFFFFFF00 b) = b - 256.
Proof.
  intros Hb. change 0xFFFFFF00 with (0xFFFFFF * 256).
  rewrite lor_high_byte by done.
  unfold to_uint, to_int, wrap_unsigned, wrap_signed.
  rewrite Zminus_mod_idemp_l.
  replace (16777215 * 256 + b + 2 ^ (32 - 1) - 2 ^ (32 - 1))
    with (16777215 * 256 + b) by lia.
  rewrite (Z.mod_small (16777215 * 256 + b)) by lia.
  split; [done |]. split; [done |].
  replace (16777215 * 256 + b + 2 ^ (32 - 1))
    with (b + 2 ^ 31 - 256 + 1 * 2 ^ 32) by lia.
  rewrite Z.mod_add by lia. rewrite Z.mod_small by lia. lia.
Qed.

Lemma wide_1_value b : 0 <= b < 256 -> Z.lor 0x100 b = 256 + b.
Proof. intros Hb. change 0x100 with (1 * 256). by rewrite lor_high_byte. Qed.

(** Distinct case labels, pair by pair. *)
Ltac distinct_labels H :=
  unfold case_labels in H;
  repeat (apply NoDup_cons in H as [? H]);
  repeat match goal with
         | Hn : _ ∉ _ :: _ |- _ =>
             apply not_elem_of_cons in Hn as [? Hn]
         end.

(** Picks the branch of the decoder for the opcode byte [Hb0] names. *)
Ltac pick_case :=
  repeat match goal with
         | |- context [decide (?x = ?y)] =>
             first [ rewrite (decide_True (P := x = y)) by congruence
                   | rewrite (decide_False (P := x = y)) by congruence ]
         end.

Ltac run_decoder :=
  unfold decodeInstruction, fbind, fetchUByte; pick_case;
  unfold fetchShort, fetchInt, fetchUBytes, fbind, fetchUByte, ret;
  rewrite <- ?Z.add_assoc; reflexivity.

Lemma memory_of_byte base code (k : nat) b :
  code !! k = Some b -> 0 <= b < 256 ->
  getUByte (memory_of base code) (base + Z.of_nat k) = b.
Proof.
  intros Hk Hb. unfold getUByte, memory_of.
  rewrite decide_True by lia.
  replace (Z.to_nat (base + Z.of_nat k - base)) with k by lia.
  rewrite (list_lookup_total_correct _ _ _ Hk).
  change 255 with (Z.ones 8). rewrite Z.land_ones by lia.
  apply Z.mod_small. lia.
Qed.

(** C1: the decoder follows the prefix grammar.  With [b k] the
    unsigned byte at [ip + k]: after [WIDE_M1] the opcode is [b 1] and
    the operand is [0xFFFFFF00 | b 2] (as an [int], the 32 bits
    [0xFFFFFF00 + b 2]); after [WIDE_0] the operand is [b 2]; after
    [WIDE_1] it is [0x100 | b 2]; after [WIDE_SHORT] and [WIDE_INT] it is
    the signed value of the 2 or 4 bytes that follow the prefix, and the
    opcode is the byte after them; the [ESCAPE_WIDE_*] prefixes decode
    the same way with 256 added to the opcode byte.  The tag is 1 in all
    these cases and the prefix byte is recorded.  In particular the
    bytes [WIDE_M1, X, 0x05] decode to opcode [X] with operand bits
    [0xFFFFFF05]. *)
Theorem decode_wide_prefixes ops bd mem ip :
  NoDup (case_labels ops) ->
  let b := fun k => getUByte mem (ip + k) in
  let short :=
    wrap_signed 16 (bytes_value (PLATFORM_BIG_ENDIAN bd) [b 1; b 2]) in
  let int :=
    wrap_signed 32
      (bytes_value (PLATFORM_BIG_ENDIAN bd) [b 1; b 2; b 3; b 4]) in
  let decoded := decodeInstruction ops bd mem ip in
  (b 0 = OPC_WIDE_M1 ops ->
   decoded = (mkDecoded 1 (b 0) (b 1) (to_int (Z.lor 0xFFFFFF00 (b 2))),
              ip + 3) /\
   operand_bits decoded.1 = Z.lor 0xFFFFFF00 (b 2) /\
   operand_bits decoded.1 = 0xFFFFFF00 + b 2) /\
  (b 0 = OPC_WIDE_0 ops ->
   decoded = (mkDecoded 1 (b 0) (b 1) (b 2), ip + 3)) /\
  (b 0 = OPC_WIDE_1 ops ->
   decoded = (mkDecoded 1 (b 0) (b 1) (Z.lor 0x100 (b 2)), ip + 3) /\
   operand decoded.1 = 0x100 + b 2) /\
  (b 0 = OPC_WIDE_SHORT ops ->
   decoded = (mkDecoded 1 (b 0) (b 3) short, ip + 4)) /\
  (b 0 = OPC_WIDE_INT ops ->
   decoded = (mkDecoded 1 (b 0) (b 5) int, ip + 6)) /\
  (b 0 = OPC_ESCAPE_WIDE_M1 ops ->
   decoded = (mkDecoded 1 (b 0) (b 1 + 256)
                        (to_int (Z.lor 0xFFFFFF00 (b 2))), ip + 3) /\
   operand_bits decoded.1 = 0xFFFFFF00 + b 2) /\
  (b 0 = OPC_ESCAPE_WIDE_0 ops ->
   decoded = (mkDecoded 1 (b 0) (b 1 + 256) (b 2), ip + 3)) /\
  (b 0 = OPC_ESCAPE_WIDE_1 ops ->
   decoded = (mkDecoded 1 (b 0) (b 1 + 256) (Z.lor 0x100 (b 2)), ip + 3)) /\
  (b 0 = OPC_ESCAPE_WIDE_SHORT ops ->
   decoded = (mkDecoded 1 (b 0) (b 3 + 256) short, ip + 4)) /\
  (b 0 = OPC_ESCAPE_WIDE_INT ops ->
   decoded = (mkDecoded 1 (b 0) (b 5 + 256) int, ip + 6)) /\
  (- 2 ^ 15 <= short < 2 ^ 15 /\ - 2 ^ 31 <= int < 2 ^ 31) /\
  (forall base X,
     0 <= OPC_WIDE_M1 ops < 256 -> 0 <= X < 256 ->
     let d := (decodeInstruction ops bd
                 (memory_of base [OPC_WIDE_M1 ops; X; 0x05]) base).1 in
     opcode d = X /\ operand_bits d = 0xFFFFFF05 /\ tag d = 1 /\
     prefix d = OPC_WIDE_M1 ops).
Proof.
  intros Hd b short int decoded. subst decoded short int b. cbv beta.
  rewrite Z.add_0_r. distinct_labels Hd.
  pose proof (getUByte_range mem (ip + 2)) as Hb2.
  destruct (wide_m1_bits _ Hb2) as (Hbits & Hsum & _).
  repeat apply conj.
  - intros Hb0. split; [run_decoder |]. split.
    + replace (decodeInstruction ops bd mem ip)
        with (mkDecoded 1 (getUByte mem ip) (getUByte mem (ip + 1))
                (to_int (Z.lor 0xFFFFFF00 (getUByte mem (ip + 2)))), ip + 3)
        by (symmetry; run_decoder).
      exact Hbits.
    + replace (decodeInstruction ops bd mem ip)
        with (mkDecoded 1 (getUByte mem ip) (getUByte mem (ip + 1))
                (to_int (Z.lor 0xFFFFFF00 (getUByte mem (ip + 2)))), ip + 3)
        by (symmetry; run_decoder).
      unfold operand_bits. simpl operand. by rewrite Hbits.
  - intros Hb0. run_decoder.
  - intros Hb0. split; [run_decoder |].
    replace (decodeInstruction ops bd mem ip)
      with (mkDecoded 1 (getUByte mem ip) (getUByte mem (ip + 1))
              (Z.lor 0x100 (getUByte mem (ip + 2))), ip + 3)
      by (symmetry; run_decoder).
    by apply wide_1_value.
  - intros Hb0. run_decoder.
  - intros Hb0. run_decoder.
  - intros Hb0. split; [run_decoder |].
    replace (decodeInstruction ops bd mem ip)
      with (mkDecoded 1 (getUByte mem ip) (getUByte mem (ip + 1) + 256)
              (to_int (Z.lor 0xFFFFFF00 (getUByte mem (ip + 2)))), ip + 3)
      by (symmetry; run_decoder).
    unfold operand_bits. simpl operand. by rewrite Hbits.
  - intros Hb0. run_decoder.
  - intros Hb0. run_decoder.
  - intros Hb0. run_decoder.
  - intros Hb0. run_decoder.
  - apply (wrap_signed_range 16). lia.
  - apply (wrap_signed_range 16). lia.
  - apply (wrap_signed_range 32). lia.
  - apply (wrap_signed_range 32). lia.
  - intros base X Hm1 HX.
    set (mem' := memory_of base [OPC_WIDE_M1 ops; X; 5]).
    assert (Hat0 : getUByte mem' base = OPC_WIDE_M1 ops).
    { rewrite <- (Z.add_0_r base) at 1.
      by apply (memory_of_byte base _ 0%nat). }
    assert (Hat1 : getUByte mem' (base + 1) = X)
      by (by apply (memory_of_byte base _ 1%nat)).
    assert (Hat2 : getUByte mem' (base + 2) = 5)
      by (by apply (memory_of_byte base _ 2%nat)).
    replace (decodeInstruction ops bd mem' base)
      with (mkDecoded 1 (getUByte mem' base) (getUByte mem' (base + 1))
              (to_int (Z.lor 0xFFFFFF00 (getUByte mem' (base + 2)))),
            base + 3)
      by (symmetry; run_decoder).
    rewrite Hat0, Hat1, Hat2. by repeat split.
Qed.

Lemma decode_wide_prefixes_witness :
  decodeInstruction opcodes0 build0 (memory_of 1000 [72; 11; 5]) 1000 =
    (mkDecoded 1 72 11 (to_int (Z.lor 0xFFFFFF00 5)), 1003) /\
  decodeInstruction opcodes0 build0 (memory_of 1000 [81; 0xFE; 0xFF; 11]) 1000 =
    (mkDecoded 1 81 (11 + 256) (-2), 1004).
Proof.
  assert (Hd : NoDup (case_labels opcodes0)).
  { apply (bool_decide_unpack _). vm_compute. exact I. }
  destruct (decode_wide_prefixes opcodes0 build0 (memory_of 1000 [72; 11; 5])
              1000 Hd) as (Hm1 & _).
  destruct (decode_wide_prefixes opcodes0 build0
              (memory_of 1000 [81; 0xFE; 0xFF; 11]) 1000 Hd)
    as (_ & _ & _ & _ & _ & _ & _ & _ & Hes & _).
  split.
  - apply Hm1. reflexivity.
  - apply Hes. reflexivity.
Defined.

(** An escaped float constant: tag 3 and the four bytes as the operand
    (little-endian build). *)
Example decode_const_float :
  decodeInstruction opcodes0 build0
    (memory_of 0 [77; 18; 0x00; 0x00; 0x80; 0x3F]) 0 =
    (mkDecoded 3 (-1) (256 + 18) 0x3F800000, 6).
Proof. vm_compute. reflexivity. Qed.

(** A parameter bytecode takes one signed byte. *)
Example decode_parm_bytecode :
  decodeInstruction opcodes0 build0 (memory_of 0 [92; 0xFF]) 0 =
    (mkDecoded 1 (-1) 92 (-1), 2).
Proof. vm_compute. reflexivity. Qed.

(** An opcode without operand. *)
Example decode_plain_opcode :
  decodeInstruction opcodes0 build0 (memory_of 0 [3]) 0 =
    (mkDecoded 0 (-1) 3 0, 1).
Proof. vm_compute. reflexivity. Qed.

End TraceFacts.

(** ** Strings and quantities of the command line *)

Module ArgsFacts.
Import Machine MachineFacts Vm Args.
Local Open Scope Z_scope.

Lemma char_at_lookup (s : list ascii) i c : s !! i = Some c -> char_at s i = c.
Proof. intros H. unfold char_at. by apply nth_lookup_Some with (d := NUL) in H. Qed.

Lemma char_at_end (s : list ascii) i : (length s <= i)%nat -> char_at s i = NUL.
Proof. intros H. unfold char_at. by apply nth_overflow. Qed.

Lemma char_at_inside (s : list ascii) i :
  c_string s -> (i < length s)%nat -> char_at s i <> NUL.
Proof.
  intros Hs Hi Heq. apply Hs.
  destruct (lookup_lt_is_Some_2 s i Hi) as [c Hc].
  rewrite (char_at_lookup s i c Hc) in Heq. subst c.
  by eapply list_elem_of_lookup_2.
Qed.

Lemma startsWith_loop_spec prefix :
  forall fuel i line,
    c_string line -> c_string prefix ->
    (i <= length prefix)%nat -> (length prefix < i + fuel)%nat ->
    take i line = take i prefix -> (i <= length line)%nat ->
    startsWith_loop fuel i line prefix =
      Some (bool_decide (prefix `prefix_of` line)).
Proof.
  induction fuel as [| fuel IH]; intros i line Hl Hp Hi Hfuel Hsame Hil; [lia |].
  simpl. destruct (decide (char_at prefix i = NUL)) as [Hend | Hmore].
  - f_equal. symmetry. apply bool_decide_eq_true.
    assert (Hlen : i = length prefix).
    { destruct (decide (i = length prefix)); [done |].
      exfalso. apply (char_at_inside prefix i); [done | lia | done]. }
    subst i. rewrite (take_ge prefix) in Hsame by lia.
    exists (drop (length prefix) line).
      rewrite <- (take_drop (length prefix) line) at 1. by rewrite Hsame.
  - assert (Hip : (i < length prefix)%nat).
    { destruct (Nat.lt_ge_cases i (length prefix)); [done |].
      exfalso. apply Hmore. by apply char_at_end. }
    destruct (lookup_lt_is_Some_2 prefix i Hip) as [pc Hpc].
    rewrite (char_at_lookup prefix i pc Hpc).
    destruct (decide (char_at line i = NUL)) as [Hlend | Hlmore].
    + f_equal. symmetry. apply bool_decide_eq_false.
      intros [k ->].
      assert (Hli : (length (prefix ++ k) <= i)%nat).
      { destruct (Nat.lt_ge_cases i (length (prefix ++ k))); [| done].
        exfalso. by apply (char_at_inside (prefix ++ k) i). }
      rewrite length_app in Hli. lia.
    + assert (Hil' : (i < length line)%nat).
      { destruct (Nat.lt_ge_cases i (length line)); [done |].
        exfalso. apply Hlmore. by apply char_at_end. }
      destruct (lookup_lt_is_Some_2 line i Hil') as [lc Hlc].
      rewrite (char_at_lookup line i lc Hlc).
      destruct (decide (pc <> lc)) as [Hne | Heq].
      * f_equal. symmetry. apply bool_decide_eq_false.
        intros [k ->]. rewrite lookup_app_l in Hlc by done. congruence.
      * assert (pc = lc) by (destruct (decide (pc = lc)); [done | by exfalso]).
        subst lc. apply IH; [done | done | lia | lia | | lia].
        rewrite (take_S_r line i pc), (take_S_r prefix i pc) by done.
        by rewrite Hsame.
Qed.

(** X5: on C strings, [startsWith] returns true exactly when [prefix] is
    a prefix of [line]; in particular the empty prefix always matches. *)
Theorem startsWith_prefix line prefix :
  c_string line -> c_string prefix ->
  startsWith line prefix = Some (bool_decide (prefix `prefix_of` line)).
Proof.
  intros Hl Hp. unfold startsWith.
  apply startsWith_loop_spec; [done | done | lia | lia | done | lia].
Qed.

Lemma startsWith_prefix_witness :
  startsWith (String.list_ascii_of_string "mxnvm:8")
             (String.list_ascii_of_string "mx") = Some true.
Proof.
  rewrite (startsWith_prefix (String.list_ascii_of_string "mxnvm:8")
             (String.list_ascii_of_string "mx")).
  - reflexivity.
  - unfold c_string. apply (bool_decide_unpack _). vm_compute. exact I.
  - unfold c_string. apply (bool_decide_unpack _). vm_compute. exact I.
Defined.

Lemma equals_loop_spec s1 :
  forall fuel i s2,
    c_string s1 -> c_string s2 ->
    (i <= length s1)%nat -> (length s1 < i + fuel)%nat ->
    take i s1 = take i s2 -> (i <= length s2)%nat ->
    equals_loop fuel i s1 s2 = Some (bool_decide (s1 = s2)).
Proof.
  induction fuel as [| fuel IH]; intros i s2 H1 H2 Hi Hfuel Hsame Hi2; [lia |].
  simpl. destruct (decide (char_at s1 i = NUL)) as [Hend | Hmore].
  - assert (Hlen : i = length s1).
    { destruct (decide (i = length s1)); [done |].
      exfalso. apply (char_at_inside s1 i); [done | lia | done]. }
    subst i. rewrite (take_ge s1) in Hsame by lia. f_equal.
    destruct (decide (char_at s2 (length s1) = NUL)) as [Hend2 | Hmore2].
    + rewrite bool_decide_eq_true_2 by done. symmetry.
      apply bool_decide_eq_true.
      assert (length s2 <= length s1)%nat.
      { destruct (Nat.lt_ge_cases (length s1) (length s2)); [| done].
        exfalso. by apply (char_at_inside s2 (length s1)). }
      rewrite Hsame. apply take_ge. lia.
    + rewrite bool_decide_eq_false_2 by done. symmetry.
      apply bool_decide_eq_false. intros ->. apply Hmore2.
      by apply char_at_end.
  - assert (Hi1 : (i < length s1)%nat).
    { destruct (Nat.lt_ge_cases i (length s1)); [done |].
      exfalso. apply Hmore. by apply char_at_end. }
    destruct (lookup_lt_is_Some_2 s1 i Hi1) as [c Hc].
    rewrite (char_at_lookup s1 i c Hc) in *.
    destruct (decide (char_at s2 i <> c)) as [Hne | Heq].
    + f_equal. symmetry. apply bool_decide_eq_false. intros <-.
      apply Hne. by apply char_at_lookup.
    + assert (Hc2 : char_at s2 i = c)
        by (destruct (decide (char_at s2 i = c)); [done | by exfalso]).
      assert (Hi2' : (i < length s2)%nat).
      { destruct (Nat.lt_ge_cases i (length s2)); [done |].
        exfalso. apply Hmore. rewrite <- Hc2. by apply char_at_end. }
      destruct (lookup_lt_is_Some_2 s2 i Hi2') as [c2 Hc2'].
      rewrite (char_at_lookup s2 i c2 Hc2') in Hc2. subst c2.
      apply IH; [done | done | lia | lia | | lia].
      rewrite (take_S_r s1 i c), (take_S_r s2 i c) by done. by rewrite Hsame.
Qed.

(** X6: on C strings, [equals] returns true exactly when the two
    strings are the same. *)
Theorem equals_same_string s1 s2 :
  c_string s1 -> c_string s2 ->
  equals s1 s2 = Some (bool_decide (s1 = s2)).
Proof.
  intros H1 H2. unfold equals.
  apply equals_loop_spec; [done | done | lia | lia | done | lia].
Qed.

Lemma equals_same_string_witness :
  equals (String.list_ascii_of_string "notrap")
         (String.list_ascii_of_string "notrapx") = Some false.
Proof.
  rewrite (equals_same_string (String.list_ascii_of_string "notrap")
             (String.list_ascii_of_string "notrapx")).
  - reflexivity.
  - unfold c_string. apply (bool_decide_unpack _). vm_compute. exact I.
  - unfold c_string. apply (bool_decide_unpack _). vm_compute. exact I.
Defined.

Lemma is_digit_value d : is_digit d = true -> 0 <= code d - code "0" <= 9.
Proof.
  unfold is_digit. rewrite andb_true_iff, !Z.leb_le.
  change (code "0") with 48. change (code "9") with 57. lia.
Qed.

Lemma is_digit_not_NUL d : is_digit d = true -> d <> NUL.
Proof. intros Hd ->. discriminate. Qed.

Lemma spelled_nonneg ds : digits ds -> 0 <= spelled ds.
Proof.
  induction 1 as [| d ds Hd _ IH]; simpl; [lia |].
  pose proof (is_digit_value d Hd).
  pose proof (Z.pow_nonneg 10 (Z.of_nat (length ds)) ltac:(lia)). nia.
Qed.

(** The digits are accumulated as in positional notation, as long as
    the value stays within 64 bits. *)
Lemma parseQuantityLong_loop_digits ds :
  forall rest val,
    digits ds -> 0 <= val ->
    val * 10 ^ Z.of_nat (length ds) + spelled ds < 2 ^ 63 ->
    parseQuantityLong_loop (ds ++ rest) val =
      parseQuantityLong_loop rest
        (val * 10 ^ Z.of_nat (length ds) + spelled ds).
Proof.
  induction ds as [| d ds IH]; intros rest val Hds Hval Hfit.
  - simpl. f_equal. lia.
  - inversion Hds as [| ? ? Hd Hds']; subst. simpl.
    rewrite decide_False by (by apply is_digit_not_NUL). rewrite Hd.
    pose proof (is_digit_value d Hd) as Hdv.
    pose proof (spelled_nonneg ds Hds') as Hsp.
    assert (Hpow : 0 < 10 ^ Z.of_nat (length ds))
      by (apply Z.pow_pos_nonneg; lia).
    simpl in Hfit.
    replace (10 ^ Z.of_nat (S (length ds)))
      with (10 * 10 ^ Z.of_nat (length ds)) in *
      by (rewrite Nat2Z.inj_succ, Z.pow_succ_r by lia; reflexivity).
    rewrite to_jlong_id by (unfold in_jlong; nia).
    rewrite IH by (try done; nia). f_equal. lia.
Qed.

(** X7: a string of decimal digits that spells a number below [2^63] is
    parsed to that number (the empty string to 0); a suffix [K] or [k]
    multiplies by 1024, [M] or [m] by 1024 * 1024, and whatever follows
    the suffix is ignored; any other character ends the VM with code
    -1.  [parseQuantity] accepts the number only if it is below [2^31]
    and otherwise ends the VM with code -1. *)
Theorem parseQuantity_spelled ds :
  digits ds -> spelled ds < 2 ^ 63 ->
  parseQuantityLong ds = Returns (spelled ds) /\
  (forall c rest,
     c = "K"%char \/ c = "k"%char ->
     parseQuantityLong (ds ++ c :: rest) =
       Returns (to_jlong (spelled ds * 1024))) /\
  (forall c rest,
     c = "M"%char \/ c = "m"%char ->
     parseQuantityLong (ds ++ c :: rest) =
       Returns (to_jlong (spelled ds * (1024 * 1024)))) /\
  (forall c rest,
     c <> NUL -> is_digit c = false ->
     ~ (c = "K"%char \/ c = "k"%char) -> ~ (c = "M"%char \/ c = "m"%char) ->
     parseQuantityLong (ds ++ c :: rest) = Exits (-1)) /\
  parseQuantity ds =
    (if decide (spelled ds < 2 ^ 31) then Returns (spelled ds) else Exits (-1)).
Proof.
  intros Hds Hfit. pose proof (spelled_nonneg ds Hds) as Hsp.
  assert (Hrun : forall rest,
            parseQuantityLong (ds ++ rest) =
              parseQuantityLong_loop rest (spelled ds)).
  { intros rest. unfold parseQuantityLong.
    rewrite parseQuantityLong_loop_digits by (try done; lia).
    f_equal; lia. }
  assert (Hall : parseQuantityLong ds = Returns (spelled ds)).
  { rewrite <- (app_nil_r ds) at 1. by rewrite Hrun. }
  split; [exact Hall |]. split; [| split; [| split]].
  - intros c rest Hc. rewrite Hrun. simpl.
    assert (c <> NUL) by (destruct Hc as [-> | ->]; discriminate).
    assert (is_digit c = false) by (destruct Hc as [-> | ->]; reflexivity).
    rewrite decide_False by done. rewrite H0. by rewrite decide_True by done.
  - intros c rest Hc. rewrite Hrun. simpl.
    assert (c <> NUL) by (destruct Hc as [-> | ->]; discriminate).
    assert (is_digit c = false) by (destruct Hc as [-> | ->]; reflexivity).
    assert (~ (c = "K"%char \/ c = "k"%char))
      by (destruct Hc as [-> | ->]; intros [? | ?]; discriminate).
    rewrite decide_False by done. rewrite H0.
    rewrite decide_False by done. by rewrite decide_True by done.
  - intros c rest Hnul Hnd HK HM. rewrite Hrun. simpl.
    rewrite decide_False by done. rewrite Hnd.
    rewrite decide_False by done. by rewrite decide_False by done.
  - unfold parseQuantity. rewrite Hall. simpl.
    destruct (decide (spelled ds < 2 ^ 31)) as [Hint | Hbig].
    + rewrite to_int_id by (unfold in_int; lia).
      by rewrite decide_False by (intros H; by apply H).
    + pose proof (wrap_signed_range 32 (spelled ds) ltac:(lia)) as Hr.
      rewrite decide_True; [done |]. unfold to_int. lia.
Qed.

Lemma parseQuantity_spelled_witness :
  parseQuantityLong (String.list_ascii_of_string "64Kb") = Returns 65536 /\
  parseQuantity (String.list_ascii_of_string "4000000000") = Exits (-1).
Proof.
  split.
  - apply (proj1 (proj2 (parseQuantity_spelled
                           (String.list_ascii_of_string "64")
                           ltac:(by repeat constructor) ltac:(by vm_compute)))
                 "K"%char (String.list_ascii_of_string "b")).
    by left.
  - apply (proj2 (proj2 (proj2 (proj2 (parseQuantity_spelled
                           (String.list_ascii_of_string "4000000000")
                           ltac:(by repeat constructor)
                           ltac:(by vm_compute)))))).
Defined.

End ArgsFacts.

(** ** Copying the command line *)

Module CopyFacts.
Import Machine MachineFacts Vm Cio Args ArgsFacts Copy.
Local Open Scope Z_scope.

Lemma strlen_le s : (strlen s <= length s)%nat.
Proof.
  induction s as [| ch s IH]; simpl; [lia |].
  destruct (decide (ch = NUL)); lia.
Qed.

Lemma char_at_strlen s : char_at s (strlen s) = NUL.
Proof.
  induction s as [| ch s IH]; simpl; [done |].
  destruct (decide (ch = NUL)); simpl; done.
Qed.

Lemma strings_size_nonneg array : 0 <= strings_size array.
Proof. induction array as [| s array IH]; simpl; lia. Qed.

Lemma strings_size_app a b :
  strings_size (a ++ b) = strings_size a + strings_size b.
Proof. induction a as [| s a IH]; simpl; lia. Qed.

Lemma strings_size_take_le (array : list (list ascii)) i :
  strings_size (take i array) <= strings_size array.
Proof.
  rewrite <- (take_drop i array) at 2. rewrite strings_size_app.
  pose proof (strings_size_nonneg (drop i array)). lia.
Qed.

Lemma writeCString_spec memory s :
  forall offset,
    in_int offset -> offset + Z.of_nat (strlen s) + 1 < 2 ^ 31 ->
    exists stores,
      writeCString memory s offset =
        (stores, offset + Z.of_nat (strlen s) + 1) /\
      length stores = S (strlen s) /\
      forall i, (i <= strlen s)%nat ->
        stores !! i = Some (SetByte memory (offset + Z.of_nat i) (char_at s i)).
Proof.
  unfold in_int.
  induction s as [| ch s IH]; intros offset Hoff Hfit; simpl in *.
  - eexists. split; [rewrite to_int_id by (unfold in_int; lia); f_equal; lia |].
    split; [done |]. intros i Hi. replace i with O by lia.
    simpl. do 2 f_equal. lia.
  - destruct (decide (ch = NUL)) as [-> | Hch]; simpl in *.
    + eexists. split; [rewrite to_int_id by (unfold in_int; lia); f_equal; lia |].
      split; [done |]. intros i Hi. replace i with O by lia.
      simpl. do 2 f_equal. lia.
    + rewrite to_int_id by (unfold in_int; lia).
      destruct (IH (offset + 1)) as (stores & Hrun & Hlen & Hat); [lia | lia |].
      rewrite Hrun. eexists. split; [f_equal; lia |].
      split; [simpl; by rewrite Hlen |].
      intros [| i] Hi; simpl.
      * do 2 f_equal. lia.
      * rewrite Hat by lia. do 2 f_equal. lia.
Qed.

Lemma calculateSize_loop_spec array :
  forall n total,
    (n <= length array)%nat -> in_int total ->
    total + strings_size (take n array) < 2 ^ 31 ->
    calculateSize_loop n array total = total + strings_size (take n array).
Proof.
  unfold in_int.
  induction n as [| n IH]; intros total Hn Htot Hfit; simpl.
  - rewrite ?take_0. simpl. lia.
  - destruct (lookup_lt_is_Some_2 array n ltac:(lia)) as [s Hs].
    rewrite (list_lookup_total_correct _ _ _ Hs).
    rewrite (take_S_r _ _ _ Hs), strings_size_app in *. simpl in *.
    pose proof (strings_size_nonneg (take n array)).
    rewrite to_int_id by (unfold in_int; lia).
    rewrite IH by lia. lia.
Qed.

Lemma to_uint_add_l a b : to_uint (to_uint a + b) = to_uint (a + b).
Proof. unfold to_uint, wrap_unsigned. by rewrite Zplus_mod_idemp_l. Qed.

Lemma writeCStringArray_loop_spec sizeof_ptr memory array :
  forall arrayCopy offset,
    arrayCopy = to_uint arrayCopy ->
    in_int offset -> offset + strings_size array < 2 ^ 31 ->
    exists stores,
      writeCStringArray_loop sizeof_ptr memory array arrayCopy offset =
        (stores, offset + strings_size array) /\
      forall (i : nat) s, array !! i = Some s ->
        let copy := offset + strings_size (take i array) in
        SetObject (to_uint (arrayCopy + Z.of_nat i * sizeof_ptr)) 0
                  (Address_add memory copy) ∈ stores /\
        forall j, (j <= strlen s)%nat ->
          SetByte memory (copy + Z.of_nat j) (char_at s j) ∈ stores.
Proof.
  unfold in_int.
  induction array as [| s0 array IH]; intros arrayCopy offset Hcopy Hoff Hfit.
  - simpl. eexists. split; [f_equal; lia |]. intros i s Hi. done.
  - simpl in *. pose proof (strings_size_nonneg array) as Hnn.
    destruct (writeCString_spec memory s0 offset)
      as (stores1 & Hrun1 & Hlen1 & Hat1); [done | lia |].
    rewrite Hrun1.
    destruct (IH (Address_add arrayCopy sizeof_ptr)
                 (offset + Z.of_nat (strlen s0) + 1))
      as (stores2 & Hrun2 & Hat2);
      [unfold Address_add, to_uint, wrap_unsigned; by rewrite Zmod_mod
      | lia | lia |].
    rewrite Hrun2. eexists. split; [f_equal; lia |].
    intros [| i] s Hi; simpl in *.
    + injection Hi as ->. split.
      * match goal with
        | |- SetObject ?a 0 (Address_add memory ?o) ∈ _ =>
            replace a with arrayCopy
              by (rewrite Hcopy at 1; f_equal; lia);
            replace o with offset by lia
        end.
        apply list_elem_of_here.
      * intros j Hj. apply list_elem_of_further, elem_of_app. left.
        replace (offset + 0 + Z.of_nat j) with (offset + Z.of_nat j) by lia.
        eapply list_elem_of_lookup_2. by apply Hat1.
    + destruct (Hat2 i s Hi) as [Hptr Hbytes]. split.
      * apply list_elem_of_further, elem_of_app. right.
        unfold Address_add in Hptr. rewrite to_uint_add_l in Hptr.
        replace (arrayCopy + Z.of_nat (S i) * sizeof_ptr)
          with (arrayCopy + sizeof_ptr + Z.of_nat i * sizeof_ptr) by lia.
        replace (offset + (Z.of_nat (strlen s0) + 1 +
                           strings_size (take i array)))
          with (offset + Z.of_nat (strlen s0) + 1 +
                strings_size (take i array)) by lia.
        exact Hptr.
      * intros j Hj. apply list_elem_of_further, elem_of_app. right.
        replace (offset + (Z.of_nat (strlen s0) + 1 +
                           strings_size (take i array)) + Z.of_nat j)
          with (offset + Z.of_nat (strlen s0) + 1 +
                strings_size (take i array) + Z.of_nat j) by lia.
        by apply Hbytes.
Qed.

Lemma calculateSize_spec sizeof_ptr array :
  0 <= sizeof_ptr ->
  Z.of_nat (length array) * sizeof_ptr + strings_size array < 2 ^ 31 ->
  calculateSizeForCopyOfCStringArray sizeof_ptr array =
    Z.of_nat (length array) * sizeof_ptr + strings_size array.
Proof.
  intros Hptr Hfit. unfold calculateSizeForCopyOfCStringArray.
  pose proof (strings_size_nonneg array) as Hnn.
  rewrite to_int_id by (unfold in_int; nia).
  rewrite calculateSize_loop_spec; rewrite ?firstn_all; try done.
  unfold in_int; nia.
Qed.

(** X8: [writeCString] stores the characters of the string at
    consecutive offsets, then the terminator, and returns the offset
    after the terminator. *)
Theorem writeCString_copies memory s offset :
  in_int offset -> offset + Z.of_nat (strlen s) + 1 < 2 ^ 31 ->
  exists stores,
    writeCString memory s offset = (stores, offset + Z.of_nat (strlen s) + 1) /\
    length stores = S (strlen s) /\
    (forall i, (i <= strlen s)%nat ->
       stores !! i = Some (SetByte memory (offset + Z.of_nat i) (char_at s i))) /\
    stores !! strlen s = Some (SetByte memory (offset + Z.of_nat (strlen s)) NUL).
Proof.
  intros Hoff Hfit.
  destruct (writeCString_spec memory s offset Hoff Hfit)
    as (stores & Hrun & Hlen & Hat).
  exists stores. split; [done |]. split; [done |]. split; [done |].
  rewrite Hat by lia. by rewrite char_at_strlen.
Qed.

Lemma writeCString_copies_witness :
  exists stores,
    writeCString 4096 (String.list_ascii_of_string "ab") 10 = (stores, 13).
Proof.
  destruct (writeCString_copies 4096 (String.list_ascii_of_string "ab") 10)
    as (stores & Hrun & _); [unfold in_int; lia | simpl; lia |].
  exists stores. exact Hrun.
Defined.

Lemma writeCStringArray_spec sizeof_ptr memory array offset :
  0 <= sizeof_ptr -> 0 <= offset ->
  offset + Z.of_nat (length array) * sizeof_ptr + strings_size array < 2 ^ 31 ->
  exists stores,
    writeCStringArray sizeof_ptr memory array offset =
      (stores,
       offset + (Z.of_nat (length array) * sizeof_ptr + strings_size array)) /\
    forall (i : nat) s, array !! i = Some s ->
      exists copy,
        offset + Z.of_nat (length array) * sizeof_ptr <= copy /\
        copy + Z.of_nat (strlen s) + 1 <=
          offset + (Z.of_nat (length array) * sizeof_ptr + strings_size array) /\
        SetObject (Address_add memory (offset + Z.of_nat i * sizeof_ptr)) 0
                  (Address_add memory copy) ∈ stores /\
        forall j, (j <= strlen s)%nat ->
          SetByte memory (copy + Z.of_nat j) (char_at s j) ∈ stores.
Proof.
  intros Hptr Hoff Hfit. pose proof (strings_size_nonneg array) as Hnn.
  unfold writeCStringArray.
  rewrite to_int_id by (unfold in_int; nia).
  destruct (writeCStringArray_loop_spec sizeof_ptr memory array
              (Address_add memory offset)
              (offset + Z.of_nat (length array) * sizeof_ptr))
    as (stores & Hrun & Hat);
    [unfold Address_add, to_uint, wrap_unsigned; by rewrite Zmod_mod
    | unfold in_int; nia | lia |].
  exists stores. split; [rewrite Hrun; f_equal; lia |].
  intros i s Hi. destruct (Hat i s Hi) as [Hobj Hbytes].
  exists (offset + Z.of_nat (length array) * sizeof_ptr +
          strings_size (take i array)).
  pose proof (strings_size_nonneg (take i array)).
  split; [lia |]. split.
  - assert (Hsplit : strings_size array =
              strings_size (take i array) + (Z.of_nat (strlen s) + 1) +
              strings_size (drop (S i) array)).
    { rewrite <- (take_drop_middle array i s Hi) at 1.
      rewrite strings_size_app. simpl. lia. }
    pose proof (strings_size_nonneg (drop (S i) array)). lia.
  - split; [| exact Hbytes].
    unfold Address_add in Hobj at 1. rewrite to_uint_add_l in Hobj.
    unfold Address_add at 1.
    by replace (memory + (offset + Z.of_nat i * sizeof_ptr))
      with (memory + offset + Z.of_nat i * sizeof_ptr) by lia.
Qed.

(** X9: the size that [calculateSizeForCopyOfCStringArray] computes is
    exactly what [writeCStringArray] uses: the offset returned is the
    offset given plus that size.  In the copy, the pointer stored in
    slot [i] of the array is the address at which the characters of
    string [i] and its terminator are stored. *)
Theorem writeCStringArray_deep_copy sizeof_ptr memory array offset :
  0 <= sizeof_ptr -> 0 <= offset ->
  offset + Z.of_nat (length array) * sizeof_ptr + strings_size array < 2 ^ 31 ->
  exists stores,
    writeCStringArray sizeof_ptr memory array offset =
      (stores,
       offset + calculateSizeForCopyOfCStringArray sizeof_ptr array) /\
    forall (i : nat) s, array !! i = Some s ->
      exists copy,
        offset + Z.of_nat (length array) * sizeof_ptr <= copy /\
        copy + Z.of_nat (strlen s) + 1 <=
          offset + calculateSizeForCopyOfCStringArray sizeof_ptr array /\
        SetObject (Address_add memory (offset + Z.of_nat i * sizeof_ptr)) 0
                  (Address_add memory copy) ∈ stores /\
        forall j, (j <= strlen s)%nat ->
          SetByte memory (copy + Z.of_nat j) (char_at s j) ∈ stores.
Proof.
  intros Hptr Hoff Hfit. pose proof (strings_size_nonneg array) as Hnn.
  rewrite calculateSize_spec by (try done; nia).
  by apply writeCStringArray_spec.
Qed.

Lemma writeCStringArray_deep_copy_witness :
  exists stores,
    writeCStringArray 4 4096
      [String.list_ascii_of_string "-verbose";
       String.list_ascii_of_string "Main"] 100 = (stores, 122).
Proof.
  destruct (writeCStringArray_deep_copy 4 4096
              [String.list_ascii_of_string "-verbose";
               String.list_ascii_of_string "Main"] 100)
    as (stores & Hrun & _); [lia | lia | simpl; lia |].
  exists stores. exact Hrun.
Defined.

End CopyFacts.

(** ** Laying out the VM's memory *)

Module SetupFacts.
Import Machine MachineFacts Vm Buffers Cio Util UtilFacts Args Copy CopyFacts.
Import Setup.
Local Open Scope Z_scope.

Lemma pages_bounds k x :
  0 <= k -> x <= pages (2 ^ k) x < x + 2 ^ k.
Proof.
  intros Hk. unfold pages.
  pose proof (Z.pow_pos_nonneg 2 k ltac:(lia) Hk) as Hp.
  pose proof (Z.div_mod (x + 2 ^ k - 1) (2 ^ k) ltac:(lia)) as Hdm.
  pose proof (Z.mod_pos_bound (x + 2 ^ k - 1) (2 ^ k) ltac:(lia)) as Hmod.
  nia.
Qed.

Lemma pages_divide a x : (a | pages a x).
Proof. unfold pages. by eexists. Qed.

Lemma pages_mono k x y : 0 <= k -> x <= y -> pages (2 ^ k) x <= pages (2 ^ k) y.
Proof.
  intros Hk Hxy. unfold pages.
  pose proof (Z.pow_pos_nonneg 2 k ltac:(lia) Hk) as Hp.
  apply Z.mul_le_mono_nonneg_r; [lia |].
  apply Z.div_le_mono; lia.
Qed.

(** One step of the layout: rounding up an aligned base plus a size. *)
Lemma roundUp_step A k v base x :
  0 <= k < 32 -> (2 ^ k | base) -> 0 <= base -> 0 <= x ->
  base + x + 2 ^ k <= 2 ^ 32 -> v = base + x ->
  roundUp A (to_uint v) (to_uint (2 ^ k)) = Returns (base + pages (2 ^ k) x).
Proof.
  intros Hk Hdiv Hb Hx Hfit ->. pose proof (pow2_le_32 k Hk) as Hp.
  rewrite !to_uint_id by (unfold is_uword; lia).
  by apply roundUp_aligned_add.
Qed.

Lemma isWordAligned_multiple j v :
  0 <= j < 32 -> is_uword v -> (2 ^ j | v) -> isWordAligned (2 ^ j) v = true.
Proof.
  intros Hj Hv [c ->]. pose proof (pow2_le_32 j Hj) as Hp.
  unfold isWordAligned, roundDownToWord. apply bool_decide_eq_true.
  rewrite <- (to_uint_id (2 ^ j - 1)) by (unfold is_uword; lia).
  rewrite land_align_mask by done.
  rewrite Z.div_mul by lia. reflexivity.
Qed.

Lemma isWordAligned_mod j v :
  0 <= j < 32 -> is_uword v ->
  isWordAligned (2 ^ j) v = (v mod 2 ^ j =? 0).
Proof.
  intros Hj Hv. pose proof (pow2_le_32 j Hj) as Hp.
  unfold isWordAligned, roundDownToWord.
  rewrite <- (to_uint_id (2 ^ j - 1)) by (unfold is_uword; lia).
  rewrite land_align_mask by done.
  pose proof (Z.div_mod v (2 ^ j) ltac:(lia)) as Hdm.
  destruct (Z.eqb_spec (v mod 2 ^ j) 0) as [Hz | Hnz].
  - apply bool_decide_eq_true. lia.
  - apply bool_decide_eq_false. lia.
Qed.

Lemma assume_true A : assume A true = Returns tt.
Proof. unfold assume. by rewrite andb_false_r. Qed.

(** A size that is a whole number of pages already is asked for as it
    is. *)
Lemma page_rounded_multiple k size :
  0 <= k -> 0 <= size -> (2 ^ k | size) ->
  page_rounded (2 ^ k) size = to_int size.
Proof.
  intros Hk Hsize [c ->]. unfold page_rounded. f_equal.
  pose proof (Z.pow_pos_nonneg 2 k ltac:(lia) Hk) as Hp.
  replace (2 ^ k - 1) with (Z.ones k) by (rewrite Z.ones_equiv; lia).
  rewrite <- Z.ldiff_land, Z.ldiff_ones_r by lia.
  rewrite Z.shiftl_mul_pow2, Z.shiftr_div_pow2 by lia.
  f_equal. rewrite Z.ones_equiv.
  symmetry. apply (Z.div_unique _ _ _ (Z.pred (2 ^ k))); lia.
Qed.

(** X10: with a page size that is a power of two and at least a word,
    a page-aligned buffer from the allocator and sizes that fit in 31
    bits, [setupMemory] returns with none of its assumptions failing:
    the NVM, the RAM, the stack of the service thread, the copy of the
    command line and the copy of the name of the suite file follow one
    another without overlap, each of the first four starting on a page
    boundary, and the last ends inside the buffer.  Without flash memory the ROM
    image comes first, at the start of the buffer. *)
Theorem setupMemory_layout p b valloc ramSize nvmSize argv romFileName r k j :
  let argvTotal := Z.of_nat (length argv) * sizeof_ptr p + strings_size argv in
  let nameSize := Z.of_nat (strlen romFileName) + 1 in
  let need :=
    (if FLASH_MEMORY p then 0 else fileSize b) + ramSize + nvmSize +
    SERVICE_CHUNK_SIZE p + argvTotal + nameSize + 5 * 2 ^ k in
  pageSize p = 2 ^ k -> HDR_BYTES_PER_WORD p = 2 ^ j -> 0 <= j <= k -> k < 31 ->
  0 <= sizeof_ptr p -> TWOWORDS p <= SERVICE_CHUNK_SIZE p ->
  0 <= ramSize -> 0 <= nvmSize ->
  (if FLASH_MEMORY p
   then TYPEMAP p = false /\
        is_uword (flashRomStart b) /\ (2 ^ j | flashRomStart b)
   else 0 <= romSize b <= fileSize b) ->
  need < 2 ^ 31 ->
  (forall n, 0 < valloc n /\ (2 ^ k | valloc n) /\ valloc n + need <= 2 ^ 32) ->
  well_sized r -> (BufferCount r < MAX_BUFFERS)%nat ->
  exists l r' stores,
    setupMemory p b valloc ramSize nvmSize argv romFileName r =
      Returns (suite b, l, r', stores) /\
    registered r' = registered r ++ [memory l] /\
    memoryEnd l = memory l + memorySize l /\
    memory l <= java_lang_GC_nvmStart l /\
    java_lang_GC_nvmEnd l = java_lang_GC_nvmStart l + nvmSize /\
    java_lang_GC_nvmEnd l <= java_lang_GC_ramStart l /\
    java_lang_GC_ramEnd l = java_lang_GC_ramStart l + ramSize /\
    java_lang_GC_ramEnd l + TWOWORDS p <= java_lang_Thread_serviceStack l /\
    java_lang_Thread_serviceStack l + SERVICE_CHUNK_SIZE_MINUS2WORDS p
      <= java_lang_VM_argv l /\
    java_lang_VM_romFileName l =
      java_lang_VM_argv l +
      calculateSizeForCopyOfCStringArray (sizeof_ptr p) argv /\
    java_lang_VM_romFileName l + nameSize <= memoryEnd l /\
    (2 ^ k | java_lang_GC_nvmStart l) /\ (2 ^ k | java_lang_GC_ramStart l) /\
    (2 ^ k | java_lang_VM_argv l) /\
    (2 ^ j | java_lang_Thread_serviceStack l) /\
    (FLASH_MEMORY p = false ->
     java_lang_VM_romStart l = memory l /\
     java_lang_VM_romEnd l = memory l + romSize b /\
     java_lang_VM_romEnd l <= java_lang_GC_nvmStart l).
Proof.
  intros argvTotal nameSize need HP HW Hjk Hk Hptr Hscs Hram Hnvm Hrom Hneed
    Hvalloc Hsized Hcount.
  destruct p as [P SCS W HL ptr FLASH TM A], b as [f frs rs su].
  unfold TWOWORDS, SERVICE_CHUNK_SIZE_MINUS2WORDS in *.
  cbn [pageSize SERVICE_CHUNK_SIZE HDR_BYTES_PER_WORD HDR_length sizeof_ptr
       FLASH_MEMORY TYPEMAP ASSUME fileSize flashRomStart romSize suite] in *.
  subst P W.
  pose proof (pow2_le_32 k ltac:(lia)) as HPpos.
  pose proof (pow2_le_32 j ltac:(lia)) as HWpos.
  assert (HPmax : 2 ^ k <= 2 ^ 30) by (apply Z.pow_le_mono_r; lia).
  assert (HWP : (2 ^ j | 2 ^ k)).
  { exists (2 ^ (k - j)). rewrite <- Z.pow_add_r by lia. f_equal. lia. }
  pose proof (strings_size_nonneg argv) as Hargv.
  set (f0 := if FLASH then 0 else f) in *.
  set (x0 := if FLASH then 0 else rs).
  assert (Hx0 : 0 <= x0 <= f0) by (subst x0 f0; destruct FLASH; lia).
  assert (Hk32 : 0 <= k < 32) by lia.
  pose proof (pages_bounds k f0 ltac:(lia)) as Bf.
  pose proof (pages_bounds k x0 ltac:(lia)) as Bx.
  pose proof (pages_mono k x0 f0 ltac:(lia) ltac:(lia)) as Bxf.
  pose proof (pages_bounds k ramSize ltac:(lia)) as Bram.
  pose proof (pages_bounds k nvmSize ltac:(lia)) as Bnvm.
  pose proof (pages_bounds k SCS ltac:(lia)) as Bscs.
  pose proof (pages_bounds k (argvTotal + nameSize) ltac:(lia)) as Bargs.
  pose proof (pages_divide (2 ^ k) f0) as Df.
  pose proof (pages_divide (2 ^ k) x0) as Dx.
  pose proof (pages_divide (2 ^ k) ramSize) as Dram.
  pose proof (pages_divide (2 ^ k) nvmSize) as Dnvm.
  pose proof (pages_divide (2 ^ k) SCS) as Dscs.
  assert (Hsize : calculateSizeForCopyOfCStringArray ptr argv = argvTotal).
  { apply calculateSize_spec; [done |]. subst need argvTotal nameSize. lia. }
  unfold setupMemory.
  cbn [pageSize SERVICE_CHUNK_SIZE HDR_BYTES_PER_WORD HDR_length sizeof_ptr
       FLASH_MEMORY TYPEMAP ASSUME fileSize flashRomStart romSize suite].
  unfold SERVICE_CHUNK_SIZE_MINUS2WORDS, TWOWORDS.
  cbn [pageSize SERVICE_CHUNK_SIZE HDR_BYTES_PER_WORD HDR_length sizeof_ptr
       FLASH_MEMORY TYPEMAP ASSUME fileSize flashRomStart romSize suite].
  rewrite Hsize. fold nameSize.
  rewrite (to_int_id nameSize) by (unfold in_int; subst need nameSize; lia).
  assert (H0 : (if FLASH
                then bind (assume A (negb TM)) (fun _ => Returns 0)
                else roundUp A (to_uint f) (to_uint (2 ^ k)))
               = Returns (pages (2 ^ k) f0)).
  { subst f0 x0. destruct FLASH.
    - destruct Hrom as [-> _]. rewrite assume_true. cbn [bind]. f_equal.
      unfold pages. rewrite Z.div_small by lia. reflexivity.
    - rewrite (roundUp_step A k f 0 f);
        [f_equal; lia | done | apply Z.divide_0_r | lia | lia
        | subst need; lia | lia]. }
  rewrite H0. cbn [bind].
  rewrite (roundUp_step A k _ (pages (2 ^ k) f0) ramSize);
    [| done | done | lia | lia | subst need; lia | reflexivity].
  cbn [bind].
  rewrite (roundUp_step A k _ (pages (2 ^ k) f0 + pages (2 ^ k) ramSize)
             nvmSize);
    [| done | by apply Z.divide_add_r | lia | lia | subst need; lia
     | reflexivity].
  cbn [bind].
  rewrite (roundUp_step A k _
             (pages (2 ^ k) f0 + pages (2 ^ k) ramSize + pages (2 ^ k) nvmSize)
             SCS);
    [| done | by repeat apply Z.divide_add_r | lia | subst need; lia
     | subst need; lia | reflexivity].
  cbn [bind].
  rewrite (roundUp_step A k _
             (pages (2 ^ k) f0 + pages (2 ^ k) ramSize + pages (2 ^ k) nvmSize
              + pages (2 ^ k) SCS)
             (argvTotal + nameSize));
    [| done | by repeat apply Z.divide_add_r | lia
     | subst need argvTotal nameSize; lia | subst need; lia | lia].
  cbn [bind].
  set (size := pages (2 ^ k) f0 + pages (2 ^ k) ramSize +
               pages (2 ^ k) nvmSize + pages (2 ^ k) SCS +
               pages (2 ^ k) (argvTotal + nameSize)).
  assert (Hsz : 0 <= size < 2 ^ 31).
  { subst size need argvTotal nameSize. lia. }
  unfold newBuffer.
  set (M := valloc _).
  destruct (Hvalloc (page_rounded (2 ^ k)
                       (to_uint (if TM then to_int (size * 2) else to_int size))))
    as (HM0 & HMdiv & HMfit).
  fold M in HM0, HMdiv, HMfit.
  assert (HMword : is_uword M) by (unfold is_uword; subst need; lia).
  rewrite (to_uint_id M HMword).
  rewrite isWordAligned_multiple, assume_true;
    [| lia | exact HMword | by etrans].
  cbn [bind].
  rewrite decide_False by lia.
  rewrite decide_False.
  2: { set (asked := if TM then to_int (size * 2) else to_int size).
       assert (Hasked : to_uint asked = if TM then size * 2 else size).
       { subst asked. destruct TM; rewrite to_uint_to_int;
           apply to_uint_id; unfold is_uword; lia. }
       rewrite page_rounded_multiple, !to_uint_to_int; [lia | lia | |].
       - apply to_uint_range.
       - rewrite Hasked. subst size.
         destruct TM; [apply Z.divide_mul_l |];
           repeat apply Z.divide_add_r; apply pages_divide. }
  rewrite decide_False by lia.
  cbn [bind].
  assert (Hn : roundUp A
                 (if FLASH then M
                  else Address_add (if FLASH then frs else M) rs)
                 (to_uint (2 ^ k)) = Returns (M + pages (2 ^ k) x0)).
  { subst f0 x0. destruct FLASH.
    - rewrite <- (to_uint_id M) at 1 by (unfold is_uword; subst need; lia).
      apply roundUp_step; try done; try lia; subst need; lia.
    - unfold Address_add.
      apply roundUp_step; try done; try lia; subst need; lia. }
  rewrite Hn. cbn [bind]. clear Hn H0.
  assert (HMneed : M + need <= 2 ^ 32) by exact HMfit.
  assert (Hneed' : f0 + ramSize + nvmSize + SCS + argvTotal + nameSize
                   + 5 * 2 ^ k = need) by reflexivity.
  clearbody need M.
  unfold Address_add.
  rewrite (roundUp_step A k _ (M + pages (2 ^ k) x0) nvmSize);
    [| done | by apply Z.divide_add_r | lia | lia | lia | reflexivity].
  cbn [bind].
  rewrite (roundUp_step A k _
             (M + pages (2 ^ k) x0 + pages (2 ^ k) nvmSize) ramSize);
    [| done | by repeat apply Z.divide_add_r | lia | lia | lia | reflexivity].
  cbn [bind].
  set (stackPage := M + pages (2 ^ k) x0 + pages (2 ^ k) nvmSize +
                    pages (2 ^ k) ramSize).
  assert (Hstack : (2 ^ k | stackPage))
    by (subst stackPage; by repeat apply Z.divide_add_r).
  rewrite (to_uint_add_l (stackPage + 2 ^ j * 2)).
  rewrite (roundUp_step A k _ stackPage SCS);
    [| done | done | subst stackPage; lia | lia | subst stackPage; lia | lia].
  cbn [bind].
  assert (Hdiff : to_int (Address_diff (stackPage + pages (2 ^ k) SCS) M)
                  = stackPage + pages (2 ^ k) SCS - M).
  { unfold Address_diff.
    rewrite to_uint_id by (unfold is_uword; subst stackPage; lia).
    apply to_int_id. unfold in_int. subst stackPage. lia. }
  rewrite Hdiff.
  destruct (writeCStringArray_spec ptr M argv
              (stackPage + pages (2 ^ k) SCS - M))
    as (stores1 & Hrun1 & _);
    [done | subst stackPage; lia | subst stackPage argvTotal; lia |].
  rewrite Hrun1. fold argvTotal.
  destruct (writeCString_spec M romFileName
              (stackPage + pages (2 ^ k) SCS - M + argvTotal))
    as (stores2 & Hrun2 & _);
    [unfold in_int; subst stackPage argvTotal; lia
    | fold nameSize; subst stackPage; lia |].
  rewrite Hrun2.
  rewrite !to_uint_id by (unfold is_uword; subst stackPage nameSize; lia).
  unfold loeq. rewrite bool_decide_eq_true_2
    by (subst stackPage size nameSize; lia).
  rewrite assume_true. cbn [bind].
  assert (Hword : forall v, (2 ^ k | v) -> (2 ^ j | v))
    by (intros v Hv; by apply (Z.divide_trans _ (2 ^ k))).
  assert (HstackW : (2 ^ j | stackPage + 2 ^ j * 2)).
  { apply Z.divide_add_r; [by apply Hword |]. exists 2. lia. }
  rewrite (isWordAligned_multiple j (if FLASH then frs else M)); [| lia | |].
  2: { destruct FLASH; [apply Hrom | unfold is_uword; lia]. }
  2: { destruct FLASH; [apply Hrom | by apply Hword]. }
  rewrite (isWordAligned_multiple j (M + pages (2 ^ k) x0));
    [| lia | unfold is_uword; lia | by apply Hword, Z.divide_add_r].
  rewrite (isWordAligned_multiple j
             (M + pages (2 ^ k) x0 + pages (2 ^ k) nvmSize));
    [| lia | unfold is_uword; lia
     | by apply Hword; repeat apply Z.divide_add_r].
  rewrite (isWordAligned_multiple j (stackPage + 2 ^ j * 2));
    [| lia | unfold is_uword; subst stackPage; lia | done].
  rewrite !assume_true. cbn [bind].
  rewrite (to_uint_id (M + pages (2 ^ k) x0 + nvmSize))
    by (unfold is_uword; lia).
  rewrite (to_uint_id (M + pages (2 ^ k) x0 + pages (2 ^ k) nvmSize + ramSize))
    by (unfold is_uword; lia).
  rewrite (to_uint_id (M + (stackPage + pages (2 ^ k) SCS - M + argvTotal)))
    by (unfold is_uword; subst stackPage; lia).
  eexists _, _, _. split; [reflexivity |].
  cbn [memory memoryEnd memorySize java_lang_VM_romStart java_lang_VM_romEnd
       java_lang_GC_nvmStart java_lang_GC_nvmEnd java_lang_GC_ramStart
       java_lang_GC_ramEnd java_lang_Thread_serviceStack java_lang_VM_argv
       java_lang_VM_romFileName].
  split.
  { destruct Hsized as [Hlen _]. unfold registered. cbn [Buffers BufferCount].
    destruct (lookup_lt_is_Some_2 (<[BufferCount r:=M]> (Buffers r))
                (BufferCount r)) as [x Hx];
      [rewrite length_insert; lia |].
    rewrite (take_S_r _ _ _ Hx).
    rewrite list_lookup_insert_eq in Hx by lia. injection Hx as <-.
    by rewrite take_insert_ge by lia. }
  split; [done |]. split; [lia |]. split; [reflexivity |].
  split; [lia |]. split; [reflexivity |].
  split; [subst stackPage; lia |]. split; [lia |].
  split; [lia |]. split; [subst size stackPage nameSize; lia |].
  split; [by apply Z.divide_add_r |].
  split; [by repeat apply Z.divide_add_r |].
  split; [by apply Z.divide_add_r |]. split; [done |].
  intros ->. subst x0 f0. cbn in *.
  rewrite to_uint_id by (unfold is_uword; lia). lia.
Qed.

Lemma setupMemory_layout_witness :
  exists l r' stores,
    setupMemory hosted (mkBootstrap 10000 0 9000 1)
      (fun _ => 65536) 20000 8192
      [String.list_ascii_of_string "-verbose";
       String.list_ascii_of_string "Main"]
      (String.list_ascii_of_string "squawk.suite")
      (mkRegistry (replicate 10 0) 0)
      = Returns (1, l, r', stores) /\
    java_lang_VM_romFileName l + 13 <= memoryEnd l.
Proof.
  destruct (setupMemory_layout hosted (mkBootstrap 10000 0 9000 1)
              (fun _ => 65536) 20000 8192
              [String.list_ascii_of_string "-verbose";
               String.list_ascii_of_string "Main"]
              (String.list_ascii_of_string "squawk.suite")
              (mkRegistry (replicate 10 0) 0) 12 2)
    as (l & r' & stores & Hrun & _ & _ & _ & _ & _ & _ & _ & _ & _ & Hend & _).
  - reflexivity.
  - reflexivity.
  - lia.
  - lia.
  - simpl. lia.
  - vm_compute. discriminate.
  - lia.
  - lia.
  - simpl. lia.
  - vm_compute. reflexivity.
  - intros n. split; [lia |]. split; [by exists 16 |]. vm_compute. discriminate.
  - split; [reflexivity | unfold MAX_BUFFERS; simpl; lia].
  - unfold MAX_BUFFERS. simpl. lia.
  - exists l, r', stores. split; [exact Hrun | exact Hend].
Defined.

End SetupFacts.

(** ** Releasing every buffer *)

Module ReleaseFacts.
Import Machine Vm Buffers BuffersFacts Release.

Lemma registered_head r :
  well_sized r -> BufferCount r <> 0%nat ->
  exists rest, registered r = (Buffers r !!! 0%nat) :: rest.
Proof.
  intros [Hlen Hcount] Hne. unfold registered, MAX_BUFFERS in *.
  destruct (Buffers r) as [| b bufs]; [simpl in Hlen; lia |].
  destruct (BufferCount r) as [| n]; [done |].
  simpl. by eexists.
Qed.

Lemma freeBuffers_loop_distinct n :
  forall r freed fuel,
    BufferCount r = n -> well_sized r -> NoDup (registered r) ->
    (n < fuel)%nat ->
    exists r',
      freeBuffers_loop fuel r freed = Some (Returns (r', freed ++ registered r))
      /\ BufferCount r' = 0%nat /\ well_sized r'.
Proof.
  induction n as [| n IH]; intros r freed fuel Hn Hsized Hnodup Hfuel;
    (destruct fuel as [| fuel]; [lia |]); simpl.
  - rewrite decide_True by done. exists r.
    unfold registered. rewrite Hn, take_0, app_nil_r. done.
  - rewrite decide_False by lia.
    destruct (registered_head r Hsized ltac:(lia)) as [rest Hreg].
    set (b := Buffers r !!! 0%nat) in *.
    assert (Hb : (b ∉ rest) /\ NoDup rest)
      by (rewrite Hreg in Hnodup; by apply NoDup_cons in Hnodup).
    destruct Hb as [Hb Hrest].
    assert (Hocc : occurrences b r = 1%nat).
    { unfold occurrences. rewrite Hreg, filter_cons_True by done.
      destruct (filter_absent b rest Hb) as [-> _]. done. }
    destruct (freeBuffer_registered_once b r Hsized Hocc)
      as (r' & before & after & Hrun & Hsized' & Hcount' & Hkept & _ & _).
    rewrite Hrun.
    assert (Hreg' : registered r' = rest).
    { rewrite Hkept, Hreg, filter_cons_False by (intros H; by apply H).
      by destruct (filter_absent b rest Hb) as [_ ->]. }
    destruct (IH r' (freed ++ [b]) fuel) as (r'' & Hloop & Hzero & Hsized'');
      [lia | done | by rewrite Hreg' | lia |].
    exists r''. rewrite Hloop, Hreg', Hreg, <- app_assoc. done.
Qed.

(** X11: when the registered buffers are all different, [freeBuffers]
    ends after one round per buffer, frees each of them once, in the
    order in which they were registered, and leaves the registry
    empty. *)
Theorem freeBuffers_frees_all r fuel :
  well_sized r -> NoDup (registered r) -> (BufferCount r < fuel)%nat ->
  exists r',
    freeBuffers fuel r = Some (Returns (r', registered r)) /\
    BufferCount r' = 0%nat /\ registered r' = [].
Proof.
  intros Hsized Hnodup Hfuel.
  destruct (freeBuffers_loop_distinct (BufferCount r) r [] fuel)
    as (r' & Hrun & Hzero & _); try done.
  exists r'. split; [exact Hrun |]. split; [done |].
  unfold registered. by rewrite Hzero, take_0.
Qed.

Lemma freeBuffers_frees_all_witness :
  exists r', freeBuffers 3 two_buffers = Some (Returns (r', [4096; 8192]%Z)).
Proof.
  destruct (freeBuffers_frees_all two_buffers 3) as (r' & Hrun & _).
  - split; [reflexivity | unfold MAX_BUFFERS; simpl; lia].
  - apply (bool_decide_unpack _). vm_compute. exact I.
  - simpl. lia.
  - exists r'. exact Hrun.
Defined.

End ReleaseFacts.

(** ** Preformatting of format specifications *)

Module FormatFacts.
Import Machine Args ArgsFacts Copy CopyFacts Format.

Lemma FORMAT_64_length bd : (2 <= length (FORMAT_64 bd) <= 3)%nat.
Proof. unfold FORMAT_64. destruct (MSC_VER bd); simpl; lia. Qed.

Lemma take_strlen_c_string s : c_string s -> take (strlen s) s = s.
Proof.
  unfold c_string. induction s as [| ch s IH]; intros Hs; [done |].
  simpl. apply not_elem_of_cons in Hs as [Hch Hs].
  rewrite decide_False by done. simpl. by rewrite IH.
Qed.

Lemma format_loop_plain bd fmt :
  forall buf,
    "%"%char ∉ fmt -> (length buf + length fmt < FORMAT_BUF_LEN)%nat ->
    format_loop bd fmt buf = Formatted (buf ++ fmt ++ [NUL]).
Proof.
  unfold FORMAT_BUF_LEN.
  induction fmt as [| ch fmt IH]; intros buf Hpct Hlen; simpl in *.
  - unfold store, FORMAT_BUF_LEN. simpl. by rewrite decide_True by lia.
  - apply not_elem_of_cons in Hpct as [Hch Hpct].
    rewrite bool_decide_eq_true_2 by lia. rewrite andb_false_r.
    rewrite decide_True by done.
    unfold store, FORMAT_BUF_LEN. simpl. rewrite decide_True by lia.
    rewrite IH by (try done; rewrite length_app; simpl; lia).
    by rewrite <- app_assoc.
Qed.

(** X12: a format specification without [%] that is shorter than the
    buffer is returned as it is. *)
Theorem format_plain_identity bd fmt :
  c_string fmt -> "%"%char ∉ fmt -> (length fmt < FORMAT_BUF_LEN)%nat ->
  format bd fmt = Formatted (fmt ++ [NUL]).
Proof.
  intros Hs Hpct Hlen. unfold format. rewrite take_strlen_c_string by done.
  by rewrite format_loop_plain.
Qed.

Lemma format_plain_identity_witness :
  format (mkFormatBuild false false true)
         (String.list_ascii_of_string "Squawk VM")
    = Formatted (String.list_ascii_of_string "Squawk VM" ++ [NUL]).
Proof.
  apply format_plain_identity.
  - unfold c_string. apply (bool_decide_unpack _). vm_compute. exact I.
  - apply (bool_decide_unpack _). vm_compute. exact I.
  - unfold FORMAT_BUF_LEN. simpl. lia.
Defined.

Lemma format_loop_fits bd :
  forall n fmt buf,
    length fmt = n ->
    (2 * length buf + (2 + length (FORMAT_64 bd)) * n + 2
     <= 2 * FORMAT_BUF_LEN)%nat ->
    exists out,
      format_loop bd fmt buf = Formatted (buf ++ out) /\
      (n < length out)%nat /\
      (2 * length (buf ++ out)
       <= 2 * length buf + (2 + length (FORMAT_64 bd)) * n + 2)%nat /\
      last out = Some NUL.
Proof.
  pose proof (FORMAT_64_length bd) as H64. unfold FORMAT_BUF_LEN.
  remember (length (FORMAT_64 bd)) as m eqn:Hm.
  assert (Hcases : m = 2%nat \/ m = 3%nat) by lia.
  intros n. induction (lt_wf n) as [n _ IH]. intros fmt buf Hn Hfit.
  destruct fmt as [| ch fmt']; cbn [format_loop]; simpl in Hn.
  - subst n. unfold store, FORMAT_BUF_LEN. simpl length.
    rewrite decide_True by lia. exists [NUL].
    rewrite length_app. simpl length.
    split; [done |]. split; [lia |]. split; [lia | done].
  - rewrite bool_decide_eq_true_2 by lia. rewrite andb_false_r.
    destruct (decide (ch <> "%"%char)) as [Hch | Hch].
    + unfold store at 1. unfold FORMAT_BUF_LEN. simpl length.
      rewrite decide_True by lia.
      destruct (IH (length fmt') ltac:(lia) fmt' (buf ++ [ch]) eq_refl)
        as (out & Hrun & Hlen & Hbound & Hlast).
      { rewrite length_app. simpl length. destruct Hcases; subst m; lia. }
      exists (ch :: out). rewrite Hrun, <- app_assoc.
      rewrite !length_app in *. simpl length in *.
      split; [done |]. split; [lia |].
      split; [destruct Hcases; subst m; lia |].
      destruct out; [simpl in Hlen; lia | done].
    + destruct fmt' as [| c fmt'']; simpl in Hn.
      * unfold store, FORMAT_BUF_LEN. simpl length.
        rewrite decide_True by (destruct Hcases; subst m; lia).
        rewrite length_app. simpl length.
        rewrite decide_True by (destruct Hcases; subst m; lia).
        exists ["%"%char; NUL; NUL]. rewrite <- app_assoc.
        rewrite !length_app. simpl length. subst n.
        split; [done |]. split; [lia |].
        split; [destruct Hcases; subst m; lia | done].
      * set (spec := if decide (c = "A"%char) then _ else _).
        assert (Hspec : (1 <= length spec <= 1 + m)%nat).
        { subst spec. repeat case_decide; try destruct (SQUAWK_64 bd);
            rewrite ?length_app, <- ?Hm; simpl length; lia. }
        unfold store at 1. unfold FORMAT_BUF_LEN. simpl length.
        rewrite decide_True by (destruct Hcases; subst m; lia).
        destruct (IH (length fmt'') ltac:(lia) fmt''
                     (buf ++ "%"%char :: spec) eq_refl)
          as (out & Hrun & Hlen & Hbound & Hlast).
        { rewrite length_app. simpl length. destruct Hcases; subst m; lia. }
        exists ("%"%char :: spec ++ out).
        rewrite Hrun, <- app_assoc.
        rewrite !length_app in *. simpl length in *. rewrite !length_app in *.
        split; [done |]. split; [lia |].
        split; [destruct Hcases; subst m; lia |].
        rewrite last_cons, last_app, Hlast. done.
Qed.

(** X13: a format specification of [n] characters is preformatted
    without a store outside the buffer and without a failed assumption
    when [(2 + f) * n + 2] is at most twice the size of the buffer,
    [f] being the number of characters of [FORMAT_64]: up to 499
    characters where [FORMAT_64] is [ll], up to 399 where it is [I64].
    The result is longer than the specification and ends with the
    terminator. *)
Theorem format_fits_buffer bd fmt :
  ((2 + length (FORMAT_64 bd)) * strlen fmt + 2 <= 2 * FORMAT_BUF_LEN)%nat ->
  exists out,
    format bd fmt = Formatted out /\
    (strlen fmt < length out <= FORMAT_BUF_LEN)%nat /\
    last out = Some NUL.
Proof.
  intros Hfit. unfold format.
  assert (Hlen : length (take (strlen fmt) fmt) = strlen fmt).
  { rewrite length_take. pose proof (strlen_le fmt). lia. }
  destruct (format_loop_fits bd (strlen fmt) (take (strlen fmt) fmt) [] Hlen)
    as (out & Hrun & Hlonger & Hbound & Hlast); [simpl length; lia |].
  exists out. simpl length in *. simpl app in *.
  split; [done |]. split; [lia | done].
Qed.

Lemma format_fits_buffer_witness :
  exists out,
    format (mkFormatBuild false false true)
           (String.list_ascii_of_string "at %A: %L") = Formatted out /\
    last out = Some NUL.
Proof.
  destruct (format_fits_buffer (mkFormatBuild false false true)
              (String.list_ascii_of_string "at %A: %L"))
    as (out & Hrun & _ & Hlast).
  - unfold FORMAT_BUF_LEN. simpl. lia.
  - exists out. split; [exact Hrun | exact Hlast].
Defined.

End FormatFacts.

(** ** 64-bit values as two [int] halves *)

Module HalvesFacts.
Import Machine MachineFacts Halves.
Local Open Scope Z_scope.

Lemma to_uint_of_int z : to_uint (to_int z) = z mod 2 ^ 32.
Proof.
  unfold to_uint, to_int, wrap_unsigned, wrap_signed.
  rewrite Zminus_mod_idemp_l. f_equal. lia.
Qed.

Lemma to_int_mod z : to_int z mod 2 ^ 32 = z mod 2 ^ 32.
Proof. apply to_uint_of_int. Qed.

Lemma split_halves x :
  x = x / 2 ^ 32 * 2 ^ 32 + x mod 2 ^ 32 /\ 0 <= x mod 2 ^ 32 < 2 ^ 32.
Proof.
  pose proof (Z.div_mod x (2 ^ 32) ltac:(lia)).
  pose proof (Z.mod_pos_bound x (2 ^ 32) ltac:(lia)). lia.
Qed.

Lemma makeLong_value high low :
  in_int high -> makeLong high low = high * 2 ^ 32 + low mod 2 ^ 32.
Proof.
  intros Hh. unfold makeLong, in_int in *.
  change 0xFFFFFFFF with (Z.ones 32). rewrite Z.land_ones by lia.
  pose proof (Z.mod_pos_bound low (2 ^ 32) ltac:(lia)) as Hl.
  rewrite (to_jlong_id (Z.shiftl high 32))
    by (rewrite Z.shiftl_mul_pow2 by lia; unfold in_jlong; lia).
  rewrite lor_shiftl_low by lia.
  apply to_jlong_id. unfold in_jlong. lia.
Qed.

(** X14: the two halves that [INTERNAL_GETTIME_HIGH] and
    [INTERNAL_GETTIME_LOW] return for one reading of the clock are put
    together again by [makeLong]: the result is the reading. *)
Theorem gettime_halves_make_the_time t :
  in_jlong t ->
  let '(high, lastTime) := GETTIME_HIGH t in
  makeLong high (GETTIME_LOW lastTime) = t.
Proof.
  intros Ht. unfold GETTIME_HIGH, GETTIME_LOW, wrap_unsigned, in_jlong in *.
  set (u := t mod 2 ^ 64).
  assert (Hu : 0 <= u < 2 ^ 64) by (apply Z.mod_pos_bound; lia).
  destruct (split_halves u) as [Hsplit Hlow].
  rewrite Z.shiftr_div_pow2 by lia.
  assert (Hq : 0 <= u / 2 ^ 32 < 2 ^ 32).
  { split; [apply Z.div_pos; lia | apply Z.div_lt_upper_bound; lia]. }
  pose proof (wrap_signed_range 32 (u / 2 ^ 32) ltac:(lia)) as Hr.
  rewrite makeLong_value by (unfold in_int, to_int; simpl in Hr; lia).
  rewrite to_int_mod.
  destruct (Z.lt_ge_cases t 0) as [Hneg | Hpos].
  - assert (Hut : u = t + 2 ^ 64).
    { subst u. replace t with (t + 2 ^ 64 + (-1) * 2 ^ 64) at 1 by lia.
      rewrite Z.mod_add by lia. apply Z.mod_small. lia. }
    assert (Hhi : 2 ^ 31 <= u / 2 ^ 32).
    { apply Z.div_le_lower_bound; lia. }
    assert (Hw : to_int (u / 2 ^ 32) = u / 2 ^ 32 - 2 ^ 32).
    { unfold to_int, wrap_signed.
      replace (u / 2 ^ 32 + 2 ^ (32 - 1))
        with (u / 2 ^ 32 - 2 ^ 31 + 1 * 2 ^ 32) by lia.
      rewrite Z.mod_add by lia. rewrite Z.mod_small by lia. lia. }
    rewrite Hw. lia.
  - assert (Hut : u = t) by (subst u; apply Z.mod_small; lia).
    assert (Hhi : u / 2 ^ 32 < 2 ^ 31).
    { apply Z.div_lt_upper_bound; lia. }
    rewrite to_int_id by (unfold in_int; lia). lia.
Qed.

Lemma gettime_halves_make_the_time_witness :
  let '(high, lastTime) := GETTIME_HIGH (- 5) in
  makeLong high (GETTIME_LOW lastTime) = - 5.
Proof.
  apply (gettime_halves_make_the_time (- 5)). unfold in_jlong. lia.
Defined.

(** X15: a counter stored with [setLongCounter] is read back by
    [getLongCounter] as the same 64 bits: a non-negative value comes
    back as it is, a negative one as the unsigned value with the same
    bits. *)
Theorem long_counter_round_trip x :
  in_jlong x ->
  let '(high, low) := setLongCounter x in
  getLongCounter high low = wrap_unsigned 64 x /\
  to_jlong (getLongCounter high low) = x.
Proof.
  intros Hx. unfold setLongCounter, getLongCounter, in_jlong in *.
  rewrite !to_uint_of_int. rewrite Z.shiftr_div_pow2 by lia.
  destruct (split_halves x) as [Hsplit Hlow].
  pose proof (Z.mod_pos_bound (x / 2 ^ 32) (2 ^ 32) ltac:(lia)) as Hhigh.
  assert (Hq : - 2 ^ 31 <= x / 2 ^ 32 < 2 ^ 31).
  { split; [apply Z.div_le_lower_bound; lia
           | apply Z.div_lt_upper_bound; lia]. }
  assert (Hshift : wrap_unsigned 64 (Z.shiftl ((x / 2 ^ 32) mod 2 ^ 32) 32)
                   = Z.shiftl ((x / 2 ^ 32) mod 2 ^ 32) 32).
  { unfold wrap_unsigned. rewrite Z.shiftl_mul_pow2 by lia.
    apply Z.mod_small. lia. }
  rewrite Hshift, lor_shiftl_low by lia.
  assert (Hval : (x / 2 ^ 32) mod 2 ^ 32 * 2 ^ 32 + x mod 2 ^ 32
                 = wrap_unsigned 64 x).
  { unfold wrap_unsigned.
    destruct (Z.lt_ge_cases x 0) as [Hneg | Hpos].
    - assert ((x / 2 ^ 32) mod 2 ^ 32 = x / 2 ^ 32 + 2 ^ 32) as ->.
      { replace (x / 2 ^ 32) with (x / 2 ^ 32 + 2 ^ 32 + (-1) * 2 ^ 32) at 1
          by lia.
        rewrite Z.mod_add by lia. apply Z.mod_small.
        assert (x / 2 ^ 32 < 0) by (apply Z.div_lt_upper_bound; lia). lia. }
      replace x with (x + 2 ^ 64 + (-1) * 2 ^ 64) at 3 by lia.
      rewrite Z.mod_add by lia. rewrite (Z.mod_small (x + 2 ^ 64)) by lia.
      lia.
    - assert (0 <= x / 2 ^ 32) by (apply Z.div_pos; lia).
      rewrite (Z.mod_small (x / 2 ^ 32)) by lia.
      rewrite (Z.mod_small x (2 ^ 64)) by lia. lia. }
  rewrite Hval. split; [reflexivity |].
  unfold to_jlong, wrap_signed, wrap_unsigned.
  rewrite Zplus_mod_idemp_l.
  replace (x + 2 ^ (64 - 1)) with (x + 2 ^ 63) by lia.
  rewrite Z.mod_small by lia. lia.
Qed.

Lemma long_counter_round_trip_witness :
  let '(high, low) := setLongCounter (2 ^ 40 + 7) in
  getLongCounter high low = wrap_unsigned 64 (2 ^ 40 + 7) /\
  to_jlong (getLongCounter high low) = 2 ^ 40 + 7.
Proof.
  apply (long_counter_round_trip (2 ^ 40 + 7)). unfold in_jlong. lia.
Defined.

End HalvesFacts.

(** ** Sequences of requests *)

Module Eb40aRunsFacts.
Import Machine MachineFacts Eb40aIO Eb40aIOFacts Eb40aRuns.
Local Open Scope Z_scope.

Lemma ascending_weaken n m q : n <= m -> ascending n q -> ascending m q.
Proof.
  intros Hnm [Hall Hasc]. split; [| done].
  eapply Forall_impl; [exact Hall |]. simpl. intros r Hr. lia.
Qed.

Lemma ascending_next n q :
  0 <= n -> n + 1 < 2 ^ 31 -> ascending n q ->
  0 < next_event_number q <= n + 1.
Proof.
  intros Hn0 Hn [Hall _].
  unfold next_event_number. destruct (last q) as [r |] eqn:Hlast; [| lia].
  rewrite last_lookup in Hlast. apply list_elem_of_lookup_2 in Hlast.
  rewrite Forall_forall in Hall. apply Hall in Hlast.
  rewrite to_int_id by (unfold in_int; lia). lia.
Qed.

Lemma ascending_app_next n q m :
  0 <= n -> n + 1 < 2 ^ 31 -> ascending n q ->
  ascending (n + 1) (q ++ [mkSwitchRequest (next_event_number q) m]).
Proof.
  intros Hn0 Hn [Hall Hasc].
  assert (Hnext : forall r, r ∈ q -> eventNumber r < next_event_number q
                                     /\ next_event_number q <= n + 1).
  { intros r Hr. unfold next_event_number.
    destruct (last q) as [l |] eqn:Hlast.
    - rewrite last_lookup in Hlast.
      pose proof (list_elem_of_lookup_2 _ _ _ Hlast) as Hl.
      rewrite Forall_forall in Hall. pose proof (Hall _ Hl) as Hlb.
      rewrite to_int_id by (unfold in_int; lia).
      apply list_elem_of_lookup in Hr as [i Hi].
      pose proof (lookup_lt_Some _ _ _ Hi) as Hlt.
      destruct (decide (i = pred (length q))) as [-> | Hne].
      + rewrite Hi in Hlast. injection Hlast as ->. lia.
      + pose proof (Hasc i (pred (length q)) r l ltac:(lia) Hi Hlast). lia.
    - apply last_None in Hlast. subst q. by apply elem_of_nil in Hr. }
  split.
  - apply Forall_app. split.
    + eapply Forall_impl; [exact Hall |]. simpl. intros r Hr. lia.
    + constructor; [| done]. simpl.
      by apply ascending_next.
  - intros i j ri rj Hij Hi Hj.
    pose proof (lookup_lt_Some _ _ _ Hj) as Hjlt.
    rewrite length_app in Hjlt. simpl in Hjlt.
    rewrite lookup_app_l in Hi by lia.
    destruct (decide (j = length q)) as [-> | Hne].
    + rewrite lookup_app_r in Hj by lia.
      rewrite Nat.sub_diag in Hj. injection Hj as <-. simpl.
      apply Hnext. by eapply list_elem_of_lookup_2.
    + rewrite lookup_app_l in Hj by lia. exact (Hasc i j ri rj Hij Hi Hj).
Qed.

Lemma ascending_remove n before r after :
  ascending n (before ++ r :: after) -> ascending n (before ++ after).
Proof.
  intros [Hall Hasc]. split.
  - rewrite Forall_app in *. destruct Hall as [Hb Ha].
    split; [done |]. by inversion Ha.
  - assert (Hskip : forall (i : nat) x,
              (before ++ after) !! i = Some x ->
              (before ++ r :: after) !!
                (if decide (i < length before)%nat then i else S i) = Some x).
    { intros i x Hi. case_decide.
      - rewrite lookup_app_l in * by lia. done.
      - rewrite lookup_app_r in * by lia.
        replace (S i - length before)%nat with (S (i - length before))
          by lia. done. }
    intros i j ri rj Hij Hi Hj.
    apply Hskip in Hi. apply Hskip in Hj.
    eapply Hasc; [| exact Hi | exact Hj].
    repeat case_decide; lia.
Qed.

Lemma ioExecute_ascending cc w fuel o i1 i2 st res st' n :
  0 <= n -> n + 1 < 2 ^ 31 -> ascending n (switchRequests st) ->
  spares_queue (mkRequest w fuel o i1 i2) ->
  ioExecute cc w fuel o i1 i2 st = Some (res, st') ->
  ascending (n + 1) (switchRequests st').
Proof.
  intros Hn0 Hn Hasc Hspares Hrun.
  assert (Hkeep : ascending (n + 1) (switchRequests st))
    by (eapply ascending_weaken; [| exact Hasc]; lia).
  destruct o; simpl in Hrun;
    try (injection Hrun as <- <-; exact Hkeep).
  - repeat case_match; injection Hrun as <- <-; exact Hkeep.
  - destruct (sw_is_pressed w 0%nat i1); [injection Hrun as <- <-; exact Hkeep |].
    destruct (malloc_ok w).
    + rewrite storeSwitchRequest_ok in Hrun. injection Hrun as <- <-.
      simpl. by apply ascending_app_next.
    + rewrite storeSwitchRequest_failed in Hrun. injection Hrun as <- <-.
      exact Hkeep.
  - specialize (Hspares eq_refl (to_uint i1) (to_uint i2) (switchRequests st)
                        (retValue st)).
    cbn [world] in Hspares.
    destruct (poke_word w (to_uint i1) (to_uint i2)
                        (switchRequests st, retValue st)) as [q ret].
    injection Hrun as <- <-. simpl in *. by subst q.
  - destruct (first_pressed_or_none (sw_is_pressed w 0%nat) (switchRequests st))
      as [Hnone | (before & r & after & Hq & Hbefore & Hr)].
    + unfold getEvent in Hrun. rewrite getEventPrim_none in Hrun by done.
      injection Hrun as <- <-. exact Hkeep.
    + unfold getEvent in Hrun. rewrite Hq in Hrun.
      rewrite getEventPrim_first in Hrun by done.
      injection Hrun as <- <-. simpl.
      rewrite Hq in Hkeep. by eapply ascending_remove.
  - case_match; [| done]. injection Hrun as <- <-. exact Hkeep.
Qed.

Lemma ioExecute_all_ascending cc reqs :
  forall st results st' n,
    0 <= n -> n + Z.of_nat (length reqs) < 2 ^ 31 ->
    ascending n (switchRequests st) ->
    Forall spares_queue reqs ->
    ioExecute_all cc reqs st = Some (results, st') ->
    ascending (n + Z.of_nat (length reqs)) (switchRequests st').
Proof.
  induction reqs as [| r reqs IH];
    intros st results st' n Hn0 Hn Hasc Hspare Hrun.
  - simpl in *. injection Hrun as <- <-.
    eapply ascending_weaken; [| exact Hasc]. lia.
  - apply Forall_cons in Hspare as [Hr Hspare]. simpl in Hrun.
    destruct (ioExecute cc (world r) (rounds r) (op r) (arg1 r) (arg2 r) st)
      as [[res st1] |] eqn:Hone; [| done].
    simpl in Hrun.
    destruct (ioExecute_all cc reqs st1) as [[results' st2] |] eqn:Hrest;
      [| done].
    simpl in Hrun. injection Hrun as <- <-.
    simpl length in *.
    replace (n + Z.of_nat (S (length reqs)))
      with (n + 1 + Z.of_nat (length reqs)) by lia.
    eapply IH; [lia | lia | | exact Hspare | exact Hrest].
    eapply ioExecute_ascending; [| | exact Hasc | | exact Hone];
      [lia | lia | by destruct r].
Qed.

(** X16: after any sequence of fewer than [2^31 - 1] requests made from
    the state with no request pending, none of them a poke whose store
    lands in the queue, the pending requests have event numbers that
    are positive and all different, so that no event number is
    mistaken for the 0 that says there is no event, and an event
    number names one request. *)
Theorem pending_event_numbers_distinct cc reqs results st :
  Z.of_nat (length reqs) < 2 ^ 31 - 1 ->
  Forall spares_queue reqs ->
  ioExecute_all cc reqs idle = Some (results, st) ->
  Forall (fun r => 0 < eventNumber r <= Z.of_nat (length reqs))
         (switchRequests st) /\
  NoDup (eventNumber <$> switchRequests st).
Proof.
  intros Hlen Hspare Hrun.
  destruct (ioExecute_all_ascending cc reqs idle results st 0) as [Hall Hasc];
    [lia | lia | split; [constructor | by intros i j ri rj _ Hi] | done | done |].
  split; [exact Hall |].
  apply NoDup_alt. intros i j x Hi Hj.
  rewrite list_lookup_fmap in Hi, Hj.
  destruct (switchRequests st !! i) as [ri |] eqn:Hri; [| done].
  destruct (switchRequests st !! j) as [rj |] eqn:Hrj; [| done].
  simpl in *. injection Hi as Hi. injection Hj as Hj.
  destruct (Nat.lt_trichotomy i j) as [Hlt | [Heq | Hgt]]; [| done |].
  - pose proof (Hasc i j ri rj Hlt Hri Hrj). lia.
  - pose proof (Hasc j i rj ri Hgt Hrj Hri). lia.
Qed.

Lemma pending_event_numbers_distinct_witness :
  NoDup (eventNumber <$> [mkSwitchRequest 1 1; mkSwitchRequest 2 2]).
Proof.
  pose (up := board true (fun _ => false) (fun _ => 0)).
  assert (Hspare : Forall spares_queue
                     [mkRequest up 0 SW_READ 1 0; mkRequest up 0 POKE 64 1;
                      mkRequest up 0 SW_READ 2 0]).
  { repeat constructor; intros Hop; (discriminate Hop || reflexivity). }
  exact (proj2 (pending_event_numbers_distinct cc0
                  [mkRequest up 0 SW_READ 1 0; mkRequest up 0 POKE 64 1;
                   mkRequest up 0 SW_READ 2 0]
                  [1; 0; 2]
                  (mkIOState [mkSwitchRequest 1 1; mkSwitchRequest 2 2] 0
                             [PokeWord 64 1])
                  ltac:(simpl; lia) Hspare eq_refl)).
Defined.

(** A poke that lands on the [eventNumber] of a pending record
    renumbers it: the queue then holds the number 0, and the next
    request gets the number 1 again. *)
Example poke_renumbers_pending_record :
  ioExecute_all cc0
    [mkRequest record_at_4096 0 SW_READ 1 0;
     mkRequest record_at_4096 0 POKE 4096 0;
     mkRequest record_at_4096 0 SW_READ 2 0] idle =
    Some ([1; 0; 1],
          mkIOState [mkSwitchRequest 0 1; mkSwitchRequest 1 2] 0
                    [PokeWord 4096 0]).
Proof. vm_compute. reflexivity. Qed.

Lemma filter_pressed_split (pressed : Z -> bool) before r after :
  Forall (not_pressed pressed) before -> pressed (mask r) = true ->
  filter (fun x => pressed (mask x) = true) (before ++ r :: after) =
    r :: filter (fun x => pressed (mask x) = true) (before ++ after) /\
  filter (fun x => pressed (mask x) = false) (before ++ r :: after) =
    filter (fun x => pressed (mask x) = false) (before ++ after).
Proof.
  intros Hbefore Hr. rewrite !filter_app.
  assert (Hnone : filter (fun x => pressed (mask x) = true) before = []).
  { induction Hbefore as [| c before Hc _ IH]; [done |].
    unfold not_pressed in Hc.
    rewrite filter_cons_False by (rewrite Hc; done). exact IH. }
  rewrite Hnone. simpl.
  rewrite filter_cons_True by done.
  rewrite (filter_cons_False _ r) by (rewrite Hr; done). done.
Qed.

Lemma getEvent_times_spec pressed n :
  forall q,
    length (filter (fun r => pressed (mask r) = true) q) = n ->
    getEvent_times pressed n q =
      (eventNumber <$> filter (fun r => pressed (mask r) = true) q,
       filter (fun r => pressed (mask r) = false) q).
Proof.
  induction n as [| n IH]; intros q Hn.
  - apply length_zero_iff_nil in Hn. rewrite Hn. simpl. f_equal.
    destruct (first_pressed_or_none pressed q)
      as [Hnone | (before & r & after & -> & Hbefore & Hr)].
    + symmetry. clear Hn. induction Hnone as [| c q Hc _ IH]; [done |].
      unfold not_pressed in Hc. rewrite filter_cons_True by done.
      by rewrite IH.
    + destruct (filter_pressed_split pressed before r after Hbefore Hr)
        as [Hsplit _].
      rewrite Hsplit in Hn. done.
  - destruct (first_pressed_or_none pressed q)
      as [Hnone | (before & r & after & -> & Hbefore & Hr)].
    + exfalso. clear IH. induction Hnone as [| c q Hc _ IH]; [done |].
      unfold not_pressed in Hc.
      rewrite filter_cons_False in Hn by (rewrite Hc; done). by apply IH.
    + destruct (filter_pressed_split pressed before r after Hbefore Hr)
        as [Hp Hnp].
      simpl. unfold getEvent. rewrite getEventPrim_first by done.
      rewrite Hp in Hn. simpl in Hn.
      rewrite IH by lia. by rewrite Hp, Hnp.
Qed.

(** X17: while the switches stay as they are, as many calls of
    [getEvent] as there are pending requests with a pressed switch
    return the event numbers of these requests in the order in which
    they were made, and leave the other requests pending, in order; one
    more call returns 0 and changes nothing. *)
Theorem getEvent_drains_in_order pressed q :
  let hits := filter (fun r => pressed (mask r) = true) q in
  let rest := filter (fun r => pressed (mask r) = false) q in
  getEvent_times pressed (length hits) q = (eventNumber <$> hits, rest) /\
  getEvent pressed rest = (0, rest).
Proof.
  intros hits rest. split; [by apply getEvent_times_spec |].
  apply getEventPrim_none. subst rest.
  apply Forall_forall. intros r Hr.
  by apply list_elem_of_filter in Hr as [Hr _].
Qed.

(** X18: at a clock that is not negative, a wait request whose sum of
    clock and requested time is not positive, or is the largest 64-bit
    value or more, never returns while no round finds an event:
    whatever number of rounds is granted, it is still polling. *)
Theorem wait_without_deadline_never_returns cc w i1 i2 st :
  let now := getMilliseconds w 0%nat in
  in_int i1 -> (forall k, in_jlong (getMilliseconds w k)) -> 0 <= now ->
  now + requested i1 i2 <= 0 \/ maxValue <= now + requested i1 i2 ->
  (forall k, ~ event_seen w (switchRequests st) k) ->
  forall fuel, ioExecute cc w fuel GLOBAL_WAITFOREVENT i1 i2 st = None.
Proof.
  intros now Hi1 Hclock Hnow0 Hsum Hnone fuel.
  destruct (ioExecute cc w fuel GLOBAL_WAITFOREVENT i1 i2 st)
    as [r |] eqn:Hrun; [| done].
  exfalso.
  apply wait_request_result in Hrun as [_ (k & by_event & Hloop)].
  apply wait_loop_sound in Hloop as (_ & _ & Hlast).
  destruct by_event; [by apply (Hnone k) |].
  destruct Hlast as [_ Hpast]. unfold deadline_passed in Hpast.
  assert (Htarget : wait_target now i1 i2 = maxValue).
  { rewrite wait_target_cases by done.
    pose proof (requested_range i1 i2 Hi1) as Hreq.
    pose proof (Hclock 0%nat) as Hnow. fold now in Hnow.
    unfold in_jlong, maxValue in *.
    destruct Hsum as [Hle | Hge].
    - rewrite to_jlong_id by (unfold in_jlong; lia).
      destruct (Z.ltb_spec 0 (now + requested i1 i2)); [lia | done].
    - destruct (decide (now + requested i1 i2 = 2 ^ 63 - 1)) as [-> | Hne].
      + reflexivity.
      + rewrite to_jlong_overflow by lia.
        destruct (Z.ltb_spec 0 (now + requested i1 i2 - 2 ^ 64));
          [lia | done]. }
  fold now in Hpast. rewrite Htarget in Hpast.
  pose proof (Hclock (S k)) as Hk. unfold in_jlong, maxValue in *. lia.
Qed.

Lemma wait_without_deadline_never_returns_witness :
  ioExecute cc0 (board true (fun _ => false) (fun _ => 1000)) 100
            GLOBAL_WAITFOREVENT (2 ^ 31 - 1) (-1) idle = None.
Proof.
  apply (wait_without_deadline_never_returns cc0
           (board true (fun _ => false) (fun _ => 1000))
           (2 ^ 31 - 1) (-1) idle).
  - unfold in_int. lia.
  - intros k. unfold in_jlong. simpl. lia.
  - simpl. lia.
  - right. vm_compute. discriminate.
  - intros k. unfold event_seen. simpl. congruence.
Defined.

End Eb40aRunsFacts.

(** ** The breakpoint flag and the client *)

Module DebugRunsFacts.
Import Machine MachineFacts Vm Debug DebugFacts DebugRuns.
Local Open Scope Z_scope.

Lemma clear_scan_false n :
  forall i table b,
    clear_scan n i table b = false ->
    (n = 0%nat /\ b = false) \/
    (0 < n)%nat /\ forall k, (i <= k < i + n)%nat -> table !!! k = 0.
Proof.
  induction n as [| n IH]; intros i table b Hscan; simpl in Hscan.
  - by left.
  - right. split; [lia |].
    destruct (decide (table !!! i = 0)) as [Hz | Hnz]; [| done].
    intros k Hk. destruct (decide (k = i)) as [-> | Hne]; [done |].
    apply IH in Hscan as [[-> _] | [_ Hrest]]; [lia |].
    apply Hrest. lia.
Qed.

Lemma all_zero_replicate (table : list Z) n :
  length table = n -> (forall k, (k < n)%nat -> table !!! k = 0) ->
  table = replicate n 0.
Proof.
  intros Hlen Hall. apply list_eq. intros k.
  destruct (decide (k < n)%nat) as [Hk | Hk].
  - rewrite lookup_replicate_2 by done.
    destruct (lookup_lt_is_Some_2 table k ltac:(lia)) as [x Hx].
    rewrite Hx. f_equal.
    rewrite <- (Hall k Hk). symmetry. by apply list_lookup_total_correct.
  - rewrite lookup_ge_None_2 by lia.
    symmetry. apply lookup_replicate_None. lia.
Qed.

Lemma db_process_break_cmd_flag bd ops mem subcmd bpnum addr st st' :
  consistent st ->
  db_process_break_cmd bd ops mem subcmd bpnum addr st = Returns st' ->
  flag_covers st'.
Proof.
  intros Hst Hrun. pose proof Hst as [[Htable Hips] Hpacked].
  unfold db_process_break_cmd in Hrun.
  destruct (decide (bpnum < 0 \/ Z.of_nat DB_MAX_BPS <= bpnum)); [done |].
  destruct (decide (subcmd = "S"%char)).
  { injection Hrun as <-.
    match goal with
    | |- context [mkDbState _ ?b ?t _ _] =>
        destruct (regenerate_consistent st b t Hst) as (_ & _ & Hflag & _)
    end; [by rewrite length_insert |].
    unfold flag_covers. rewrite Hflag. done. }
  destruct (decide (subcmd = "C"%char)); [| done].
  set (table := <[Z.to_nat bpnum:=0]> (db_bp_table st)) in *.
  remember (clear_scan DB_MAX_BPS 0 table (db_bp_set st)) as flag eqn:Hscan.
  injection Hrun as <-.
  destruct (regenerate_consistent st flag table Hst) as (_ & Htab & Hflag & _);
    [by subst table; rewrite length_insert |].
  unfold flag_covers. rewrite Hflag, Htab. intros ->. symmetry in Hscan.
  apply clear_scan_false in Hscan as [[Hn _] | [_ Hall]]; [done |].
  apply all_zero_replicate; [by subst table; rewrite length_insert |].
  intros k Hk. apply Hall. lia.
Qed.

Lemma db_process_data_cmd_flag line st st' :
  flag_covers st -> db_process_data_cmd line st = Returns st' ->
  flag_covers st'.
Proof.
  intros Hflag Hcmd. unfold db_process_data_cmd in Hcmd.
  repeat case_decide; try done; by injection Hcmd as <-.
Qed.

Lemma client_loop_flag bd ops mem input :
  forall held st st' rest,
    consistent st -> flag_covers st ->
    client_loop bd ops mem held input st = Returns (st', rest) ->
    flag_covers st'.
Proof.
  induction input as [| line input IH]; intros held st st' rest Hst Hflag Hrun;
    simpl in Hrun; [done |].
  repeat case_decide; try done.
  - pose proof (db_process_break_cmd_consistent
                  bd ops mem (subcmd line) (num1 line) (num2 line) st Hst) as Hb.
    destruct (db_process_break_cmd bd ops mem (subcmd line) (num1 line)
                                   (num2 line) st) as [st1 | | | |] eqn:Hcmd;
      simpl in Hrun; try done.
    destruct Hb as [Hst1 _].
    eapply IH; [exact Hst1 | | exact Hrun].
    eapply db_process_break_cmd_flag; [exact Hst | exact Hcmd].
  - by injection Hrun as <- <-.
  - pose proof (db_process_data_cmd_consistent line st Hst) as Hd.
    destruct (db_process_data_cmd line st) as [st1 | | | |] eqn:Hcmd;
      simpl in Hrun; try done.
    destruct Hd as [Hst1 _].
    eapply IH; [exact Hst1 | | exact Hrun].
    by eapply db_process_data_cmd_flag.
Qed.

Lemma db_process_client_commands_flag bd ops mem input st st' rest :
  consistent st -> flag_covers st ->
  db_process_client_commands bd ops mem input st = Returns (st', rest) ->
  flag_covers st'.
Proof. apply client_loop_flag. Qed.

Lemma checkBreak_loop_flag bd ops mem fuel :
  forall i actual_ip input st st' rest,
    consistent st -> flag_covers st ->
    (i <= DB_MAX_BPS)%nat -> (DB_MAX_BPS < i + fuel)%nat ->
    checkBreak_loop bd ops mem fuel i actual_ip input st = Returns (st', rest) ->
    flag_covers st'.
Proof.
  induction fuel as [| fuel IH];
    intros i actual_ip input st st' rest Hst Hflag Hi Hfuel Hrun; [lia |].
  pose proof Hst as [[Htable Hips] Hpacked].
  rewrite checkBreak_loop_step in Hrun.
  destruct (db_current_ips st !! i) as [bp_ip |] eqn:Hbp; [| done].
  destruct (decide (bp_ip = 0)) as [-> | Hnz];
    [by injection Hrun as <- <- |].
  assert (Hlt : (i < DB_MAX_BPS)%nat).
  { destruct (decide (i = DB_MAX_BPS)) as [-> | Hne]; [| lia].
    pose proof (packed_last (db_bp_table st) Htable) as Hlast.
    rewrite <- Hpacked in Hlast.
    rewrite (drop_S _ _ _ Hbp) in Hlast. congruence. }
  destruct (decide (bp_ip = actual_ip)) as [-> | Hother];
    [| eapply IH; [exact Hst | done | | | exact Hrun]; lia].
  destruct (find_breakpoint DB_MAX_BPS 0 (db_bp_table st) actual_ip)
    as [j |]; [| eapply IH; [exact Hst | done | | | exact Hrun]; lia].
  pose proof (db_process_client_commands_consistent bd ops mem input
                (db_send_bp_hit j st)) as Hc.
  destruct (db_process_client_commands bd ops mem input (db_send_bp_hit j st))
    as [[st1 input1] | | | |] eqn:Hcmds; simpl in Hrun; try done.
  destruct Hc as [Hst1 _]; [by split |].
  eapply IH; [exact Hst1 | | | | exact Hrun]; [| lia | lia].
  eapply db_process_client_commands_flag; [| | exact Hcmds]; [by split | done].
Qed.

(** Once [format] is cleared with a letter other than [C] in [cmd], the
    loop has no way to return. *)
Lemma client_loop_stuck bd ops mem h c input :
  c <> "C"%char ->
  forall st r, client_loop bd ops mem (Some (h, c)) input st <> Returns r.
Proof.
  intros Hc. induction input as [| l input IH]; intros st r; simpl; [done |].
  repeat case_decide; try done.
  - destruct (db_process_break_cmd bd ops mem (subcmd l) (num1 l) (num2 l) st)
      as [st1 | | | |]; simpl; try done; apply IH.
  - destruct (db_process_data_cmd l st) as [st1 | | | |]; simpl; try done;
      apply IH.
Qed.

Lemma client_loop_step bd ops mem l input st :
  hdr l = "*DEBUG*"%string ->
  client_loop bd ops mem None (l :: input) st =
    let held' :=
      if hdr_overrun_clears_format bd then Some ("*DEBUG*"%string, cmd l)
      else None in
    if decide (cmd l = "B"%char) then
      bind (db_process_break_cmd bd ops mem (subcmd l) (num1 l) (num2 l) st)
           (client_loop bd ops mem held' input)
    else if decide (cmd l = "C"%char) then Returns (st, input)
    else if decide (cmd l = "D"%char) then
      bind (db_process_data_cmd l st) (client_loop bd ops mem held' input)
    else Exits (-1).
Proof.
  intros Hhdr. cbn [client_loop fst snd]. rewrite Hhdr.
  rewrite decide_True by done.
  by destruct (hdr_overrun_clears_format bd).
Qed.

Lemma client_loop_returns bd ops mem input :
  forall st st' rest,
    client_loop bd ops mem None input st = Returns (st', rest) ->
    exists taken c,
      input = taken ++ c :: rest /\ Forall goes_on taken /\ continues c /\
      (hdr_overrun_clears_format bd = true -> taken = [] /\ st' = st).
Proof.
  induction input as [| l input IH]; intros st st' rest Hrun; [done |].
  destruct (decide (hdr l = "*DEBUG*"%string)) as [Hhdr | Hhdr].
  2: { cbn [client_loop fst snd] in Hrun. by rewrite decide_False in Hrun. }
  rewrite client_loop_step in Hrun by done. cbv zeta in Hrun.
  destruct (decide (cmd l = "B"%char)) as [HB | HB].
  { destruct (db_process_break_cmd bd ops mem (subcmd l) (num1 l) (num2 l) st)
      as [st1 | | | |]; simpl in Hrun; try done.
    destruct (hdr_overrun_clears_format bd) eqn:Hclr.
    - exfalso. eapply client_loop_stuck; [| exact Hrun].
      rewrite HB. discriminate.
    - destruct (IH st1 st' rest Hrun) as (taken & c & -> & Htaken & Hc & _).
      exists (l :: taken), c. split; [done |]. split; [| done].
      constructor; [| done]. split; [done | by left]. }
  destruct (decide (cmd l = "C"%char)) as [HC | HC].
  { injection Hrun as <- <-. exists [], l. by repeat split. }
  destruct (decide (cmd l = "D"%char)) as [HD | HD]; [| done].
  destruct (db_process_data_cmd l st) as [st1 | | | |]; simpl in Hrun;
    try done.
  destruct (hdr_overrun_clears_format bd) eqn:Hclr.
  - exfalso. eapply client_loop_stuck; [| exact Hrun].
    rewrite HD. discriminate.
  - destruct (IH st1 st' rest Hrun) as (taken & c & -> & Htaken & Hc & _).
    exists (l :: taken), c. split; [done |]. split; [| done].
    constructor; [| done]. split; [done | by right].
Qed.

Lemma client_loop_needs_continue bd ops mem input :
  Forall (fun l => ~ continues l) input ->
  forall st r, client_loop bd ops mem None input st <> Returns r.
Proof.
  induction input as [| l input IH]; intros Hnone st r; [done |].
  inversion Hnone as [| ? ? Hl Hrest]; subst.
  destruct (decide (hdr l = "*DEBUG*"%string)) as [Hhdr | Hhdr].
  2: { cbn [client_loop fst snd]. by rewrite decide_False. }
  rewrite client_loop_step by done. cbv zeta.
  assert (Hnext : forall st1 r1,
            client_loop bd ops mem
              (if hdr_overrun_clears_format bd
               then Some ("*DEBUG*"%string, cmd l) else None) input st1
            <> Returns r1 \/ cmd l = "C"%char).
  { intros st1 r1. destruct (decide (cmd l = "C"%char)); [by right | left].
    destruct (hdr_overrun_clears_format bd);
      [by apply client_loop_stuck | by apply IH]. }
  destruct (decide (cmd l = "B"%char)) as [HB | HB].
  { destruct (db_process_break_cmd bd ops mem (subcmd l) (num1 l) (num2 l) st)
      as [st1 | | | |]; simpl; try done.
    destruct (Hnext st1 r) as [H | H]; [done |]. congruence. }
  destruct (decide (cmd l = "C"%char)) as [HC | HC].
  { exfalso. apply Hl. by split. }
  destruct (decide (cmd l = "D"%char)) as [HD | HD]; [| done].
  destruct (db_process_data_cmd l st) as [st1 | | | |]; simpl; try done.
  destruct (Hnext st1 r) as [H | H]; [done |]. congruence.
Qed.

Lemma continue_returns bd ops mem c input st :
  continues c ->
  db_process_client_commands bd ops mem (c :: input) st = Returns (st, input).
Proof.
  intros [Hhdr Hcmd]. unfold db_process_client_commands.
  rewrite client_loop_step by done. cbv zeta.
  rewrite decide_False by (rewrite Hcmd; discriminate).
  by rewrite decide_True by done.
Qed.

(** X19: between two instructions of a debug-enabled VM, the flag
    [db_bp_set] is off only when every slot of the breakpoint table is
    empty, so that [db_checkBreak], which returns at once when the flag
    is off, skips its scan only when there is nothing to find.  In a
    build where the terminator written past [hdr] clears [format] the
    flag is off in every such state: a VM that runs on has no
    breakpoint set. *)
Theorem flag_off_means_no_breakpoint bd ops mem st :
  reachable bd ops mem st ->
  (db_bp_set st = false ->
   db_bp_table st = replicate DB_MAX_BPS 0 /\
   forall actual_ip input,
     db_checkBreak bd ops mem actual_ip input st = Returns (st, input)) /\
  (hdr_overrun_clears_format bd = true -> db_bp_set st = false).
Proof.
  intros Hreach.
  assert (Hskip : db_bp_set st = false ->
            forall actual_ip input,
              db_checkBreak bd ops mem actual_ip input st =
                Returns (st, input)).
  { intros Hoff actual_ip input. unfold db_checkBreak. rewrite Hoff.
    by destruct (db_debug_enabled st). }
  split.
  - intros Hoff. split; [| by apply Hskip].
    revert Hoff. change (flag_covers st). clear Hskip.
    induction Hreach as [st0 input st rest Hst0 Hen Hrun
                        | st actual_ip input st' rest Hreach IH Hrun].
    + unfold db_prepare in Hrun. rewrite Hen in Hrun.
      destruct (db_reset_consistent st0 Hst0) as [Hs Hp].
      eapply db_process_client_commands_flag; [| | exact Hrun].
      * by split.
      * unfold flag_covers, db_send_ready.
        rewrite db_reset_spec by done. done.
    + pose proof (reachable_consistent bd ops mem st Hreach) as Hst.
      unfold db_checkBreak in Hrun.
      destruct (db_debug_enabled st); [| by injection Hrun as <- _].
      destruct (db_bp_set st) eqn:Hset; [| by injection Hrun as <- _].
      eapply checkBreak_loop_flag; [exact Hst | exact IH | | | exact Hrun].
      * lia.
      * unfold DB_MAX_BPS. lia.
  - intros Hclr. clear Hskip.
    induction Hreach as [st0 input st rest Hst0 Hen Hrun
                        | st actual_ip input st' rest Hreach IH Hrun].
    + unfold db_prepare in Hrun. rewrite Hen in Hrun.
      apply client_loop_returns in Hrun as (taken & c & _ & _ & _ & Hfirst).
      destruct (Hfirst Hclr) as [_ Hst]. rewrite Hst.
      unfold db_send_ready. by rewrite db_reset_spec by done.
    + unfold db_checkBreak in Hrun. rewrite IH in Hrun.
      destruct (db_debug_enabled st); by injection Hrun as <- _.
Qed.

Lemma flag_off_means_no_breakpoint_witness :
  (exists st,
     db_prepare unsigned_unharmed ops0 mem0
       [line "B" "S" 3 100; line "B" "C" 3 0; line "C" "-" 0 0] db_startup =
       Returns (st, []) /\
     db_bp_table st = replicate DB_MAX_BPS 0) /\
  db_prepare signed_cleared ops0 mem0 [line "C" "-" 0 0] db_startup =
    Returns (no_breakpoint, []) /\
  db_bp_table no_breakpoint = replicate DB_MAX_BPS 0.
Proof.
  split; [| split; [reflexivity |]].
  - eexists. split; [reflexivity |].
    refine (proj1 (proj1 (flag_off_means_no_breakpoint unsigned_unharmed
                            ops0 mem0 _ _) _)).
    + eapply (reachable_prepare unsigned_unharmed ops0 mem0 db_startup
                [line "B" "S" 3 100; line "B" "C" 3 0; line "C" "-" 0 0]).
      * split; reflexivity.
      * reflexivity.
      * reflexivity.
    + reflexivity.
  - refine (proj1 (proj1 (flag_off_means_no_breakpoint signed_cleared ops0
                            mem0 no_breakpoint _) _)).
    + apply (reachable_prepare signed_cleared ops0 mem0 db_startup
               [line "C" "-" 0 0] no_breakpoint []).
      * split; reflexivity.
      * reflexivity.
      * reflexivity.
    + reflexivity.
Defined.

(** X20: the command loop of the debugger returns only on a continue
    command: when it returns, the lines it has taken are break and data
    commands under the right header followed by one continue command,
    and the lines after that command are left unread; with no continue
    command among the lines it never returns; a continue command as
    first line makes it return at once.  In a build where the
    terminator written past [hdr] clears [format], that is the only
    way: after a first break or data command the loop never returns,
    whatever lines follow. *)
Theorem client_commands_return_at_continue bd ops mem input st :
  (forall st' rest,
     db_process_client_commands bd ops mem input st = Returns (st', rest) ->
     exists taken c,
       input = taken ++ c :: rest /\ Forall goes_on taken /\ continues c /\
       (hdr_overrun_clears_format bd = true -> taken = [] /\ st' = st)) /\
  (Forall (fun l => ~ continues l) input ->
   forall r, db_process_client_commands bd ops mem input st <> Returns r) /\
  (forall c rest,
     input = c :: rest -> continues c ->
     db_process_client_commands bd ops mem input st = Returns (st, rest)) /\
  (hdr_overrun_clears_format bd = true ->
   forall l rest,
     input = l :: rest -> goes_on l ->
     forall r, db_process_client_commands bd ops mem input st <> Returns r).
Proof.
  split; [| split; [| split]].
  - intros st' rest. apply client_loop_returns.
  - intros Hnone r. by apply client_loop_needs_continue.
  - intros c rest -> Hc. by apply continue_returns.
  - intros Hclr l rest -> [Hhdr Hcmd] [st' rest'] Hrun.
    apply client_loop_returns in Hrun
      as (taken & c & Hsplit & _ & [_ Hc] & Hfirst).
    destruct (Hfirst Hclr) as [-> _]. simpl in Hsplit.
    injection Hsplit as -> _. rewrite Hc in Hcmd.
    by destruct Hcmd.
Qed.

Lemma client_commands_return_at_continue_witness :
  (exists taken c,
     [line "B" "S" 3 100; line "C" "-" 0 0; line "B" "C" 3 0] =
       taken ++ c :: [line "B" "C" 3 0] /\
     Forall goes_on taken /\ continues c) /\
  db_process_client_commands signed_cleared ops0 mem0
    [line "B" "S" 3 100; line "C" "-" 0 0; line "B" "C" 3 0] db_startup =
    Exits (-1) /\
  forall r,
    db_process_client_commands signed_cleared ops0 mem0
      [line "B" "S" 3 100; line "C" "-" 0 0; line "B" "C" 3 0] db_startup
    <> Returns r.
Proof.
  split; [| split; [reflexivity |]].
  - destruct (db_process_client_commands unsigned_unharmed ops0 mem0
                [line "B" "S" 3 100; line "C" "-" 0 0; line "B" "C" 3 0]
                db_startup) as [[st' rest] | | | |] eqn:Hrun;
      try (vm_compute in Hrun; discriminate).
    assert (Hrest : rest = [line "B" "C" 3 0]).
    { pose proof Hrun as Hrun'. vm_compute in Hrun'.
      injection Hrun' as _ Hr. rewrite <- Hr. reflexivity. }
    subst rest.
    destruct (proj1 (client_commands_return_at_continue unsigned_unharmed
                       ops0 mem0 _ db_startup) st' _ Hrun)
      as (taken & c & Hsplit & Htaken & Hc & _).
    by exists taken, c.
  - apply (proj2 (proj2 (proj2 (client_commands_return_at_continue
                                  signed_cleared ops0 mem0 _ db_startup)))
             eq_refl (line "B" "S" 3 100)
             [line "C" "-" 0 0; line "B" "C" 3 0] eq_refl).
    split; [reflexivity | by left].
Defined.








End DebugRunsFacts.

(** ** The decoder, on every instruction *)

Module DecodeFacts.
Import Machine MachineFacts Trace TraceFacts.
Local Open Scope Z_scope.

Lemma bytes_value_two big b0 b1 :
  0 <= b0 < 256 -> 0 <= b1 < 256 ->
  0 <= bytes_value big [b0; b1] < 2 ^ 16.
Proof. intros H0 H1. unfold bytes_value. destruct big; simpl; lia. Qed.

Lemma wrap_signed_8 z : - 128 <= wrap_signed 8 z < 128.
Proof. apply (wrap_signed_range 8). lia. Qed.

Lemma wrap_signed_16 z : - 2 ^ 15 <= wrap_signed 16 z < 2 ^ 15.
Proof. apply (wrap_signed_range 16). lia. Qed.

Lemma wrap_signed_32 z : - 2 ^ 31 <= wrap_signed 32 z < 2 ^ 31.
Proof. apply (wrap_signed_range 32). lia. Qed.

Lemma wrap_signed_64 z : - 2 ^ 63 <= wrap_signed 64 z < 2 ^ 63.
Proof. apply (wrap_signed_range 64). lia. Qed.

(** Names the bytes read and records their range. *)
Ltac byte_ranges mem :=
  repeat match goal with
         | |- context [getUByte mem ?a] =>
             let b := fresh "b" in
             let Hb := fresh "Hb" in
             pose proof (getUByte_range mem a) as Hb;
             set (b := getUByte mem a) in *; clearbody b
         end.

(** Replaces the values wrapped to 8, 16, 32 or 64 bits by their
    range. *)
Ltac wrapped_ranges :=
  unfold to_int;
  repeat match goal with
         | |- context [wrap_signed 8 ?x] =>
             generalize (wrap_signed_8 x); generalize (wrap_signed 8 x);
             intros ? ?
         | |- context [wrap_signed 16 ?x] =>
             generalize (wrap_signed_16 x); generalize (wrap_signed 16 x);
             intros ? ?
         | |- context [wrap_signed 32 ?x] =>
             generalize (wrap_signed_32 x); generalize (wrap_signed 32 x);
             intros ? ?
         | |- context [wrap_signed 64 ?x] =>
             generalize (wrap_signed_64 x); generalize (wrap_signed 64 x);
             intros ? ?
         end.

(** X22: whatever the bytes at the instruction pointer are, the
    decoder takes between 1 and 10 of them; the opcode it records is
    between 0 and 511, so the assumption that closes [decodeInstruction]
    holds; the tag is between 0 and 4, so the [switch] on the tag in
    [trace] never reaches its default case; the prefix is -1 or the
    first byte; and the operand of an instruction tagged 1 or 3 is an
    [int], that of an instruction tagged 2 or 4 a 64-bit value. *)
Theorem decodeInstruction_well_formed ops bd mem ip :
  let '(d, ip') := decodeInstruction ops bd mem ip in
  ip + 1 <= ip' <= ip + 10 /\
  0 <= opcode d < 512 /\ opcode d <> -1 /\
  0 <= tag d <= 4 /\
  (prefix d = -1 \/ prefix d = getUByte mem ip) /\
  (tag d = 1 \/ tag d = 3 -> in_int (operand d)) /\
  (tag d = 2 \/ tag d = 4 -> in_jlong (operand d)).
Proof.
  unfold decodeInstruction, decodeEscape, fetchShort, fetchUShort, fetchInt,
    fetchLong, fetchByte, fetchUBytes, fbind, fetchUByte, ret.
  unfold in_int, in_jlong.
  destruct (has_floats bd);
    repeat (case_decide || case_bool_decide);
    cbn [andb tag prefix opcode operand];
    byte_ranges mem;
    (split; [lia |]; split; [lia |]; split; [lia |]; split; [lia |];
     split; [first [left; reflexivity | right; reflexivity] |]);
    (split; intros [? | ?]; try lia).
  all: try (rewrite wide_1_value by lia).
  all: try match goal with
           | |- context [bytes_value ?e [?x; ?y]] =>
               pose proof (bytes_value_two e x y ltac:(lia) ltac:(lia))
           end.
  all: wrapped_ranges; try lia.
Qed.

End DecodeFacts.

(** ** Walking the call stack *)

Module FramesFacts.
Import Machine MachineFacts Vm Debug Frames.
Local Open Scope Z_scope.

Lemma caller_S fm n fp : caller fm (S n) fp = caller fm n (FP_returnFP fm fp).
Proof. unfold caller. by rewrite Nat.iter_succ_r. Qed.

Lemma stack_depth_step fm fp n :
  fp <> 0 -> stack_depth fm fp n ->
  exists m, n = S m /\ stack_depth fm (FP_returnFP fm fp) m.
Proof.
  intros Hfp [Hend Hbefore]. destruct n as [| m]; [done |].
  exists m. split; [done |]. split.
  - by rewrite <- caller_S.
  - intros k Hk. rewrite <- caller_S. apply Hbefore. lia.
Qed.

Lemma calculateCallDepth_loop_depth fm fuel :
  forall fp depth n,
    stack_depth fm fp n -> 0 <= depth -> depth + Z.of_nat n <= 2000 ->
    (n < fuel)%nat ->
    calculateCallDepth_loop fm fuel fp depth =
      Some (Returns (depth + Z.of_nat n)).
Proof.
  induction fuel as [| fuel IH]; intros fp depth n Hn Hd Hmax Hfuel; [lia |].
  simpl. destruct (decide (fp = 0)) as [-> | Hfp].
  - destruct n as [| m].
    + do 2 f_equal. lia.
    + destruct Hn as [_ Hbefore]. by specialize (Hbefore 0%nat ltac:(lia)).
  - destruct (stack_depth_step fm fp n Hfp Hn) as (m & -> & Hm).
    rewrite to_int_id by (unfold in_int; lia).
    rewrite decide_False by lia.
    rewrite (IH _ _ m) by (try done; lia). do 2 f_equal. lia.
Qed.

Lemma calculateCallDepth_loop_deep fm fuel :
  forall fp depth,
    0 <= depth <= 2000 ->
    (forall k, Z.of_nat k <= 2000 - depth -> caller fm k fp <> 0) ->
    (2000 - depth < Z.of_nat fuel) ->
    calculateCallDepth_loop fm fuel fp depth =
      Some (FatalVMError
              "**Call depth suspiciously deep - infinite recursion?**").
Proof.
  induction fuel as [| fuel IH]; intros fp depth Hd Hdeep Hfuel; [lia |].
  simpl. rewrite decide_False by (apply (Hdeep 0%nat); lia).
  rewrite to_int_id by (unfold in_int; lia).
  destruct (decide (depth + 1 > 2000)) as [Hover | Hin]; [done |].
  apply IH; [lia | | lia].
  intros k Hk. rewrite <- caller_S. apply Hdeep. lia.
Qed.

Lemma first_null_or_none fm fp (N : nat) :
  (exists n, (n <= N)%nat /\ stack_depth fm fp n) \/
  (forall k, (k <= N)%nat -> caller fm k fp <> 0).
Proof.
  induction N as [| N [Hsome | Hnone]].
  - destruct (decide (fp = 0)) as [-> | Hfp].
    + left. exists 0%nat. split; [lia |]. split; [done | lia].
    + right. intros k Hk. by replace k with 0%nat by lia.
  - left. destruct Hsome as (n & Hn & Hdepth). exists n. split; [lia | done].
  - destruct (decide (caller fm (S N) fp = 0)) as [Hz | Hnz].
    + left. exists (S N). split; [lia |]. split; [done |].
      intros k Hk. apply Hnone. lia.
    + right. intros k Hk. destruct (decide (k = S N)) as [-> | Hne]; [done |].
      apply Hnone. lia.
Qed.

(** X23: [calculateCallDepth] returns the number of frames of the call
    stack when there are at most 2000; on a stack with more frames,
    and on one whose return links never reach null, it ends in the
    fatal error.  It never runs on: 2001 rounds always end it. *)
Theorem calculateCallDepth_counts_frames fm fp :
  (forall n fuel,
     stack_depth fm fp n -> Z.of_nat n <= 2000 -> (n < fuel)%nat ->
     calculateCallDepth fm fuel fp = Some (Returns (Z.of_nat n))) /\
  (forall fuel,
     (forall k, Z.of_nat k <= 2000 -> caller fm k fp <> 0) ->
     2000 < Z.of_nat fuel ->
     calculateCallDepth fm fuel fp =
       Some (FatalVMError
               "**Call depth suspiciously deep - infinite recursion?**")) /\
  (forall fuel, 2000 < Z.of_nat fuel -> calculateCallDepth fm fuel fp <> None).
Proof.
  assert (Hret : forall n fuel,
            stack_depth fm fp n -> Z.of_nat n <= 2000 -> (n < fuel)%nat ->
            calculateCallDepth fm fuel fp = Some (Returns (Z.of_nat n))).
  { intros n fuel Hn Hmax Hfuel. unfold calculateCallDepth.
    rewrite (calculateCallDepth_loop_depth fm fuel fp 0 n) by (try done; lia).
    do 2 f_equal. }
  assert (Hfatal : forall fuel,
            (forall k, Z.of_nat k <= 2000 -> caller fm k fp <> 0) ->
            2000 < Z.of_nat fuel ->
            calculateCallDepth fm fuel fp =
              Some (FatalVMError
                      "**Call depth suspiciously deep - infinite recursion?**")).
  { intros fuel Hdeep Hfuel. unfold calculateCallDepth.
    apply calculateCallDepth_loop_deep; [lia | | lia].
    intros k Hk. apply Hdeep. lia. }
  split; [exact Hret |]. split; [exact Hfatal |].
  intros fuel Hfuel.
  destruct (first_null_or_none fm fp (Z.to_nat 2000))
    as [(n & Hn & Hdepth) | Hnone].
  - rewrite (Hret n fuel Hdepth) by lia. done.
  - rewrite Hfatal; [done | | lia]. intros k Hk. apply Hnone. lia.
Qed.

Lemma calculateCallDepth_counts_frames_witness :
  calculateCallDepth three_frames 10 300 = Some (Returns 3).
Proof.
  apply (proj1 (calculateCallDepth_counts_frames three_frames 300) 3%nat 10%nat).
  - split; [reflexivity |].
    intros k Hk. destruct k as [| [| [| k]]]; try lia; vm_compute; discriminate.
  - lia.
  - lia.
Defined.

Lemma traceFrames_loop_records ops fm fuel :
  forall opcode ip fp guard acc n,
    stack_depth fm fp n -> 0 <= guard -> guard + Z.of_nat n <= 2000 ->
    (n < fuel)%nat ->
    exists new,
      traceFrames_loop ops false fm fuel opcode ip fp guard acc =
        Some (Returns (acc ++ new), acc ++ new) /\
      length new = n /\
      (opcode = OPC_EXTEND ops \/ opcode = OPC_EXTEND0 ops ->
       (0 < n)%nat -> head new = Some (ip, 0)).
Proof.
  induction fuel as [| fuel IH]; intros opcode ip fp guard acc n Hn Hg Hmax Hfuel;
    [lia |].
  simpl. destruct (decide (fp = 0)) as [-> | Hfp].
  - destruct n as [| m].
    + exists []. rewrite app_nil_r. split; [done |]. split; [done | lia].
    + destruct Hn as [_ Hbefore]. by specialize (Hbefore 0%nat ltac:(lia)).
  - destruct (stack_depth_step fm fp n Hfp Hn) as (m & -> & Hm).
    rewrite to_int_id by (unfold in_int; lia).
    rewrite decide_False by lia.
    match goal with
    | |- context [traceFrames_loop _ _ _ _ ?o ?i ?f ?g ?a] =>
        destruct (IH o i f g a m) as (new & Hrun & Hlen & _);
          [done | lia | lia | lia |]
    end.
    rewrite Hrun, <- app_assoc. eexists. split; [reflexivity |].
    split; [simpl; by rewrite Hlen |].
    intros Hext _. rewrite bool_decide_eq_true_2 by done. simpl.
    do 3 f_equal. rewrite Z.sub_diag. reflexivity.
Qed.

Lemma traceFrames_loop_deep ops fm fuel :
  forall opcode ip fp guard acc,
    0 <= guard <= 2000 ->
    (forall k, Z.of_nat k <= 2000 - guard -> caller fm k fp <> 0) ->
    2000 - guard < Z.of_nat fuel ->
    exists new,
      traceFrames_loop ops false fm fuel opcode ip fp guard acc =
        Some (FatalVMError
                "**** Call stack suspiciously deep - infinite recursion? ****",
              acc ++ new) /\
      Z.of_nat (length new) = 2001 - guard.
Proof.
  induction fuel as [| fuel IH]; intros opcode ip fp guard acc Hg Hdeep Hfuel;
    [lia |].
  simpl. rewrite decide_False by (apply (Hdeep 0%nat); lia).
  rewrite to_int_id by (unfold in_int; lia).
  destruct (decide (guard + 1 > 2000)) as [Hover | Hin].
  - eexists [_]. split; [reflexivity |]. simpl. lia.
  - match goal with
    | |- context [traceFrames_loop _ _ _ _ ?o ?i ?f ?g ?a] =>
        destruct (IH o i f g a) as (new & Hrun & Hlen); [lia | | lia |]
    end.
    { intros k Hk. rewrite <- caller_S. apply Hdeep. lia. }
    rewrite Hrun, <- app_assoc. eexists. split; [reflexivity |].
    simpl. lia.
Qed.

(** X24: without assumption checks, [traceFrames] writes one record
    per frame of a call stack of at most 2000 frames, which is the
    number that [calculateCallDepth] returns for it; when the
    instruction is an extend, the first record gives the instruction
    pointer as the method and offset 0.  On a deeper stack it has
    written 2001 records when it ends in the fatal error. *)
Theorem traceFrames_one_record_per_frame ops fm opcode ip fp :
  (forall n fuel,
     stack_depth fm fp n -> Z.of_nat n <= 2000 -> (n < fuel)%nat ->
     exists records,
       traceFrames ops false fm fuel opcode ip fp =
         Some (Returns records, records) /\
       calculateCallDepth fm fuel fp =
         Some (Returns (Z.of_nat (length records))) /\
       length records = n /\
       (opcode = OPC_EXTEND ops \/ opcode = OPC_EXTEND0 ops ->
        (0 < n)%nat -> head records = Some (ip, 0))) /\
  (forall fuel,
     (forall k, Z.of_nat k <= 2000 -> caller fm k fp <> 0) ->
     2000 < Z.of_nat fuel ->
     exists records,
       traceFrames ops false fm fuel opcode ip fp =
         Some (FatalVMError
                 "**** Call stack suspiciously deep - infinite recursion? ****",
               records) /\
       Z.of_nat (length records) = 2001).
Proof.
  split.
  - intros n fuel Hn Hmax Hfuel. unfold traceFrames.
    destruct (traceFrames_loop_records ops fm fuel opcode ip fp 0 [] n)
      as (new & Hrun & Hlen & Hhead); [done | lia | lia | lia |].
    exists new. split; [exact Hrun |]. split; [| by split].
    unfold calculateCallDepth.
    rewrite (calculateCallDepth_loop_depth fm fuel fp 0 n) by (try done; lia).
    rewrite Hlen. do 2 f_equal.
  - intros fuel Hdeep Hfuel. unfold traceFrames.
    destruct (traceFrames_loop_deep ops fm fuel opcode ip fp 0 [])
      as (new & Hrun & Hlen); [lia | | lia |].
    { intros k Hk. apply Hdeep. lia. }
    exists new. split; [exact Hrun | lia].
Qed.

Lemma traceFrames_one_record_per_frame_witness :
  exists records,
    traceFrames ops0 false three_frames 10 200 3005 300 =
      Some (Returns records, records) /\
    length records = 3%nat /\ head records = Some (3005, 0).
Proof.
  destruct (proj1 (traceFrames_one_record_per_frame ops0 three_frames
                     200 3005 300) 3%nat 10%nat)
    as (records & Hrun & _ & Hlen & Hhead).
  - split; [reflexivity |].
    intros k Hk. destruct k as [| [| [| k]]]; try lia; vm_compute; discriminate.
  - lia.
  - lia.
  - exists records. split; [exact Hrun |]. split; [exact Hlen |].
    apply Hhead; [by left | lia].
Defined.

End FramesFacts.

(** ** The watchdog LED *)

Module Eb40aOsFacts.
Import Machine MachineFacts Eb40aIO Eb40aOs.
Local Open Scope Z_scope.

Lemma next_multiple (n : nat) :
  (S n mod 250 = 0 /\ S n / 250 = S (n / 250))%nat \/
  (S n mod 250 <> 0 /\ S n / 250 = n / 250)%nat.
Proof.
  pose proof (Nat.div_mod n 250 ltac:(lia)) as Hdm.
  pose proof (Nat.mod_upper_bound n 250 ltac:(lia)) as Hm.
  pose proof (Nat.div_mod (S n) 250 ltac:(lia)) as Hdm'.
  pose proof (Nat.mod_upper_bound (S n) 250 ltac:(lia)) as Hm'.
  lia.
Qed.

(** X25: from the initial state, after [n] back-branches the watchdog
    LED has been switched once for every 250 of them, alternately on
    and off beginning with on, so that it is on exactly when [n / 250]
    is odd: it blinks with a period of 500 back-branches. *)
Theorem watchdog_led_blinks (n : nat) :
  Z.of_nat n < 2 ^ 31 ->
  let st := Nat.iter n osbackbranch led_startup in
  count st = Z.of_nat n /\
  led_calls st = blinks (n / 250) /\
  led_is_on st = (if Nat.odd (n / 250) then 1 else 0).
Proof.
  induction n as [| n IH]; intros Hn st.
  - subst st. simpl. done.
  - subst st. rewrite Nat.iter_succ.
    destruct IH as (Hcount & Hcalls & Hled); [lia |].
    set (st := Nat.iter n osbackbranch led_startup) in *.
    unfold osbackbranch, updateLEDStatus.
    rewrite Hcount, to_int_id by (unfold in_int; lia).
    rewrite Z.rem_mod_nonneg by lia.
    replace (Z.of_nat n + 1) with (Z.of_nat (S n)) by lia.
    assert (Hz : Z.of_nat (S n) `mod` 250 = Z.of_nat (S n mod 250))
      by (rewrite Nat2Z.inj_mod; reflexivity).
    rewrite Hz.
    destruct (next_multiple n) as [[Hm Hd] | [Hm Hd]]; rewrite Hd.
    + rewrite decide_True by lia.
      cbn [blinks]. rewrite Nat.odd_succ, <- Nat.negb_odd, Hled, <- Hcalls.
      destruct (Nat.odd (n / 250)); simpl; done.
    + rewrite decide_False by lia. simpl. done.
Qed.

Lemma watchdog_led_blinks_witness :
  led_is_on (Nat.iter 600 osbackbranch led_startup) = 0 /\
  led_calls (Nat.iter 600 osbackbranch led_startup) =
    [TurnOnLeds WATCHDOG_LED; TurnOffLeds WATCHDOG_LED].
Proof.
  destruct (watchdog_led_blinks 600) as (_ & Hcalls & Hled); [lia |].
  split; [exact Hled | exact Hcalls].
Defined.

End Eb40aOsFacts.

(** ** The arguments of a launch through JNI *)

Module LauncherFacts.
Import Machine MachineFacts Vm Util UtilFacts Args ArgsFacts Launcher.
Local Open Scope Z_scope.






End LauncherFacts.

(** ** The options of the command line *)

Module OptionsFacts.
Import Machine MachineFacts Vm Buffers Util Args ArgsFacts Copy Setup Halves.
Import Options.
Local Open Scope Z_scope.

Lemma bind_Returns {A B} (a : A) (k : A -> Outcome B) :
  bind (Returns a) k = k a.
Proof. reflexivity. Qed.

Lemma bind_assoc {A B C} (o : Outcome A) (f : A -> Outcome B)
    (g : B -> Outcome C) :
  bind (bind o f) g = bind o (fun a => bind (f a) g).
Proof. by destruct o. Qed.

Lemma bind_ext {A B} (o : Outcome A) (f g : A -> Outcome B) :
  (forall a, f a = g a) -> bind o f = bind o g.
Proof. intros H. destruct o; simpl; by rewrite ?H. Qed.

(** The second loop moves the [n] entries from [oldIndex] on down to
    [newIndex]. *)
Lemma copy_loop_spec n :
  forall i j (argv : list (list ascii)),
    (j <= i)%nat -> (i + n <= length argv)%nat ->
    exists argv',
      copy_loop n i j argv = ((j + n)%nat, argv') /\
      length argv' = length argv /\
      take (j + n) argv' = take j argv ++ take n (drop i argv).
Proof.
  induction n as [| n IH]; intros i j argv Hji Hlen.
  - exists argv. simpl. rewrite Nat.add_0_r, app_nil_r. done.
  - simpl.
    destruct (lookup_lt_is_Some_2 argv i ltac:(lia)) as [a Ha].
    rewrite (list_lookup_total_correct _ _ _ Ha).
    destruct (IH (S i) (S j) (<[j:=a]> argv)) as (argv' & Hrun & Hlen' & Htake);
      [lia | rewrite length_insert; lia |].
    exists argv'. rewrite Hrun.
    split; [f_equal; lia |]. split; [by rewrite Hlen', length_insert |].
    replace (j + S n)%nat with (S j + n)%nat by lia. rewrite Htake.
    destruct (lookup_lt_is_Some_2 (<[j:=a]> argv) j) as [x Hx];
      [rewrite length_insert; lia |].
    rewrite (take_S_r _ _ _ Hx).
    rewrite list_lookup_insert_eq in Hx by lia. injection Hx as <-.
    rewrite take_insert_ge by lia.
    rewrite drop_insert_lt by lia.
    rewrite (drop_S _ _ _ Ha). simpl. by rewrite <- app_assoc.
Qed.

Lemma options_loop_spec bd jni opts :
  forall rest i j argv,
    Forall is_option opts ->
    match rest with [] => True | a :: _ => ~ is_option a end ->
    (j <= i)%nat -> drop i argv = opts ++ rest ->
    let kept := filter (passed_on jni) opts in
    exists argv',
      length argv' = length argv /\
      take (j + length kept) argv' = take j argv ++ kept /\
      drop (i + length opts) argv' = rest /\
      forall s js,
        (jni = false ->
         length js + length (filter is_J opts) <= MAX_JVM_ARGS)%nat ->
        options_loop bd jni (length opts + length rest) i j argv s js =
          bind (X_options bd (drop 2 <$> filter is_X opts) s) (fun s' =>
          Returns ((i + length opts)%nat, (j + length kept)%nat, argv', s',
                   js ++ (if jni then []
                          else drop 2 <$> filter is_J opts))).
Proof.
  induction opts as [| a opts IH];
    intros rest i j argv Hopts Hrest Hji Hdrop kept.
  - subst kept. exists argv. simpl in *.
    rewrite !Nat.add_0_r, !app_nil_r. split; [done |]. split; [done |].
    split; [done |]. intros s js _.
    assert (Hjs : js ++ (if jni then [] else []) = js)
      by (destruct jni; by rewrite app_nil_r).
    destruct rest as [| a rest]; simpl.
    + by rewrite ?Nat.add_0_r, Hjs.
    + assert (Ha : argv !! i = Some a).
      { rewrite <- (Nat.add_0_r i), <- lookup_drop, Hdrop. done. }
      rewrite (list_lookup_total_correct _ _ _ Ha).
      rewrite decide_True by done. by rewrite ?Nat.add_0_r, Hjs.
  - inversion Hopts as [| ? ? Ha Hopts']; subst.
    assert (Hat : argv !! i = Some a).
    { rewrite <- (Nat.add_0_r i), <- lookup_drop, Hdrop. done. }
    assert (Hnext : drop (S i) argv = opts ++ rest).
    { rewrite (drop_S _ _ _ Hat) in Hdrop. by injection Hdrop. }
    pose proof (lookup_lt_Some _ _ _ Hat) as Hi.
    unfold is_option in Ha.
    subst kept. rewrite (filter_cons (passed_on jni)).
    destruct (decide (passed_on jni a)) as [Hpass | Hnot].
    + destruct Hpass as [HnX HnJ]. unfold is_X, is_J in HnX, HnJ.
      destruct (IH rest (S i) (S j) (<[j:=a]> argv))
        as (argv' & Hlen & Htake & Hrestd & Hrun); try done.
      * lia.
      * by rewrite drop_insert_lt by lia.
      * exists argv'. rewrite length_insert in Hlen.
        split; [done |]. split.
        { cbn [length].
          replace (j + S (length (filter (passed_on jni) opts)))%nat
            with (S j + length (filter (passed_on jni) opts))%nat by lia.
          rewrite Htake.
          destruct (lookup_lt_is_Some_2 (<[j:=a]> argv) j) as [x Hx];
            [rewrite length_insert; lia |].
          rewrite (take_S_r _ _ _ Hx).
          rewrite list_lookup_insert_eq in Hx by lia. injection Hx as <-.
          rewrite take_insert_ge by lia. by rewrite <- app_assoc. }
        split.
        { cbn [length]. by replace (i + S (length opts))%nat
            with (S i + length opts)%nat by lia. }
        intros s js Hmax.
        cbn [length Nat.add options_loop].
        rewrite (list_lookup_total_correct _ _ _ Hat).
        rewrite decide_False by (intros H; by apply H).
        match goal with
        | |- (if ?c then _ else _) = _ =>
            assert (Hcond : c = true); [| rewrite Hcond]
        end.
        { apply andb_true_iff. split; [by apply bool_decide_eq_true |].
          apply orb_true_iff. destruct HnJ as [-> | HnJ]; [by left |].
          right. by apply bool_decide_eq_true. }
        rewrite (filter_cons is_X), (filter_cons is_J) in *.
        rewrite (decide_False (P := is_X a)) by done.
        rewrite Hrun.
        2: { intros Hjni. specialize (Hmax Hjni).
             destruct HnJ as [-> | HnJ]; [done |].
             rewrite decide_False in Hmax by done. exact Hmax. }
        apply bind_ext. intros s'.
        do 2 f_equal; [do 3 f_equal; lia |].
        destruct jni; [done |].
        destruct HnJ as [? | HnJ]; [done |].
        by rewrite decide_False by done.
    + destruct (IH rest (S i) j argv)
        as (argv' & Hlen & Htake & Hrestd & Hrun); try done; [lia |].
      exists argv'. split; [done |]. split; [done |]. split.
      { cbn [length]. by replace (i + S (length opts))%nat
          with (S i + length opts)%nat by lia. }
      intros s js Hmax.
      cbn [length Nat.add options_loop].
      rewrite (list_lookup_total_correct _ _ _ Hat).
      rewrite decide_False by (intros H; by apply H).
      match goal with
      | |- (if ?c then _ else _) = _ =>
          assert (Hcond : c = false); [| rewrite Hcond]
      end.
      { apply not_true_is_false. intros Hc. apply Hnot.
        apply andb_true_iff in Hc as [HX HJ].
        apply bool_decide_eq_true in HX. split; [done |].
        apply orb_true_iff in HJ as [-> | HJ]; [by left |].
        apply bool_decide_eq_true in HJ. by right. }
      rewrite (filter_cons is_X), (filter_cons is_J) in *.
      match goal with
      | |- (if ?d then _ else _) = _ => destruct d as [HX | HnX]
      end.
      * rewrite (decide_True (P := is_X a)) by done.
        assert (HnJ : ~ is_J a) by (unfold is_J; rewrite HX; discriminate).
        rewrite (decide_False (P := is_J a)) in * by done.
        cbn [fmap list_fmap X_options]. rewrite bind_assoc.
        apply bind_ext. intros s1. rewrite Hrun by done.
        apply bind_ext. intros s'. do 2 f_equal. do 3 f_equal. lia.
      * rewrite (decide_False (P := is_X a)) by done.
        assert (HJ : is_J a /\ jni = false).
        { unfold is_J. destruct jni.
          - exfalso. apply Hnot. split; [done | by left].
          - split; [| done].
            destruct (decide (char_at a 1 = "J"%char)); [done |].
            exfalso. apply Hnot. split; [done | by right]. }
        destruct HJ as [HJ ->].
        rewrite (decide_True (P := is_J a)) in * by done.
        specialize (Hmax eq_refl). cbn [length] in Hmax.
        rewrite decide_False by lia.
        rewrite Hrun by (intros _; rewrite length_app; simpl; lia).
        apply bind_ext. intros s'. cbn [fmap list_fmap].
        rewrite <- app_assoc. do 2 f_equal. do 3 f_equal. lia.
Qed.

(** X27: [processArgs] takes the options before the main class apart
    without losing or reordering any, as long as there are at most 20
    [-J] options: the [-X] options are applied in order, the [-J]
    options (when the VM was not launched through JNI) are collected
    in order for the Java VM, and the other options, followed by the
    main class and its arguments, are what stays on the command line,
    although the array is rewritten while it is read. *)
Theorem processArgs_separates_options bd (jni java : bool)
    (opts rest : list (list ascii)) s :
  Forall is_option opts ->
  match rest with [] => True | a :: _ => ~ is_option a end ->
  let xs : list (list ascii) := drop 2 <$> filter is_X opts in
  let js : list (list ascii) :=
    if jni then [] else drop 2 <$> filter is_J opts in
  (length js <= MAX_JVM_ARGS)%nat ->
  processArgs_options bd jni java (opts ++ rest) s =
    bind (X_options bd xs (default_sizes s)) (fun s' =>
    Returns (filter (passed_on jni) opts ++ rest, s',
             startup_calls bd java s' js)).
Proof.
  intros Hopts Hrest xs js Hmax. unfold processArgs_options.
  destruct (options_loop_spec bd jni opts rest 0 0 (opts ++ rest))
    as (argv' & Hlen & Htake & Hdrop & Hrun); try done.
  rewrite length_app. fold (default_sizes s). rewrite Hrun.
  2: { intros ->. subst js. rewrite length_fmap in Hmax. simpl. lia. }
  rewrite bind_assoc. apply bind_ext. intros s'. cbn [bind].
  simpl in Htake, Hdrop.
  destruct (copy_loop_spec (length argv' - (0 + length opts))
              (0 + length opts) (0 + length (filter (passed_on jni) opts))
              argv') as (argv'' & Hcopy & Hlen'' & Htake'').
  { pose proof (length_filter (passed_on jni) opts). simpl. lia. }
  { rewrite Hlen, length_app. simpl. lia. }
  rewrite Hcopy. cbn [bind]. rewrite Htake''. simpl Nat.add.
  rewrite Htake, Hdrop.
  rewrite take_ge by (rewrite Hlen, length_app; simpl; lia).
  reflexivity.
Qed.

Lemma processArgs_separates_options_witness :
  exists s' calls,
    processArgs_options (mkArgsBuild false false false false) false false
      (eb40a_options ++ eb40a_main) zero_settings =
      Returns ([str "-verbose"; str "-flashsuite:010A0000";
                str "squawk.application.Startup"], s', calls) /\
    ramSize s' = 64000 /\ nvmSize s' = 8.
Proof.
  rewrite (processArgs_separates_options (mkArgsBuild false false false false)
             false false eb40a_options eb40a_main zero_settings).
  - vm_compute. eexists _, _. split; [reflexivity |]. split; reflexivity.
  - repeat constructor.
  - vm_compute. discriminate.
  - vm_compute. lia.
Defined.

End OptionsFacts.

(** ** The size that [newBuffer] allocates *)

Module AllocationFacts.
Import Machine MachineFacts Vm Buffers BuffersFacts Util UtilFacts Setup SetupFacts.
Local Open Scope Z_scope.

Lemma page_rounded_pages k size :
  0 <= k -> 0 <= size -> size + 2 ^ k <= 2 ^ 31 ->
  page_rounded (2 ^ k) size = pages (2 ^ k) size.
Proof.
  intros Hk Hsize Hfit. unfold page_rounded, pages.
  pose proof (Z.pow_pos_nonneg 2 k ltac:(lia) Hk) as Hp.
  replace (2 ^ k - 1) with (Z.ones k) by (rewrite Z.ones_equiv; lia).
  rewrite <- Z.ldiff_land, Z.ldiff_ones_r by lia.
  rewrite Z.shiftl_mul_pow2, Z.shiftr_div_pow2 by lia.
  replace (size + Z.ones k) with (size + 2 ^ k - 1)
    by (rewrite Z.ones_equiv; lia).
  pose proof (pages_bounds k size Hk) as Hb. unfold pages in Hb.
  apply to_int_id. unfold in_int. lia.
Qed.

(** X28: for a page size and a word size that are powers of two,
    addresses of 32 bits and a size that with one more page stays
    below [2^31], [newBuffer] asks the allocator for the least multiple
    of the page size that holds the size requested.  Where assumptions
    are checked an answer that is not word aligned is fatal; a null
    answer ends the VM or is returned, as [fatalIfFail] says; a full
    registry is fatal; otherwise the answer is returned and registered
    after the buffers already there.  A size within one page of [2^32]
    wraps around: the allocator is asked for 0 bytes and, if it
    answers with a block, the bytes zeroed do not fit it. *)
Theorem newBuffer_allocates_whole_pages ASSUME j k valloc size fatalIfFail r :
  0 <= j < 32 -> 0 <= k < 31 -> 0 <= size -> well_sized r ->
  (forall n, is_uword (valloc n)) ->
  (size + 2 ^ k <= 2 ^ 31 ->
   let actualSize := pages (2 ^ k) size in
   let buffer := valloc actualSize in
   let r' := mkRegistry (<[BufferCount r := buffer]> (Buffers r))
                        (S (BufferCount r)) in
   size <= actualSize < size + 2 ^ k /\ (2 ^ k | actualSize) /\
   newBuffer ASSUME (2 ^ j) (2 ^ k) valloc size fatalIfFail r =
     (if ASSUME && negb (buffer mod 2 ^ j =? 0) then FatalVMError ""
      else if buffer =? 0 then
        if fatalIfFail then Exits 1 else Returns (0, r)
      else if (MAX_BUFFERS <=? BufferCount r)%nat then
        FatalVMError "exceeded MAX_BUFFERS allocations"
      else Returns (buffer, r')) /\
   ((BufferCount r < MAX_BUFFERS)%nat ->
    registered r' = registered r ++ [buffer])) /\
  (2 ^ 32 - 2 ^ k < size < 2 ^ 32 ->
   page_rounded (2 ^ k) size = 0 /\
   (valloc 0 <> 0 -> (ASSUME = true -> (valloc 0) mod 2 ^ j = 0) ->
    newBuffer ASSUME (2 ^ j) (2 ^ k) valloc size fatalIfFail r =
      WritesPastEnd)).
Proof.
  intros Hj Hk Hsize Hwf Haddr.
  pose proof (pow2_le_32 k ltac:(lia)) as Hp.
  assert (Hassume : forall b, is_uword b ->
            assume ASSUME (isWordAligned (2 ^ j) (to_uint b)) =
              if ASSUME && negb (b mod 2 ^ j =? 0) then FatalVMError ""
              else Returns tt).
  { intros b Hb. rewrite to_uint_id by done.
    by rewrite isWordAligned_mod by done. }
  split.
  - intros Hfit actualSize buffer r'.
    pose proof (pages_bounds k size ltac:(lia)) as Hb.
    split; [exact Hb |]. split; [apply pages_divide |]. split.
    + unfold newBuffer. rewrite page_rounded_pages by lia.
      fold actualSize. fold buffer. rewrite Hassume by apply Haddr.
      destruct (ASSUME && negb (buffer mod 2 ^ j =? 0)); [done |].
      cbn [bind].
      destruct (Z.eqb_spec buffer 0) as [Hz | Hnz].
      { by rewrite decide_True by done. }
      rewrite decide_False by done.
      rewrite decide_False.
      2: { rewrite to_uint_to_int.
           rewrite !to_uint_id by (unfold is_uword; fold actualSize in Hb; lia).
           fold actualSize in Hb. lia. }
      destruct (Nat.leb_spec MAX_BUFFERS (BufferCount r)).
      * by rewrite decide_True by done.
      * by rewrite decide_False by lia.
    + intros Hroom.
      by destruct (registered_after_newBuffer buffer r Hwf Hroom).
  - intros Hwrap.
    assert (Hzero : page_rounded (2 ^ k) size = 0).
    { unfold page_rounded.
      replace (2 ^ k - 1) with (Z.ones k) by (rewrite Z.ones_equiv; lia).
      rewrite <- Z.ldiff_land, Z.ldiff_ones_r by lia.
      rewrite Z.shiftl_mul_pow2, Z.shiftr_div_pow2 by lia.
      assert (Hq : (size + Z.ones k) / 2 ^ k = 2 ^ (32 - k)).
      { rewrite Z.ones_equiv.
        assert (Hpow : 2 ^ 32 = 2 ^ (32 - k) * 2 ^ k)
          by (rewrite <- Z.pow_add_r by lia; f_equal; lia).
        symmetry.
        apply (Z.div_unique _ _ _ (size + Z.pred (2 ^ k) - 2 ^ 32)); lia. }
      rewrite Hq, <- Z.pow_add_r by lia.
      replace (32 - k + k) with 32 by lia. reflexivity. }
    split; [exact Hzero |]. intros Hblock Haligned.
    unfold newBuffer. rewrite Hzero, Hassume by apply Haddr.
    destruct ASSUME.
    + rewrite Haligned by done. cbn [andb negb Z.eqb bind].
      rewrite decide_False by done. rewrite decide_True; [done |].
      rewrite to_uint_to_int, (to_uint_id size) by (unfold is_uword; lia).
      change (to_uint 0) with 0. lia.
    + cbn [andb bind].
      rewrite decide_False by done. rewrite decide_True; [done |].
      rewrite to_uint_to_int, (to_uint_id size) by (unfold is_uword; lia).
      change (to_uint 0) with 0. lia.
Qed.

Lemma newBuffer_allocates_whole_pages_witness :
  newBuffer true (2 ^ 2) (2 ^ 12) (fun n => 65536 + n mod 65536) 5000 true
            two_buffers =
    Returns (65536 + 8192,
             mkRegistry [4096; 8192; 65536 + 8192; 0; 0; 0; 0; 0; 0; 0] 3) /\
  newBuffer true (2 ^ 2) (2 ^ 12) (fun n => 65536 + n mod 65536) (2 ^ 32 - 1)
            true two_buffers = WritesPastEnd.
Proof.
  destruct (newBuffer_allocates_whole_pages true 2 12
              (fun n => 65536 + n mod 65536) 5000 true two_buffers)
    as [Hpages _].
  1-3: lia.
  { split; [reflexivity | unfold MAX_BUFFERS; simpl; lia]. }
  { intros n. unfold is_uword.
    pose proof (Z.mod_pos_bound n 65536 ltac:(lia)). lia. }
  destruct (newBuffer_allocates_whole_pages true 2 12
              (fun n => 65536 + n mod 65536) (2 ^ 32 - 1) true two_buffers)
    as [_ Hwrap].
  1-3: lia.
  { split; [reflexivity | unfold MAX_BUFFERS; simpl; lia]. }
  { intros n. unfold is_uword.
    pose proof (Z.mod_pos_bound n 65536 ltac:(lia)). lia. }
  split.
  - destruct Hpages as (_ & _ & Hrun & _); [lia |]. exact Hrun.
  - destruct Hwrap as (_ & Hrun); [lia |]. apply Hrun; [discriminate |].
    intros _. reflexivity.
Defined.

End AllocationFacts.
